(** * fastqueue2: the two single-producer/single-consumer ring buffers

    A shallow embedding of

    - [src/dro/spsc-queue.hpp]   : the index-tracked queue [dro::SPSCQueue]
      with its two backing stores [HeapBuffer] and [StackBuffer];
    - [src/fast_queue_x86_64.h]  : the sentinel-tracked [FastQueue], x86-64;
    - [src/fast_queue_arm64.h]   : the sentinel-tracked [FastQueue], arm64;

    and, to compare them with, the bounded first-in first-out queue the
    specification describes ([Fifo]).

    Conventions.

    - [std::size_t] and [uint64_t] values are [Z] with the 64-bit wrap-around
      written out ([wrap64]).
    - Operations are modelled as whole operations on the queue object (the
      producer's and the consumer's calls interleave, their bodies do not).
    - A busy-wait loop takes a fuel argument, the number of times its
      condition may be evaluated; [None] means that the loop is still
      spinning when the fuel is used up.  Within one operation nothing else
      changes the object, so a loop that has not left after its refresh
      never leaves. *)

From Stdlib Require Import ZArith Lia Bool.
From stdpp Require Import base tactics option list gmap.

Local Open Scope Z_scope.

(** ** Machine integers *)

Definition wrap64 (x : Z) : Z := x mod 2 ^ 64.

(** [std::numeric_limits<std::size_t>::max()] on the 64-bit targets the
    repository builds for. *)
Definition MAX_SIZE_T : Z := 2 ^ 64 - 1.

(** ** The index-tracked queue, [namespace dro] *)

Module dro.

Module details.

(** [padding = ((cacheLineSize - 1) / sizeof(T)) + 1] *)
Definition padding (cacheLineSize sizeof_T : Z) : Z :=
  (cacheLineSize - 1) / sizeof_T + 1.

(** The fallback of [cacheLineSize] when the platform reports none. *)
Definition cacheLineSize_fallback : Z := 64.

Definition MAX_BYTES_ON_STACK : Z := 2097152.

(** [concept MAX_STACK_SIZE = (N <= (MAX_BYTES_ON_STACK / sizeof(T)))] *)
Definition MAX_STACK_SIZE (sizeof_T N : Z) : bool :=
  N <=? MAX_BYTES_ON_STACK / sizeof_T.

Inductive exception : Type :=
| logic_error        (* "Capacity must be a positive number; ..." *)
| overflow_error     (* "Capacity with padding exceeds std::size_t. ..." *)
| invalid_argument.  (* "Capacity in constructor is ignored for stack ..." *)

End details.

Section SPSC.

(** The element type, its value-initialised object [T{}] and the
    [static constexpr padding] of the backing store. *)
Context {T : Type}.
Variable T_default : T.
Variable padding : Z.

(** The two members a backing store hands to the queue. *)
Record Buffer : Type := mkBuffer {
  buf_capacity_ : Z;
  buf_buffer_ : list T
}.

(** [HeapBuffer::HeapBuffer(capacity)] *)
Definition HeapBuffer (capacity : Z) : details.exception + Buffer :=
  let capacity_ := wrap64 (capacity + 1) in
  if capacity <? 1 then inl details.logic_error
  else if capacity_ >? wrap64 (MAX_SIZE_T - wrap64 (2 * padding))
  then inl details.overflow_error
  else inr (mkBuffer capacity_
              (replicate (Z.to_nat (wrap64 (capacity_ + wrap64 (2 * padding))))
                 T_default)).

(** [StackBuffer<T, N>::StackBuffer(capacity)].  The member
    [std::array<T, capacity_ + 2 * padding> buffer_] has no initialiser and
    the constructor does not assign it: it is default-initialised, and for a
    trivially constructible [T] its elements are indeterminate.  [storage]
    is the array of [capacity_ + 2 * padding] elements as the constructor
    leaves it, whatever it holds. *)
Definition StackBuffer (N capacity : Z) (storage : list T)
  : details.exception + Buffer :=
  if negb (capacity =? 0) then inl details.invalid_argument
  else inr (mkBuffer (wrap64 (N + 1)) storage).

(** [class SPSCQueue]: the backing store, [writer_] and [reader_]. *)
Record SPSCQueue : Type := mkSPSCQueue {
  capacity_ : Z;
  buffer_ : list T;
  writeIndex_ : Z;
  readIndexCache_ : Z;
  paddingCache_ : Z;
  readIndex_ : Z;
  writeIndexCache_ : Z;
  capacityCache_ : Z
}.

Definition set_buffer_ (b : list T) (q : SPSCQueue) : SPSCQueue :=
  mkSPSCQueue (capacity_ q) b (writeIndex_ q) (readIndexCache_ q)
    (paddingCache_ q) (readIndex_ q) (writeIndexCache_ q) (capacityCache_ q).
Definition set_writeIndex_ (i : Z) (q : SPSCQueue) : SPSCQueue :=
  mkSPSCQueue (capacity_ q) (buffer_ q) i (readIndexCache_ q)
    (paddingCache_ q) (readIndex_ q) (writeIndexCache_ q) (capacityCache_ q).
Definition set_readIndexCache_ (i : Z) (q : SPSCQueue) : SPSCQueue :=
  mkSPSCQueue (capacity_ q) (buffer_ q) (writeIndex_ q) i
    (paddingCache_ q) (readIndex_ q) (writeIndexCache_ q) (capacityCache_ q).
Definition set_readIndex_ (i : Z) (q : SPSCQueue) : SPSCQueue :=
  mkSPSCQueue (capacity_ q) (buffer_ q) (writeIndex_ q) (readIndexCache_ q)
    (paddingCache_ q) i (writeIndexCache_ q) (capacityCache_ q).
Definition set_writeIndexCache_ (i : Z) (q : SPSCQueue) : SPSCQueue :=
  mkSPSCQueue (capacity_ q) (buffer_ q) (writeIndex_ q) (readIndexCache_ q)
    (paddingCache_ q) (readIndex_ q) i (capacityCache_ q).

(** [SPSCQueue::SPSCQueue(capacity)]; [N] is the template argument, [0]
    selects the heap store.  [storage] is what the array of the stack store
    holds; the heap store does not look at it. *)
Definition SPSCQueue_ctor (N capacity : Z) (storage : list T)
  : details.exception + SPSCQueue :=
  match (if N =? 0 then HeapBuffer capacity
         else StackBuffer N capacity storage) with
  | inl e => inl e
  | inr b =>
      inr (mkSPSCQueue (buf_capacity_ b) (buf_buffer_ b)
             0 0 padding 0 0 (buf_capacity_ b))
  end.

(** [buffer_[i] = val] and [buffer_[i]].  Outside the vector the source is
    undefined; [index_in_range] below shows that no operation gets there
    from a well-formed queue. *)
Definition write_value (writeIndex : Z) (val : T) (q : SPSCQueue) : SPSCQueue :=
  set_buffer_
    (<[Z.to_nat (wrap64 (writeIndex + paddingCache_ q)) := val]> (buffer_ q)) q.

Definition read_value (readIndex : Z) (q : SPSCQueue) : T :=
  default T_default (buffer_ q !! Z.to_nat (wrap64 (readIndex + padding))).

(** [(index == cap - 1) ? 0 : index + 1] *)
Definition next_index (cap index : Z) : Z :=
  if index =? wrap64 (cap - 1) then 0 else wrap64 (index + 1).

(** The loop of [emplace]:
    [while (nextWriteIndex == writer_.readIndexCache_)
       writer_.readIndexCache_ = reader_.readIndex_.load(acquire);] *)
Fixpoint emplace_wait (fuel : nat) (nextWriteIndex : Z) (q : SPSCQueue)
  : option SPSCQueue :=
  match fuel with
  | O => None
  | S fuel' =>
      if nextWriteIndex =? readIndexCache_ q
      then emplace_wait fuel' nextWriteIndex
             (set_readIndexCache_ (readIndex_ q) q)
      else Some q
  end.

Definition emplace (fuel : nat) (val : T) (q : SPSCQueue) : option SPSCQueue :=
  let writeIndex := writeIndex_ q in
  let nextWriteIndex := next_index (capacity_ q) writeIndex in
  match emplace_wait fuel nextWriteIndex q with
  | None => None
  | Some q1 => Some (set_writeIndex_ nextWriteIndex (write_value writeIndex val q1))
  end.

Definition force_emplace (val : T) (q : SPSCQueue) : SPSCQueue :=
  let writeIndex := writeIndex_ q in
  let nextWriteIndex := next_index (capacity_ q) writeIndex in
  set_writeIndex_ nextWriteIndex (write_value writeIndex val q).

Definition try_emplace (val : T) (q : SPSCQueue) : bool * SPSCQueue :=
  let writeIndex := writeIndex_ q in
  let nextWriteIndex := next_index (capacity_ q) writeIndex in
  let store q1 :=
    (true, set_writeIndex_ nextWriteIndex (write_value writeIndex val q1)) in
  if nextWriteIndex =? readIndexCache_ q then
    let q1 := set_readIndexCache_ (readIndex_ q) q in
    if nextWriteIndex =? readIndexCache_ q1 then (false, q1) else store q1
  else store q.

Definition push := emplace.
Definition force_push := force_emplace.
Definition try_push := try_emplace.

(** The loop of [pop]:
    [while (readIndex == reader_.writeIndexCache_)
       reader_.writeIndexCache_ = writer_.writeIndex_.load(acquire);] *)
Fixpoint pop_wait (fuel : nat) (readIndex : Z) (q : SPSCQueue)
  : option SPSCQueue :=
  match fuel with
  | O => None
  | S fuel' =>
      if readIndex =? writeIndexCache_ q
      then pop_wait fuel' readIndex (set_writeIndexCache_ (writeIndex_ q) q)
      else Some q
  end.

(** [pop(T &val)]: the value left in [val] and the queue. *)
Definition pop (fuel : nat) (q : SPSCQueue) : option (T * SPSCQueue) :=
  let readIndex := readIndex_ q in
  match pop_wait fuel readIndex q with
  | None => None
  | Some q1 =>
      let val := read_value readIndex q1 in
      let nextReadIndex := next_index (capacityCache_ q1) readIndex in
      Some (val, set_readIndex_ nextReadIndex q1)
  end.

(** [try_pop(T &val)]: [Some v] for [true] with [val = v], [None] for
    [false] ([val] untouched). *)
Definition try_pop (q : SPSCQueue) : option T * SPSCQueue :=
  let readIndex := readIndex_ q in
  let take q1 :=
    let val := read_value readIndex q1 in
    let nextReadIndex := next_index (capacityCache_ q1) readIndex in
    (Some val, set_readIndex_ nextReadIndex q1) in
  if readIndex =? writeIndexCache_ q then
    let q1 := set_writeIndexCache_ (writeIndex_ q) q in
    if readIndex =? writeIndexCache_ q1 then (None, q1) else take q1
  else take q.

Definition size (q : SPSCQueue) : Z :=
  let writeIndex := writeIndex_ q in
  let readIndex := readIndex_ q in
  if writeIndex >=? readIndex then wrap64 (writeIndex - readIndex)
  else wrap64 (wrap64 (capacity_ q - readIndex) + writeIndex).

Definition empty (q : SPSCQueue) : bool := writeIndex_ q =? readIndex_ q.

Definition capacity (q : SPSCQueue) : Z := wrap64 (capacity_ q - 1).

(** *** Specification vocabulary for the queue *)

(** The shape every constructed queue has and every operation keeps: the
    indices and their shadows lie below [capacity_], the vector holds
    [capacity_ + 2 * padding] elements and that sum fits [std::size_t]. *)
Record wf (q : SPSCQueue) : Prop := mk_wf {
  wf_padding : 0 < padding;
  wf_capacity : 2 <= capacity_ q /\ capacity_ q + 2 * padding <= MAX_SIZE_T;
  wf_buffer : Z.of_nat (length (buffer_ q)) = capacity_ q + 2 * padding;
  wf_writeIndex : 0 <= writeIndex_ q < capacity_ q;
  wf_readIndex : 0 <= readIndex_ q < capacity_ q;
  wf_readIndexCache : 0 <= readIndexCache_ q < capacity_ q;
  wf_writeIndexCache : 0 <= writeIndexCache_ q < capacity_ q;
  wf_capacityCache : capacityCache_ q = capacity_ q;
  wf_paddingCache : paddingCache_ q = padding
}.

(** Steps from index [from] forward to index [to] around a ring of [cap]
    slots. *)
Definition distance (cap from to : Z) : Z :=
  if to >=? from then to - from else cap - from + to.

(** Section 3 of the specification: full is occupancy
    [capacity_with_slack - 1], i.e. the next write index is the read index. *)
Definition full (q : SPSCQueue) : bool :=
  next_index (capacity_ q) (writeIndex_ q) =? readIndex_ q.

(** The shadows are consistent when neither side is misled by its stale
    copy: the producer's [readIndexCache_] is not ahead of [readIndex_], the
    consumer's [writeIndexCache_] not ahead of [writeIndex_]. *)
Definition shadows_ok (q : SPSCQueue) : Prop :=
  distance (capacity_ q) (readIndex_ q) (writeIndexCache_ q)
    <= distance (capacity_ q) (readIndex_ q) (writeIndex_ q)
  /\ distance (capacity_ q) (readIndex_ q) (writeIndex_ q)
    <= distance (capacity_ q) (readIndexCache_ q) (writeIndex_ q).

(** The index [i] slots after [from]. *)
Definition index_after (cap from : Z) (i : nat) : Z :=
  let x := from + Z.of_nat i in if x <? cap then x else x - cap.

(** The unread elements, oldest first. *)
Definition contents (q : SPSCQueue) : list T :=
  map (fun i => read_value (index_after (capacity_ q) (readIndex_ q) i) q)
    (seq 0 (Z.to_nat (size q))).

(** Whole operations of the two threads, in the order they take effect. *)
Inductive op : Type :=
| Push (val : T)
| TryPush (val : T)
| Pop
| TryPop.

(** What a run has enqueued and dequeued so far. *)
Record history : Type := mkHistory {
  h_queue : SPSCQueue;
  h_pushed : list T;
  h_popped : list T
}.

Definition step (fuel : nat) (o : op) (h : history) : option history :=
  let q := h_queue h in
  match o with
  | Push val =>
      match push fuel val q with
      | None => None
      | Some q' => Some (mkHistory q' (h_pushed h ++ [val]) (h_popped h))
      end
  | TryPush val =>
      match try_push val q with
      | (true, q') => Some (mkHistory q' (h_pushed h ++ [val]) (h_popped h))
      | (false, q') => Some (mkHistory q' (h_pushed h) (h_popped h))
      end
  | Pop =>
      match pop fuel q with
      | None => None
      | Some (val, q') => Some (mkHistory q' (h_pushed h) (h_popped h ++ [val]))
      end
  | TryPop =>
      match try_pop q with
      | (Some val, q') => Some (mkHistory q' (h_pushed h) (h_popped h ++ [val]))
      | (None, q') => Some (mkHistory q' (h_pushed h) (h_popped h))
      end
  end.

Fixpoint run (fuel : nat) (ops : list op) (h : history) : option history :=
  match ops with
  | [] => Some h
  | o :: ops' =>
      match step fuel o h with
      | None => None
      | Some h' => run fuel ops' h'
      end
  end.

(** [n] consecutive [try_push] calls: their results and the queue. *)
Fixpoint try_push_all (vals : list T) (q : SPSCQueue) : list bool * SPSCQueue :=
  match vals with
  | [] => ([], q)
  | val :: vals' =>
      let '(b, q1) := try_push val q in
      let '(bs, q2) := try_push_all vals' q1 in
      (b :: bs, q2)
  end.

End SPSC.

Arguments SPSCQueue : clear implicits.
Arguments Buffer : clear implicits.
Arguments op : clear implicits.
Arguments history : clear implicits.

End dro.

(** ** The sentinel-tracked queue, [class FastQueue]

    [T] is a 64-bit, pointer-like type ([static_assert(sizeof(T) == 8)]);
    a value of it is the integer of its bits, [nullptr] is [0].  Both
    headers declare the same members; alignment plays no role here. *)

Module FastQueueData.

Definition T : Type := Z.
Definition nullptr : T := 0.

Record FastQueue : Type := mkFastQueue {
  mReadPosition : Z;
  mWritePosition : Z;
  mExitThread : Z;
  mExitThreadSemaphore : bool;
  mRingBuffer : list T
}.

(** [static_assert((RING_BUFFER_SIZE & (RING_BUFFER_SIZE + 1)) == 0)], the
    sum taken in [uint64_t]. *)
Definition ring_size_ok (RING_BUFFER_SIZE : Z) : bool :=
  Z.land RING_BUFFER_SIZE (wrap64 (RING_BUFFER_SIZE + 1)) =? 0.

(** [mRingBuffer[position & RING_BUFFER_SIZE].mObj] *)
Definition mObj (RING_BUFFER_SIZE position : Z) (q : FastQueue) : T :=
  default nullptr (mRingBuffer q !! Z.to_nat (Z.land position RING_BUFFER_SIZE)).

(** [mRingBuffer[position & RING_BUFFER_SIZE].mObj = val] *)
Definition set_mObj (RING_BUFFER_SIZE position : Z) (val : T) (q : FastQueue)
  : FastQueue :=
  mkFastQueue (mReadPosition q) (mWritePosition q) (mExitThread q)
    (mExitThreadSemaphore q)
    (<[Z.to_nat (Z.land position RING_BUFFER_SIZE) := val]> (mRingBuffer q)).

Definition set_mReadPosition (p : Z) (q : FastQueue) : FastQueue :=
  mkFastQueue p (mWritePosition q) (mExitThread q) (mExitThreadSemaphore q)
    (mRingBuffer q).

Definition set_mWritePosition (p : Z) (q : FastQueue) : FastQueue :=
  mkFastQueue (mReadPosition q) p (mExitThread q) (mExitThreadSemaphore q)
    (mRingBuffer q).

Definition set_mExitThreadSemaphore (b : bool) (q : FastQueue) : FastQueue :=
  mkFastQueue (mReadPosition q) (mWritePosition q) (mExitThread q) b
    (mRingBuffer q).

(** How a wait loop of [push] is left. *)
Inductive wait_exit : Type :=
| SlotFree    (* the loop condition became false *)
| Abandon.    (* [return] from inside the loop *)

(** Whole operations of the two threads, in the order they take effect. *)
Inductive op : Type :=
| Push (val : T)
| Pop.

Record history : Type := mkHistory {
  h_queue : FastQueue;
  h_pushed : list T;
  h_popped : list T
}.

End FastQueueData.

(** *** [src/fast_queue_x86_64.h] *)

Module FastQueue_x86_64.
Import FastQueueData.

Section Ring.
Variable RING_BUFFER_SIZE : Z.

(** The object after its default member initialisers. *)
Definition init : FastQueue :=
  mkFastQueue 0 0 0 false (replicate (Z.to_nat (RING_BUFFER_SIZE + 1)) nullptr).

(** [while (mRingBuffer[mWritePosition & RING_BUFFER_SIZE].mObj)
      if (mExitThreadSemaphore) return;] *)
Fixpoint push_wait (fuel : nat) (q : FastQueue) : option wait_exit :=
  match fuel with
  | O => None
  | S fuel' =>
      if negb (mObj RING_BUFFER_SIZE (mWritePosition q) q =? 0)
      then if mExitThreadSemaphore q then Some Abandon else push_wait fuel' q
      else Some SlotFree
  end.

Definition push (fuel : nat) (val : T) (q : FastQueue) : option FastQueue :=
  match push_wait fuel q with
  | None => None
  | Some Abandon => Some q
  | Some SlotFree =>
      Some (set_mWritePosition (wrap64 (mWritePosition q + 1))
              (set_mObj RING_BUFFER_SIZE (mWritePosition q) val q))
  end.

(** [pop(T& aOut)]: the value left in [aOut] and the queue. *)
Fixpoint pop (fuel : nat) (q : FastQueue) : option (T * FastQueue) :=
  match fuel with
  | O => None
  | S fuel' =>
      let aOut := mObj RING_BUFFER_SIZE (mReadPosition q) q in
      if aOut =? 0 then
        if (mExitThread q =? mReadPosition q) && mExitThreadSemaphore q
        then Some (nullptr, q)
        else pop fuel' q
      else
        Some (aOut,
              set_mReadPosition (wrap64 (mReadPosition q + 1))
                (set_mObj RING_BUFFER_SIZE (mReadPosition q) nullptr q))
  end.

Definition stopQueue (q : FastQueue) : FastQueue :=
  mkFastQueue (mReadPosition q) (mWritePosition q) (mWritePosition q) true
    (mRingBuffer q).

End Ring.
End FastQueue_x86_64.

(** *** [src/fast_queue_arm64.h] *)

Module FastQueue_arm64.
Import FastQueueData.

Section Ring.
Variable RING_BUFFER_SIZE : Z.

(** The object after its default member initialisers: both positions
    start at [1]. *)
Definition init : FastQueue :=
  mkFastQueue 1 1 0 false (replicate (Z.to_nat (RING_BUFFER_SIZE + 1)) nullptr).

(** [while (mRingBuffer[mWritePosition&RING_BUFFER_SIZE].mObj != nullptr)
      if (mExitThreadSemaphore) return;] *)
Fixpoint push_wait (fuel : nat) (q : FastQueue) : option wait_exit :=
  match fuel with
  | O => None
  | S fuel' =>
      if negb (mObj RING_BUFFER_SIZE (mWritePosition q) q =? nullptr)
      then if mExitThreadSemaphore q then Some Abandon else push_wait fuel' q
      else Some SlotFree
  end.

Definition push (fuel : nat) (val : T) (q : FastQueue) : option FastQueue :=
  match push_wait fuel q with
  | None => None
  | Some Abandon => Some q
  | Some SlotFree =>
      Some (set_mWritePosition (wrap64 (mWritePosition q + 1))
              (set_mObj RING_BUFFER_SIZE (mWritePosition q) val q))
  end.

(** [pop(T& aOut)]: the exit test compares the marker only. *)
Fixpoint pop (fuel : nat) (q : FastQueue) : option (T * FastQueue) :=
  match fuel with
  | O => None
  | S fuel' =>
      let aOut := mObj RING_BUFFER_SIZE (mReadPosition q) q in
      if aOut =? 0 then
        if mExitThread q =? mReadPosition q
        then Some (nullptr, q)
        else pop fuel' q
      else
        Some (aOut,
              set_mReadPosition (wrap64 (mReadPosition q + 1))
                (set_mObj RING_BUFFER_SIZE (mReadPosition q) nullptr q))
  end.

Definition stopQueue (q : FastQueue) : FastQueue :=
  mkFastQueue (mReadPosition q) (mWritePosition q) (mWritePosition q) true
    (mRingBuffer q).

End Ring.
End FastQueue_arm64.

(** *** What both variants are measured against *)

Module FastQueueSpec.
Import FastQueueData.

(** The two headers behind one name each. *)
Inductive arch : Type :=
| x86_64
| arm64.

Definition init (a : arch) : Z -> FastQueue :=
  match a with
  | x86_64 => FastQueue_x86_64.init
  | arm64 => FastQueue_arm64.init
  end.

Definition push (a : arch) : Z -> nat -> T -> FastQueue -> option FastQueue :=
  match a with
  | x86_64 => FastQueue_x86_64.push
  | arm64 => FastQueue_arm64.push
  end.

Definition pop (a : arch) : Z -> nat -> FastQueue -> option (T * FastQueue) :=
  match a with
  | x86_64 => FastQueue_x86_64.pop
  | arm64 => FastQueue_arm64.pop
  end.

Definition stopQueue (a : arch) : FastQueue -> FastQueue :=
  match a with
  | x86_64 => FastQueue_x86_64.stopQueue
  | arm64 => FastQueue_arm64.stopQueue
  end.

(** The ring sizes the class accepts and can index: the [static_assert]
    holds and the array [mRingBuffer] of [RING_BUFFER_SIZE + 1] slots is not
    of size [0]. *)
Definition ring_ok (RING_BUFFER_SIZE : Z) : Prop :=
  0 <= RING_BUFFER_SIZE < MAX_SIZE_T /\ ring_size_ok RING_BUFFER_SIZE = true.

(** The test that lets [pop] leave its loop with [nullptr]. *)
Definition exit_test (a : arch) (q : FastQueue) : bool :=
  match a with
  | x86_64 => (mExitThread q =? mReadPosition q) && mExitThreadSemaphore q
  | arm64 => mExitThread q =? mReadPosition q
  end.

(** Does an operation look at the shutdown flag?  A [push] waiting on an
    occupied slot is abandoned at once when shutdown is requested: there
    is a queue on which [push] spins with the flag clear and returns,
    leaving the queue as it was, with the flag set. *)
Definition push_checks_flag (a : arch) (RING_BUFFER_SIZE : Z) : Prop :=
  exists (val : T) (q : FastQueue),
    (forall fuel,
        push a RING_BUFFER_SIZE fuel val (set_mExitThreadSemaphore false q)
        = None)
    /\ (forall fuel,
          push a RING_BUFFER_SIZE (S fuel) val (set_mExitThreadSemaphore true q)
          = Some (set_mExitThreadSemaphore true q)).

(** [push] never reads the flag: setting it beforehand changes nothing but
    the flag in the result. *)
Definition push_ignores_flag (a : arch) (RING_BUFFER_SIZE : Z) : Prop :=
  forall (fuel : nat) (val : T) (q : FastQueue) (b : bool),
    push a RING_BUFFER_SIZE fuel val (set_mExitThreadSemaphore b q)
    = option_map (set_mExitThreadSemaphore b) (push a RING_BUFFER_SIZE fuel val q).

(** The same two for [pop]. *)
Definition pop_checks_flag (a : arch) (RING_BUFFER_SIZE : Z) : Prop :=
  exists q : FastQueue,
    (forall fuel,
        pop a RING_BUFFER_SIZE fuel (set_mExitThreadSemaphore false q) = None)
    /\ (forall fuel,
          pop a RING_BUFFER_SIZE (S fuel) (set_mExitThreadSemaphore true q)
          = Some (nullptr, set_mExitThreadSemaphore true q)).

Definition pop_ignores_flag (a : arch) (RING_BUFFER_SIZE : Z) : Prop :=
  forall (fuel : nat) (q : FastQueue) (b : bool),
    pop a RING_BUFFER_SIZE fuel (set_mExitThreadSemaphore b q)
    = option_map (fun r => (fst r, set_mExitThreadSemaphore b (snd r)))
        (pop a RING_BUFFER_SIZE fuel q).

(** Pushed values are never the sentinel. *)
Definition pushes_nonnull (o : op) : Prop :=
  match o with
  | Push val => val <> nullptr
  | Pop => True
  end.

Section Runs.
Variable a : arch.
Variable RING_BUFFER_SIZE : Z.

(** A [pop] that leaves [nullptr] in [aOut] delivered nothing. *)
Definition step (fuel : nat) (o : op) (h : history) : option history :=
  let q := h_queue h in
  match o with
  | Push val =>
      match push a RING_BUFFER_SIZE fuel val q with
      | None => None
      | Some q' => Some (mkHistory q' (h_pushed h ++ [val]) (h_popped h))
      end
  | Pop =>
      match pop a RING_BUFFER_SIZE fuel q with
      | None => None
      | Some (aOut, q') =>
          Some (mkHistory q' (h_pushed h)
                  (if aOut =? nullptr then h_popped h else h_popped h ++ [aOut]))
      end
  end.

Fixpoint run (fuel : nat) (ops : list op) (h : history) : option history :=
  match ops with
  | [] => Some h
  | o :: ops' =>
      match step fuel o h with
      | None => None
      | Some h' => run fuel ops' h'
      end
  end.

(** [push] of each value in turn. *)
Fixpoint push_all (fuel : nat) (vals : list T) (q : FastQueue)
  : option FastQueue :=
  match vals with
  | [] => Some q
  | val :: vals' =>
      match push a RING_BUFFER_SIZE fuel val q with
      | None => None
      | Some q' => push_all fuel vals' q'
      end
  end.

(** [n] calls of [pop]: the values left in [aOut], and the queue. *)
Fixpoint pop_n (fuel : nat) (n : nat) (q : FastQueue)
  : option (list T * FastQueue) :=
  match n with
  | O => Some ([], q)
  | S n' =>
      match pop a RING_BUFFER_SIZE fuel q with
      | None => None
      | Some (aOut, q') =>
          match pop_n fuel n' q' with
          | None => None
          | Some (outs, q'') => Some (aOut :: outs, q'')
          end
      end
  end.

(** The ring as the list of its pending elements, oldest first: the
    [i]-th slot from the read position holds the [i]-th pending element,
    every other slot is [nullptr], and the write position is the read
    position plus their number. *)
Record holds (q : FastQueue) (pending : list T) : Prop := mk_holds {
  holds_length : Z.of_nat (length (mRingBuffer q)) = RING_BUFFER_SIZE + 1;
  holds_read : 0 <= mReadPosition q <= MAX_SIZE_T;
  holds_write :
    mWritePosition q = wrap64 (mReadPosition q + Z.of_nat (length pending));
  holds_bound : Z.of_nat (length pending) <= RING_BUFFER_SIZE + 1;
  holds_nonnull : Forall (fun val => val <> nullptr) pending;
  holds_slots :
    forall i : nat, Z.of_nat i <= RING_BUFFER_SIZE ->
      mObj RING_BUFFER_SIZE (mReadPosition q + Z.of_nat i) q
      = nth i pending nullptr
}.

End Runs.
End FastQueueSpec.

(** ** The queue of the specification

    What the specification asks of both queues, in its words: a bounded
    queue with "FIFO - values are dequeued in the exact order enqueued.  No
    reordering, no duplication, no loss"; push "blocks until space
    available, then enqueues"; try_push "enqueues and returns true, or
    returns false without mutating state if full"; pop "blocks until an
    element is available, then dequeues"; try_pop "dequeues and returns
    true, or returns false without mutating state if empty".

    This is that queue over a list of at most [bound] elements, not taken
    from the code; the two queues of the code are compared with it.  An
    operation that has to wait (a dequeue on nothing, an enqueue on [bound]
    elements) cannot be the next whole operation to take effect: [None]. *)

Module Fifo.

Section Fifo.
Context {A : Type}.
Variable bound : Z.

Inductive op : Type :=
| Enqueue (x : A)      (* blocking *)
| TryEnqueue (x : A)   (* refused when [bound] elements are held *)
| Dequeue              (* blocking *)
| TryDequeue.          (* refused when nothing is held *)

Record state : Type := mkState {
  pending : list A;     (* held, oldest first *)
  enqueued : list A;    (* every element accepted so far, in order *)
  dequeued : list A     (* every element handed out so far, in order *)
}.

Definition empty : state := mkState [] [] [].

Definition accept (x : A) (s : state) : state :=
  mkState (pending s ++ [x]) (enqueued s ++ [x]) (dequeued s).

Definition has_room (s : state) : bool :=
  Z.of_nat (length (pending s)) <? bound.

Definition step (o : op) (s : state) : option state :=
  match o with
  | Enqueue x => if has_room s then Some (accept x s) else None
  | TryEnqueue x => if has_room s then Some (accept x s) else Some s
  | Dequeue =>
      match pending s with
      | x :: rest => Some (mkState rest (enqueued s) (dequeued s ++ [x]))
      | [] => None
      end
  | TryDequeue =>
      match pending s with
      | x :: rest => Some (mkState rest (enqueued s) (dequeued s ++ [x]))
      | [] => Some s
      end
  end.

Fixpoint run (ops : list op) (s : state) : option state :=
  match ops with
  | [] => Some s
  | o :: ops' =>
      match step o s with
      | None => None
      | Some s' => run ops' s'
      end
  end.

End Fifo.

Arguments op : clear implicits.
Arguments state : clear implicits.

(** The operations of the two queues as operations of the specification,
    and what a history shows of the queue. *)
Definition of_dro {T : Type} (o : dro.op T) : op T :=
  match o with
  | dro.Push val => Enqueue val
  | dro.TryPush val => TryEnqueue val
  | dro.Pop => Dequeue
  | dro.TryPop => TryDequeue
  end.

Definition of_FastQueue (o : FastQueueData.op) : op FastQueueData.T :=
  match o with
  | FastQueueData.Push val => Enqueue val
  | FastQueueData.Pop => Dequeue
  end.

Definition dro_state {T : Type} (T_default : T) (padding : Z)
    (h : dro.history T) : state T :=
  mkState (dro.contents T_default padding (dro.h_queue h))
    (dro.h_pushed h) (dro.h_popped h).

End Fifo.

(** ** Facts about machine integers *)

Lemma wrap64_small (x : Z) : 0 <= x <= MAX_SIZE_T -> wrap64 x = x.
Proof. unfold wrap64, MAX_SIZE_T. intros H. apply Z.mod_small. lia. Qed.

Lemma wrap64_range (x : Z) : 0 <= wrap64 x <= MAX_SIZE_T.
Proof.
  unfold wrap64, MAX_SIZE_T.
  pose proof (Z.mod_pos_bound x (2 ^ 64) ltac:(lia)). lia.
Qed.

(** ** Facts about the queue of the specification *)

Module FifoFacts.

Section Fifo.
Context {A : Type}.
Variable bound : Z.

(** Nothing is reordered, duplicated or lost, and no more than [bound]
    elements are held. *)
Definition in_order (s : Fifo.state A) : Prop :=
  Fifo.enqueued s = Fifo.dequeued s ++ Fifo.pending s
  /\ Z.of_nat (length (Fifo.pending s)) <= bound.

Lemma step_in_order (o : Fifo.op A) (s s' : Fifo.state A) :
  in_order s -> Fifo.step bound o s = Some s' -> in_order s'.
Proof.
  intros [Hfifo Hlen] Hstep. unfold in_order.
  assert (Haccept : forall x, Fifo.has_room bound s = true ->
                      in_order (Fifo.accept x s)).
  { intros x Hroom. unfold Fifo.has_room in Hroom. apply Z.ltb_lt in Hroom.
    unfold in_order, Fifo.accept. simpl.
    rewrite Hfifo, app_assoc, length_app. simpl. split; [reflexivity|lia]. }
  assert (Htake : forall x rest, Fifo.pending s = x :: rest ->
                    in_order (Fifo.mkState rest (Fifo.enqueued s)
                                (Fifo.dequeued s ++ [x]))).
  { intros x rest Hp. unfold in_order. simpl. rewrite Hp in *.
    rewrite Hfifo, <- app_assoc. simpl in *. split; [reflexivity|lia]. }
  destruct o as [x|x| |]; simpl in Hstep.
  - destruct (Fifo.has_room bound s) eqn:Hroom; [|discriminate].
    inversion Hstep; subst. apply Haccept. reflexivity.
  - destruct (Fifo.has_room bound s) eqn:Hroom; inversion Hstep; subst.
    + apply Haccept. reflexivity.
    + split; assumption.
  - destruct (Fifo.pending s) as [|x rest] eqn:Hp; [discriminate|].
    inversion Hstep; subst. apply (Htake x rest eq_refl).
  - destruct (Fifo.pending s) as [|x rest] eqn:Hp; inversion Hstep; subst.
    + rewrite Hp. split; assumption.
    + apply (Htake x rest eq_refl).
Qed.

Lemma run_in_order (ops : list (Fifo.op A)) :
  forall s s' : Fifo.state A,
    in_order s -> Fifo.run bound ops s = Some s' -> in_order s'.
Proof.
  induction ops as [|o ops IH]; intros s s' Hs Hrun; simpl in Hrun.
  - inversion Hrun; subst. exact Hs.
  - destruct (Fifo.step bound o s) as [s1|] eqn:Hstep; [|discriminate].
    eapply IH; [|eassumption]. eapply step_in_order; eassumption.
Qed.

End Fifo.

Lemma all_delivered {A : Type} (pushed popped rest : list A) :
  pushed = popped ++ rest -> length popped = length pushed -> popped = pushed.
Proof.
  intros -> Hlen. rewrite length_app in Hlen.
  destruct rest; [rewrite app_nil_r; reflexivity|simpl in Hlen; lia].
Qed.

End FifoFacts.

(** ** Facts about the sentinel-tracked queue *)

Module FastQueueFacts.
Import FastQueueData FastQueueSpec.

(** A mask accepted by the [static_assert] is a run of one-bits. *)
Lemma land_succ_zero_ones (R : Z) :
  0 <= R -> Z.land R (R + 1) = 0 -> exists k, 0 <= k /\ R = Z.ones k.
Proof.
  revert R.
  apply (Zlt_0_ind (fun R => Z.land R (R + 1) = 0 ->
                             exists k, 0 <= k /\ R = Z.ones k)).
  intros R IH HR Hland.
  destruct (Z.eq_dec R 0) as [->|Hnz].
  { exists 0. split; [lia | reflexivity]. }
  destruct (Z.odd R) eqn:Hodd.
  - (* R = 2 q + 1 *)
    pose proof (Z.div_mod R 2 ltac:(lia)) as Hdm.
    rewrite Zmod_odd, Hodd in Hdm.
    set (q := R / 2) in *.
    assert (Hq : 0 <= q < R) by lia.
    assert (Hq' : Z.land q (q + 1) = 0).
    { apply Z.bits_inj'. intros n Hn.
      rewrite Z.bits_0.
      assert (Hb : Z.testbit (Z.land R (R + 1)) (Z.succ n) = false)
        by (rewrite Hland; apply Z.bits_0).
      rewrite Z.land_spec in Hb. rewrite Z.land_spec.
      replace R with (2 * q + 1) in Hb at 1 by lia.
      rewrite Z.testbit_odd_succ in Hb by lia.
      replace (R + 1) with (2 * (q + 1)) in Hb by lia.
      rewrite Z.testbit_even_succ in Hb by lia. exact Hb. }
    destruct (IH q ltac:(lia) Hq') as (k & Hk & Hqk).
    exists (k + 1). split; [lia|].
    rewrite Z.ones_equiv in *. rewrite Z.pow_add_r by lia. lia.
  - (* R even and positive: bit 0 of R + 1 and a set bit of R clash *)
    exfalso.
    pose proof (Z.div_mod R 2 ltac:(lia)) as Hdm.
    rewrite Zmod_odd, Hodd in Hdm.
    set (q := R / 2) in *.
    assert (Hq : 0 < q) by lia.
    assert (Hqq : Z.land q q = 0).
    { apply Z.bits_inj'. intros n Hn.
      rewrite Z.bits_0.
      assert (Hb : Z.testbit (Z.land R (R + 1)) (Z.succ n) = false)
        by (rewrite Hland; apply Z.bits_0).
      rewrite Z.land_spec in Hb. rewrite Z.land_spec.
      replace R with (2 * q) in Hb at 1 by lia.
      rewrite Z.testbit_even_succ in Hb by lia.
      replace (R + 1) with (2 * q + 1) in Hb by lia.
      rewrite Z.testbit_odd_succ in Hb by lia. exact Hb. }
    rewrite Z.land_diag in Hqq. lia.
Qed.

Section Ring.
Variable RING_BUFFER_SIZE : Z.
Hypothesis Hring : ring_ok RING_BUFFER_SIZE.

Lemma ring_pow2 :
  exists k, 0 <= k < 64 /\ RING_BUFFER_SIZE = Z.ones k
            /\ RING_BUFFER_SIZE + 1 = 2 ^ k.
Proof.
  destruct Hring as [[H0 Hmax] Hok].
  unfold ring_size_ok in Hok. apply Z.eqb_eq in Hok.
  rewrite wrap64_small in Hok by lia.
  destruct (land_succ_zero_ones _ H0 Hok) as (k & Hk & HR).
  exists k. rewrite HR, Z.ones_equiv. repeat split; try lia.
  destruct (Z.lt_ge_cases k 64) as [|Hge]; [assumption|exfalso].
  assert (2 ^ 64 <= 2 ^ k) by (apply Z.pow_le_mono_r; lia).
  rewrite HR, Z.ones_equiv in Hmax. unfold MAX_SIZE_T in Hmax. lia.
Qed.

(** The slot a position selects. *)
Lemma land_mod (p : Z) :
  Z.land p RING_BUFFER_SIZE = p mod (RING_BUFFER_SIZE + 1).
Proof.
  destruct ring_pow2 as (k & Hk & HR & HR1).
  rewrite HR1. rewrite HR at 1. apply Z.land_ones. lia.
Qed.

Lemma ring_divides : (RING_BUFFER_SIZE + 1 | 2 ^ 64).
Proof.
  destruct ring_pow2 as (k & Hk & _ & ->).
  exists (2 ^ (64 - k)). rewrite <- Z.pow_add_r by lia. f_equal. lia.
Qed.

Lemma ring_pos : 0 < RING_BUFFER_SIZE + 1.
Proof. destruct Hring as [[? ?] _]. lia. Qed.

Lemma land_range (p : Z) :
  0 <= Z.land p RING_BUFFER_SIZE < RING_BUFFER_SIZE + 1.
Proof. rewrite land_mod. apply Z.mod_pos_bound, ring_pos. Qed.

Lemma land_wrap64 (p : Z) :
  Z.land (wrap64 p) RING_BUFFER_SIZE = Z.land p RING_BUFFER_SIZE.
Proof.
  rewrite !land_mod. unfold wrap64.
  apply Z.mod_mod_divide, ring_divides.
Qed.

Lemma land_wrap64_add (p i : Z) :
  Z.land (wrap64 p + i) RING_BUFFER_SIZE = Z.land (p + i) RING_BUFFER_SIZE.
Proof.
  rewrite !land_mod.
  rewrite (Z.add_mod (wrap64 p)), (Z.add_mod p) by (pose proof ring_pos; lia).
  rewrite <- !land_mod, land_wrap64. reflexivity.
Qed.

Lemma land_add_ring (p : Z) :
  Z.land (p + (RING_BUFFER_SIZE + 1)) RING_BUFFER_SIZE
  = Z.land p RING_BUFFER_SIZE.
Proof.
  rewrite !land_mod.
  replace (p + (RING_BUFFER_SIZE + 1)) with (p + 1 * (RING_BUFFER_SIZE + 1)) by lia.
  apply Z_mod_plus_full.
Qed.

(** Offsets less than a ring apart select different slots. *)
Lemma land_add_inj (p i j : Z) :
  0 <= i <= RING_BUFFER_SIZE -> 0 <= j <= RING_BUFFER_SIZE ->
  Z.land (p + i) RING_BUFFER_SIZE = Z.land (p + j) RING_BUFFER_SIZE ->
  i = j.
Proof.
  intros Hi Hj. rewrite !land_mod. intros Heq.
  pose proof ring_pos as Hpos.
  apply Z.cong_iff_0 in Heq.
  replace (p + i - (p + j)) with (i - j) in Heq by lia.
  apply Z.mod_divide in Heq; [|lia].
  destruct Heq as [c Hc].
  assert (c = 0) by nia. lia.
Qed.

(** *** Reading and writing slots *)

Lemma mObj_wrap64 (p : Z) (q : FastQueue) :
  mObj RING_BUFFER_SIZE (wrap64 p) q = mObj RING_BUFFER_SIZE p q.
Proof. unfold mObj. rewrite land_wrap64. reflexivity. Qed.

Lemma mObj_set_same (p p' : Z) (val : T) (q : FastQueue) :
  Z.of_nat (length (mRingBuffer q)) = RING_BUFFER_SIZE + 1 ->
  Z.land p RING_BUFFER_SIZE = Z.land p' RING_BUFFER_SIZE ->
  mObj RING_BUFFER_SIZE p (set_mObj RING_BUFFER_SIZE p' val q) = val.
Proof.
  intros Hlen Heq. unfold mObj, set_mObj. simpl. rewrite Heq.
  rewrite list_lookup_insert_eq; [reflexivity|].
  pose proof (land_range p'). lia.
Qed.

Lemma mObj_set_other (p p' : Z) (val : T) (q : FastQueue) :
  Z.land p RING_BUFFER_SIZE <> Z.land p' RING_BUFFER_SIZE ->
  mObj RING_BUFFER_SIZE p (set_mObj RING_BUFFER_SIZE p' val q)
  = mObj RING_BUFFER_SIZE p q.
Proof.
  intros Hne. unfold mObj, set_mObj. simpl.
  rewrite list_lookup_insert_ne; [reflexivity|].
  pose proof (land_range p). pose proof (land_range p'). lia.
Qed.

(** *** The two variants, operation by operation *)

Lemma push_wait_arm64 (fuel : nat) (q : FastQueue) :
  FastQueue_arm64.push_wait RING_BUFFER_SIZE fuel q
  = FastQueue_x86_64.push_wait RING_BUFFER_SIZE fuel q.
Proof. induction fuel as [|fuel IH]; simpl; [reflexivity|]. rewrite IH. reflexivity. Qed.

Lemma push_arm64 (fuel : nat) (val : T) (q : FastQueue) :
  FastQueue_arm64.push RING_BUFFER_SIZE fuel val q
  = FastQueue_x86_64.push RING_BUFFER_SIZE fuel val q.
Proof.
  unfold FastQueue_arm64.push, FastQueue_x86_64.push.
  rewrite push_wait_arm64. reflexivity.
Qed.

Lemma push_arch (a : arch) (fuel : nat) (val : T) (q : FastQueue) :
  push a RING_BUFFER_SIZE fuel val q
  = FastQueue_x86_64.push RING_BUFFER_SIZE fuel val q.
Proof. destruct a; [reflexivity | apply push_arm64]. Qed.

Lemma pop_S (a : arch) (fuel : nat) (q : FastQueue) :
  pop a RING_BUFFER_SIZE (S fuel) q
  = let aOut := mObj RING_BUFFER_SIZE (mReadPosition q) q in
    if aOut =? 0 then
      if exit_test a q then Some (nullptr, q)
      else pop a RING_BUFFER_SIZE fuel q
    else
      Some (aOut,
            set_mReadPosition (wrap64 (mReadPosition q + 1))
              (set_mObj RING_BUFFER_SIZE (mReadPosition q) nullptr q)).
Proof. destruct a; reflexivity. Qed.

(** *** The wait loop of [push] *)

Lemma push_wait_free (fuel : nat) (q : FastQueue) :
  mObj RING_BUFFER_SIZE (mWritePosition q) q = nullptr ->
  FastQueue_x86_64.push_wait RING_BUFFER_SIZE (S fuel) q = Some SlotFree.
Proof. intros H. simpl. rewrite H. reflexivity. Qed.

Lemma push_wait_abandon (fuel : nat) (q : FastQueue) :
  mObj RING_BUFFER_SIZE (mWritePosition q) q <> nullptr ->
  mExitThreadSemaphore q = true ->
  FastQueue_x86_64.push_wait RING_BUFFER_SIZE (S fuel) q = Some Abandon.
Proof.
  intros H Hs. simpl. rewrite Hs.
  destruct (Z.eqb_spec (mObj RING_BUFFER_SIZE (mWritePosition q) q) 0);
    [contradiction | reflexivity].
Qed.

Lemma push_wait_spins (fuel : nat) (q : FastQueue) :
  mObj RING_BUFFER_SIZE (mWritePosition q) q <> nullptr ->
  mExitThreadSemaphore q = false ->
  FastQueue_x86_64.push_wait RING_BUFFER_SIZE fuel q = None.
Proof.
  intros H Hs. induction fuel as [|fuel IH]; simpl; [reflexivity|].
  rewrite Hs, IH.
  destruct (Z.eqb_spec (mObj RING_BUFFER_SIZE (mWritePosition q) q) 0);
    [contradiction | reflexivity].
Qed.

(** *** The loop of [pop] *)

Lemma pop_take (a : arch) (fuel : nat) (q : FastQueue) :
  mObj RING_BUFFER_SIZE (mReadPosition q) q <> nullptr ->
  pop a RING_BUFFER_SIZE (S fuel) q
  = Some (mObj RING_BUFFER_SIZE (mReadPosition q) q,
          set_mReadPosition (wrap64 (mReadPosition q + 1))
            (set_mObj RING_BUFFER_SIZE (mReadPosition q) nullptr q)).
Proof.
  intros H. rewrite pop_S. cbv zeta.
  destruct (Z.eqb_spec (mObj RING_BUFFER_SIZE (mReadPosition q) q) 0);
    [contradiction | reflexivity].
Qed.

Lemma pop_end_of_stream (a : arch) (fuel : nat) (q : FastQueue) :
  mObj RING_BUFFER_SIZE (mReadPosition q) q = nullptr ->
  exit_test a q = true ->
  pop a RING_BUFFER_SIZE (S fuel) q = Some (nullptr, q).
Proof. intros H He. rewrite pop_S. cbv zeta. rewrite H, He. reflexivity. Qed.

Lemma pop_spins (a : arch) (fuel : nat) (q : FastQueue) :
  mObj RING_BUFFER_SIZE (mReadPosition q) q = nullptr ->
  exit_test a q = false ->
  pop a RING_BUFFER_SIZE fuel q = None.
Proof.
  intros H He. induction fuel as [|fuel IH]; [destruct a; reflexivity|].
  rewrite pop_S. cbv zeta. rewrite H, He. exact IH.
Qed.

(** [pop] in closed form: with fuel for one evaluation of the loop body
    it takes the element at the read position if there is one, leaves with
    [nullptr] if the exit test holds, and otherwise never leaves. *)
Lemma pop_closed (a : arch) (fuel : nat) (q : FastQueue) :
  pop a RING_BUFFER_SIZE (S fuel) q
  = if mObj RING_BUFFER_SIZE (mReadPosition q) q =? nullptr
    then if exit_test a q then Some (nullptr, q) else None
    else Some (mObj RING_BUFFER_SIZE (mReadPosition q) q,
               set_mReadPosition (wrap64 (mReadPosition q + 1))
                 (set_mObj RING_BUFFER_SIZE (mReadPosition q) nullptr q)).
Proof.
  destruct (Z.eqb_spec (mObj RING_BUFFER_SIZE (mReadPosition q) q) nullptr)
    as [Hz|Hnz].
  - destruct (exit_test a q) eqn:He.
    + apply pop_end_of_stream; assumption.
    + apply pop_spins; assumption.
  - apply pop_take. assumption.
Qed.

Lemma pop_nullptr_iff (a : arch) (fuel : nat) (q q' : FastQueue) :
  pop a RING_BUFFER_SIZE fuel q = Some (nullptr, q')
  <-> fuel <> 0%nat /\ q' = q
      /\ mObj RING_BUFFER_SIZE (mReadPosition q) q = nullptr
      /\ exit_test a q = true.
Proof.
  destruct fuel as [|fuel].
  - split; [destruct a; discriminate|]. intros [H _]. contradiction.
  - rewrite pop_closed.
    destruct (Z.eqb_spec (mObj RING_BUFFER_SIZE (mReadPosition q) q) nullptr)
      as [Hz|Hnz].
    + destruct (exit_test a q).
      * split.
        -- intros H. inversion H. subst.
           split_and!; [discriminate|reflexivity|assumption|reflexivity].
        -- intros (_ & -> & _). reflexivity.
      * split; [discriminate|]. intros (_ & _ & _ & H). discriminate.
    + split.
      * intros H. inversion H. contradiction.
      * intros (_ & _ & H & _). contradiction.
Qed.

(** [push] in closed form: a free slot is written whatever the flag says;
    on an occupied slot the call is abandoned if shutdown is requested and
    otherwise never returns. *)
Lemma push_closed (a : arch) (fuel : nat) (val : T) (q : FastQueue) :
  push a RING_BUFFER_SIZE (S fuel) val q
  = if mObj RING_BUFFER_SIZE (mWritePosition q) q =? nullptr
    then Some (set_mWritePosition (wrap64 (mWritePosition q + 1))
                 (set_mObj RING_BUFFER_SIZE (mWritePosition q) val q))
    else if mExitThreadSemaphore q then Some q else None.
Proof.
  rewrite push_arch. unfold FastQueue_x86_64.push.
  destruct (Z.eqb_spec (mObj RING_BUFFER_SIZE (mWritePosition q) q) nullptr)
    as [Hz|Hnz].
  - rewrite push_wait_free by assumption. reflexivity.
  - destruct (mExitThreadSemaphore q) eqn:Hs.
    + rewrite push_wait_abandon by assumption. reflexivity.
    + rewrite push_wait_spins by assumption. reflexivity.
Qed.

Lemma push_zero (a : arch) (val : T) (q : FastQueue) :
  push a RING_BUFFER_SIZE 0 val q = None.
Proof. destruct a; reflexivity. Qed.

(** *** The ring as a list of pending elements *)

Lemma holds_init (a : arch) : holds RING_BUFFER_SIZE (init a RING_BUFFER_SIZE) [].
Proof.
  pose proof ring_pos as Hpos.
  assert (Hslots : forall p r w e s,
             mObj RING_BUFFER_SIZE p
               (mkFastQueue r w e s
                  (replicate (Z.to_nat (RING_BUFFER_SIZE + 1)) nullptr))
             = nullptr).
  { intros. unfold mObj. simpl.
    destruct (replicate _ _ !! _) eqn:E; [|reflexivity].
    apply lookup_replicate in E. simpl. tauto. }
  destruct a; constructor; simpl;
    try (rewrite length_replicate); try (unfold MAX_SIZE_T); try lia;
    try apply Forall_nil_2; try reflexivity.
  - intros i _. unfold FastQueue_x86_64.init. rewrite Hslots. destruct i; reflexivity.
  - intros i _. unfold FastQueue_arm64.init. rewrite Hslots. destruct i; reflexivity.
Qed.

Lemma holds_stopQueue (a : arch) (q : FastQueue) (pending : list T) :
  holds RING_BUFFER_SIZE q pending ->
  holds RING_BUFFER_SIZE (stopQueue a q) pending.
Proof. intros []. destruct a; constructor; assumption. Qed.

Lemma holds_write_slot (q : FastQueue) (pending : list T) :
  holds RING_BUFFER_SIZE q pending ->
  mObj RING_BUFFER_SIZE (mWritePosition q) q
  = if Z.of_nat (length pending) <=? RING_BUFFER_SIZE then nullptr
    else nth 0 pending nullptr.
Proof.
  intros [Hlen Hr Hw Hb Hnn Hs]. pose proof ring_pos as Hpos.
  rewrite Hw, mObj_wrap64.
  destruct (Z.leb_spec (Z.of_nat (length pending)) RING_BUFFER_SIZE) as [Hle|Hgt].
  - rewrite Hs by lia. apply nth_overflow. lia.
  - assert (Hfull : Z.of_nat (length pending) = RING_BUFFER_SIZE + 1) by lia.
    rewrite <- (Hs 0%nat) by lia.
    unfold mObj. rewrite Hfull, land_add_ring, Z.add_0_r. reflexivity.
Qed.

(** The queue [push] leaves when it stores. *)
Definition stored (val : T) (q : FastQueue) : FastQueue :=
  set_mWritePosition (wrap64 (mWritePosition q + 1))
    (set_mObj RING_BUFFER_SIZE (mWritePosition q) val q).

(** The queue [pop] leaves when it takes an element. *)
Definition taken (q : FastQueue) : FastQueue :=
  set_mReadPosition (wrap64 (mReadPosition q + 1))
    (set_mObj RING_BUFFER_SIZE (mReadPosition q) nullptr q).

Lemma holds_stored (q : FastQueue) (pending : list T) (val : T) :
  holds RING_BUFFER_SIZE q pending ->
  val <> nullptr ->
  Z.of_nat (length pending) <= RING_BUFFER_SIZE ->
  holds RING_BUFFER_SIZE (stored val q) (pending ++ [val]).
Proof.
  intros [Hlen Hr Hw Hb Hnn Hs] Hval Hroom.
  constructor; simpl.
  - rewrite length_insert. exact Hlen.
  - exact Hr.
  - rewrite Hw, length_app. simpl. unfold wrap64.
    rewrite Zplus_mod_idemp_l. f_equal. lia.
  - rewrite length_app. simpl. lia.
  - apply Forall_app. split; [exact Hnn|]. constructor; [exact Hval|constructor].
  - intros i Hi.
    change (mObj RING_BUFFER_SIZE (mReadPosition q + Z.of_nat i)
              (set_mObj RING_BUFFER_SIZE (mWritePosition q) val q)
            = nth i (pending ++ [val]) nullptr).
    destruct (Nat.eq_dec i (length pending)) as [->|Hne].
    + rewrite mObj_set_same; [|exact Hlen|rewrite Hw, land_wrap64; reflexivity].
      rewrite app_nth2 by lia. rewrite Nat.sub_diag. reflexivity.
    + rewrite mObj_set_other.
      * rewrite Hs by exact Hi.
        destruct (Nat.lt_ge_cases i (length pending)).
        -- rewrite app_nth1 by lia. reflexivity.
        -- rewrite !nth_overflow; [reflexivity| |lia].
           rewrite length_app. simpl. lia.
      * rewrite Hw, land_wrap64. intros Heq.
        apply land_add_inj in Heq; lia.
Qed.

Lemma holds_taken (q : FastQueue) (val : T) (pending : list T) :
  holds RING_BUFFER_SIZE q (val :: pending) ->
  holds RING_BUFFER_SIZE (taken q) pending.
Proof.
  intros [Hlen Hr Hw Hb Hnn Hs]. simpl in Hw, Hb.
  constructor; simpl.
  - rewrite length_insert. exact Hlen.
  - apply wrap64_range.
  - rewrite Hw. unfold wrap64. rewrite Zplus_mod_idemp_l. f_equal. lia.
  - lia.
  - inversion Hnn; assumption.
  - intros i Hi.
    change (mObj RING_BUFFER_SIZE (wrap64 (mReadPosition q + 1) + Z.of_nat i)
              (set_mObj RING_BUFFER_SIZE (mReadPosition q) nullptr q)
            = nth i pending nullptr).
    unfold mObj at 1. rewrite land_wrap64_add. fold (mObj RING_BUFFER_SIZE
      (mReadPosition q + 1 + Z.of_nat i)
      (set_mObj RING_BUFFER_SIZE (mReadPosition q) nullptr q)).
    destruct (Z.eq_dec (Z.of_nat i) RING_BUFFER_SIZE) as [Heq|Hne].
    + rewrite mObj_set_same; [|exact Hlen|].
      * symmetry. apply nth_overflow. lia.
      * replace (mReadPosition q + 1 + Z.of_nat i)
          with (mReadPosition q + (RING_BUFFER_SIZE + 1)) by lia.
        apply land_add_ring.
    + rewrite mObj_set_other.
      * replace (mReadPosition q + 1 + Z.of_nat i)
          with (mReadPosition q + Z.of_nat (S i)) by lia.
        rewrite Hs by lia. reflexivity.
      * replace (mReadPosition q) with (mReadPosition q + 0) at 2 by lia.
        replace (mReadPosition q + 1 + Z.of_nat i)
          with (mReadPosition q + (1 + Z.of_nat i)) by lia.
        intros Heq. apply land_add_inj in Heq; lia.
Qed.

Lemma holds_read_slot (q : FastQueue) (pending : list T) :
  holds RING_BUFFER_SIZE q pending ->
  mObj RING_BUFFER_SIZE (mReadPosition q) q = nth 0 pending nullptr.
Proof.
  intros [Hlen Hr Hw Hb Hnn Hs].
  pose proof ring_pos as Hpos.
  rewrite <- (Hs 0%nat) by lia.
  rewrite Z.add_0_r. reflexivity.
Qed.

(** [push] with room stores, whatever the shutdown flag says. *)
Lemma push_room (a : arch) (fuel : nat) (q : FastQueue) (pending : list T)
    (val : T) :
  holds RING_BUFFER_SIZE q pending ->
  Z.of_nat (length pending) <= RING_BUFFER_SIZE ->
  push a RING_BUFFER_SIZE (S fuel) val q = Some (stored val q).
Proof.
  intros Hh Hroom. rewrite push_arch. unfold FastQueue_x86_64.push.
  rewrite push_wait_free; [reflexivity|].
  rewrite (holds_write_slot _ _ Hh).
  destruct (Z.leb_spec (Z.of_nat (length pending)) RING_BUFFER_SIZE); [reflexivity|lia].
Qed.

Lemma full_slot_nonnull (q : FastQueue) (pending : list T) :
  holds RING_BUFFER_SIZE q pending ->
  Z.of_nat (length pending) = RING_BUFFER_SIZE + 1 ->
  mObj RING_BUFFER_SIZE (mWritePosition q) q <> nullptr.
Proof.
  intros Hh Hfull. rewrite (holds_write_slot _ _ Hh).
  destruct (Z.leb_spec (Z.of_nat (length pending)) RING_BUFFER_SIZE); [lia|].
  destruct Hh as [_ _ _ _ Hnn _].
  destruct pending as [|v pending]; [simpl in Hfull; pose proof ring_pos; lia|].
  simpl. inversion Hnn; assumption.
Qed.

(** [push] on a full ring: it spins, or gives up once shutdown is
    requested; the queue is untouched either way. *)
Lemma push_full (a : arch) (fuel : nat) (q : FastQueue) (pending : list T)
    (val : T) :
  holds RING_BUFFER_SIZE q pending ->
  Z.of_nat (length pending) = RING_BUFFER_SIZE + 1 ->
  push a RING_BUFFER_SIZE (S fuel) val q
  = if mExitThreadSemaphore q then Some q else None.
Proof.
  intros Hh Hfull. rewrite push_arch. unfold FastQueue_x86_64.push.
  pose proof (full_slot_nonnull _ _ Hh Hfull) as Hnn.
  destruct (mExitThreadSemaphore q) eqn:Hs.
  - rewrite push_wait_abandon by assumption. reflexivity.
  - rewrite push_wait_spins by assumption. reflexivity.
Qed.

Lemma pop_pending (a : arch) (fuel : nat) (q : FastQueue) (val : T)
    (pending : list T) :
  holds RING_BUFFER_SIZE q (val :: pending) ->
  pop a RING_BUFFER_SIZE (S fuel) q = Some (val, taken q).
Proof.
  intros Hh. pose proof (holds_read_slot _ _ Hh) as Hslot. simpl in Hslot.
  rewrite pop_take; [rewrite Hslot; reflexivity|].
  rewrite Hslot. destruct Hh as [_ _ _ _ Hnn _]. inversion Hnn; assumption.
Qed.

Lemma pop_nothing_pending (a : arch) (fuel : nat) (q : FastQueue) :
  holds RING_BUFFER_SIZE q [] ->
  pop a RING_BUFFER_SIZE (S fuel) q
  = if exit_test a q then Some (nullptr, q) else None.
Proof.
  intros Hh. pose proof (holds_read_slot _ _ Hh) as Hslot. simpl in Hslot.
  destruct (exit_test a q) eqn:He.
  - apply pop_end_of_stream; assumption.
  - apply pop_spins; assumption.
Qed.

(** *** Runs of whole operations *)

Lemma push_all_holds (a : arch) (fuel : nat) (vals : list T) :
  forall (q : FastQueue) (pending : list T),
    holds RING_BUFFER_SIZE q pending ->
    Forall (fun val => val <> nullptr) vals ->
    Z.of_nat (length pending + length vals) <= RING_BUFFER_SIZE + 1 ->
    exists q',
      push_all a RING_BUFFER_SIZE (S fuel) vals q = Some q'
      /\ holds RING_BUFFER_SIZE q' (pending ++ vals)
      /\ mReadPosition q' = mReadPosition q
      /\ mExitThread q' = mExitThread q
      /\ mExitThreadSemaphore q' = mExitThreadSemaphore q.
Proof.
  induction vals as [|val vals IH]; intros q pending Hh Hnn Hlen.
  - exists q. rewrite app_nil_r. simpl. auto.
  - inversion Hnn as [|? ? Hval Hnn']; subst. simpl in Hlen.
    cbn [push_all].
    rewrite (push_room a fuel q pending val Hh) by lia.
    destruct (IH (stored val q) (pending ++ [val])) as (q' & Hrun & Hh' & Hr & He & Hs).
    + apply holds_stored; [assumption..|lia].
    + assumption.
    + rewrite length_app. simpl. lia.
    + exists q'. rewrite <- app_assoc in Hh'. simpl in Hh'. auto.
Qed.

Lemma pop_n_drain (a : arch) (fuel : nat) (pending : list T) :
  forall q : FastQueue,
    holds RING_BUFFER_SIZE q pending ->
    exists q',
      pop_n a RING_BUFFER_SIZE (S fuel) (length pending) q = Some (pending, q')
      /\ holds RING_BUFFER_SIZE q' []
      /\ mReadPosition q' = wrap64 (mReadPosition q + Z.of_nat (length pending))
      /\ mExitThread q' = mExitThread q
      /\ mExitThreadSemaphore q' = mExitThreadSemaphore q.
Proof.
  induction pending as [|val pending IH]; intros q Hh.
  - exists q. cbn [length pop_n]. split_and!; try done.
    change (Z.of_nat 0) with 0. rewrite Z.add_0_r. symmetry.
    apply wrap64_small. apply Hh.
  - cbn [length pop_n]. rewrite (pop_pending a fuel q val pending Hh).
    destruct (IH (taken q) (holds_taken _ _ _ Hh)) as (q' & Hrun & Hh' & Hr & He & Hs).
    exists q'. rewrite Hrun. split_and!; try done.
    rewrite Hr. simpl. unfold wrap64. rewrite Zplus_mod_idemp_l. f_equal. lia.
Qed.

Lemma pop_n_snoc (a : arch) (fuel : nat) (n : nat) :
  forall (q q' q'' : FastQueue) (outs : list T) (aOut : T),
    pop_n a RING_BUFFER_SIZE fuel n q = Some (outs, q') ->
    pop a RING_BUFFER_SIZE fuel q' = Some (aOut, q'') ->
    pop_n a RING_BUFFER_SIZE fuel (n + 1) q = Some (outs ++ [aOut], q'').
Proof.
  induction n as [|n IH]; intros q q' q'' outs aOut Hn Hpop; simpl in *.
  - inversion Hn; subst. rewrite Hpop. reflexivity.
  - destruct (pop a RING_BUFFER_SIZE fuel q) as [[v q1]|]; [|discriminate].
    destruct (pop_n a RING_BUFFER_SIZE fuel n q1) as [[outs1 q2]|] eqn:E; [|discriminate].
    inversion Hn; subst.
    rewrite (IH _ _ _ _ _ E Hpop). reflexivity.
Qed.

(** After [stopQueue] both variants see the flag and the marker. *)
Lemma exit_test_at_marker (a : arch) (q : FastQueue) :
  mExitThread q = mReadPosition q ->
  mExitThreadSemaphore q = true ->
  exit_test a q = true.
Proof.
  intros He Hs. destruct a; simpl; rewrite He, Z.eqb_refl; [rewrite Hs|]; reflexivity.
Qed.

(** [pop] leaves [nullptr] in [aOut] only through the exit test, which
    changes nothing. *)
Lemma pop_nullptr_inv (a : arch) (fuel : nat) (q q' : FastQueue) :
  pop a RING_BUFFER_SIZE fuel q = Some (nullptr, q') ->
  q' = q
  /\ mObj RING_BUFFER_SIZE (mReadPosition q) q = nullptr
  /\ exit_test a q = true.
Proof.
  induction fuel as [|fuel IH]; [destruct a; discriminate|].
  rewrite pop_S. cbv zeta.
  destruct (Z.eqb_spec (mObj RING_BUFFER_SIZE (mReadPosition q) q) 0) as [Hz|Hnz].
  - destruct (exit_test a q) eqn:He; [|exact IH].
    intros H. inversion H. subst. split_and!; [reflexivity|exact Hz|reflexivity].
  - intros H. inversion H. contradiction.
Qed.

Lemma pop_n_end_of_stream (a : arch) (fuel : nat) (q : FastQueue) (n : nat) :
  mObj RING_BUFFER_SIZE (mReadPosition q) q = nullptr ->
  exit_test a q = true ->
  pop_n a RING_BUFFER_SIZE (S fuel) n q = Some (replicate n nullptr, q).
Proof.
  intros Hslot He. induction n as [|n IH]; [reflexivity|].
  cbn [pop_n]. rewrite (pop_end_of_stream a fuel q Hslot He), IH. reflexivity.
Qed.

(** The invariant of a run without [stopQueue]: what was pushed is what
    was popped followed by what is pending. *)
Definition ring_fifo_inv (h : history) : Prop :=
  exists pending,
    holds RING_BUFFER_SIZE (h_queue h) pending
    /\ mExitThreadSemaphore (h_queue h) = false
    /\ h_pushed h = h_popped h ++ pending.

Lemma ring_step_fifo (a : arch) (fuel : nat) (o : op) (h h' : history) :
  ring_fifo_inv h -> pushes_nonnull o ->
  step a RING_BUFFER_SIZE fuel o h = Some h' ->
  ring_fifo_inv h'.
Proof.
  intros (pending & Hh & Hs & Hfifo) Ho Hstep.
  destruct fuel as [|fuel]; [destruct o, a; discriminate|].
  destruct o as [val|]; unfold step in Hstep.
  - destruct (Z.leb_spec (Z.of_nat (length pending)) RING_BUFFER_SIZE) as [Hroom|Hfull].
    + rewrite (push_room a fuel _ pending val Hh Hroom) in Hstep.
      inversion Hstep; subst; clear Hstep. exists (pending ++ [val]). simpl.
      split_and!.
      * apply holds_stored; assumption.
      * exact Hs.
      * rewrite Hfifo, app_assoc. reflexivity.
    + rewrite (push_full a fuel _ pending val Hh), Hs in Hstep; [discriminate|].
      pose proof (holds_bound _ _ _ Hh). lia.
  - destruct pending as [|val pending].
    + rewrite (pop_nothing_pending a fuel _ Hh) in Hstep.
      destruct (exit_test a (h_queue h)); [|discriminate].
      inversion Hstep; subst; clear Hstep. exists []. simpl. auto.
    + rewrite (pop_pending a fuel _ val pending Hh) in Hstep.
      assert (Hval : val <> nullptr)
        by (pose proof (holds_nonnull _ _ _ Hh) as Hnn; inversion Hnn; assumption).
      destruct (Z.eqb_spec val nullptr); [contradiction|].
      inversion Hstep; subst; clear Hstep. exists pending. simpl.
      split_and!.
      * apply (holds_taken _ val). assumption.
      * exact Hs.
      * rewrite Hfifo, <- app_assoc. reflexivity.
Qed.

Lemma ring_run_fifo (a : arch) (fuel : nat) (ops : list op) :
  forall h h' : history,
    ring_fifo_inv h -> Forall pushes_nonnull ops ->
    run a RING_BUFFER_SIZE fuel ops h = Some h' ->
    ring_fifo_inv h'.
Proof.
  induction ops as [|o ops IH]; intros h h' Hinv Hops Hrun; simpl in Hrun.
  - inversion Hrun; subst. exact Hinv.
  - inversion Hops; subst.
    destruct (step a RING_BUFFER_SIZE fuel o h) as [h1|] eqn:Hstep; [|discriminate].
    eapply IH; [|eassumption|eassumption].
    eapply ring_step_fifo; eassumption.
Qed.

Lemma ring_fifo_inv_init (a : arch) :
  ring_fifo_inv (mkHistory (init a RING_BUFFER_SIZE) [] []).
Proof.
  exists []. simpl. split; [apply holds_init|]. split; [destruct a|]; reflexivity.
Qed.

(** *** Against the queue of the specification *)

Definition ring_state (h : history) (pending : list T) : Fifo.state T :=
  Fifo.mkState pending (h_pushed h) (h_popped h).

(** The next whole operation the specification admits is one the ring
    carries out on the first evaluation of its loop condition, with the
    specification's result; where the specification makes the caller
    wait, the x86-64 ring spins. *)
Lemma ring_step_refines (a : arch) (fuel : nat) (o : op) (h : history)
    (pending : list T) :
  holds RING_BUFFER_SIZE (h_queue h) pending ->
  mExitThreadSemaphore (h_queue h) = false ->
  pushes_nonnull o ->
  match Fifo.step (RING_BUFFER_SIZE + 1) (Fifo.of_FastQueue o)
          (ring_state h pending) with
  | Some s =>
      exists h',
        step a RING_BUFFER_SIZE (S fuel) o h = Some h'
        /\ holds RING_BUFFER_SIZE (h_queue h') (Fifo.pending s)
        /\ mExitThreadSemaphore (h_queue h') = false
        /\ Fifo.enqueued s = h_pushed h'
        /\ Fifo.dequeued s = h_popped h'
  | None => step x86_64 RING_BUFFER_SIZE fuel o h = None
  end.
Proof.
  intros Hh Hs Ho.
  destruct o as [val|]; cbn [Fifo.of_FastQueue Fifo.step step].
  - unfold Fifo.has_room, ring_state. cbn [Fifo.pending].
    destruct (Z.ltb_spec (Z.of_nat (length pending)) (RING_BUFFER_SIZE + 1))
      as [Hroom|Hfull].
    + rewrite (push_room a fuel _ pending val Hh) by lia.
      eexists. split; [reflexivity|]. simpl. split_and!.
      * apply holds_stored; [assumption..|lia].
      * exact Hs.
      * reflexivity.
      * reflexivity.
    + pose proof (holds_bound _ _ _ Hh) as Hb.
      assert (Hfull' : Z.of_nat (length pending) = RING_BUFFER_SIZE + 1) by lia.
      unfold push, FastQueue_x86_64.push.
      rewrite push_wait_spins; [reflexivity| |assumption].
      apply (full_slot_nonnull _ pending); assumption.
  - unfold ring_state. cbn [Fifo.pending Fifo.enqueued Fifo.dequeued].
    destruct pending as [|val pending].
    + pose proof (holds_read_slot _ _ Hh) as Hslot. simpl in Hslot.
      change (FastQueueSpec.pop x86_64 RING_BUFFER_SIZE fuel (h_queue h))
        with (pop x86_64 RING_BUFFER_SIZE fuel (h_queue h)).
      rewrite (pop_spins x86_64 fuel _ Hslot); [reflexivity|].
      simpl. rewrite Hs. apply andb_false_r.
    + rewrite (pop_pending a fuel _ val pending Hh).
      assert (Hval : val <> nullptr)
        by (pose proof (holds_nonnull _ _ _ Hh) as Hnn; inversion Hnn; assumption).
      destruct (Z.eqb_spec val nullptr); [contradiction|].
      eexists. split; [reflexivity|]. simpl. split_and!.
      * apply (holds_taken _ val). assumption.
      * exact Hs.
      * reflexivity.
      * reflexivity.
Qed.

Lemma ring_run_refines (a : arch) (fuel : nat) (ops : list op) :
  forall (h : history) (pending : list T) (s : Fifo.state T),
    holds RING_BUFFER_SIZE (h_queue h) pending ->
    mExitThreadSemaphore (h_queue h) = false ->
    Forall pushes_nonnull ops ->
    Fifo.run (RING_BUFFER_SIZE + 1) (map Fifo.of_FastQueue ops)
      (ring_state h pending) = Some s ->
    exists h',
      run a RING_BUFFER_SIZE (S fuel) ops h = Some h'
      /\ holds RING_BUFFER_SIZE (h_queue h') (Fifo.pending s)
      /\ h_pushed h' = Fifo.enqueued s
      /\ h_popped h' = Fifo.dequeued s.
Proof.
  induction ops as [|o ops IH]; intros h pending s Hh Hs Hops Hrun.
  - inversion Hrun; subst. exists h. split_and!; done.
  - inversion Hops as [|? ? Ho Hops']; subst. cbn [map Fifo.run] in Hrun.
    pose proof (ring_step_refines a fuel o h pending Hh Hs Ho) as Hstep.
    destruct (Fifo.step _ _ _) as [[p e d]|]; [|discriminate].
    destruct Hstep as (h1 & Hstep & Hh1 & Hs1 & He & Hd).
    cbn [Fifo.pending Fifo.enqueued Fifo.dequeued] in *. subst e d.
    destruct (IH h1 p s Hh1 Hs1 Hops' Hrun) as (h' & Hrun' & Hrest).
    exists h'. cbn [run]. rewrite Hstep. split; assumption.
Qed.

Lemma ring_run_waits (fuel : nat) (ops : list op) :
  forall (h : history) (pending : list T),
    holds RING_BUFFER_SIZE (h_queue h) pending ->
    mExitThreadSemaphore (h_queue h) = false ->
    Forall pushes_nonnull ops ->
    Fifo.run (RING_BUFFER_SIZE + 1) (map Fifo.of_FastQueue ops)
      (ring_state h pending) = None ->
    run x86_64 RING_BUFFER_SIZE fuel ops h = None.
Proof.
  induction ops as [|o ops IH]; intros h pending Hh Hs Hops Hrun;
    [discriminate|].
  inversion Hops as [|? ? Ho Hops']; subst. cbn [map Fifo.run] in Hrun.
  cbn [run].
  destruct fuel as [|fuel'].
  { destruct o; reflexivity. }
  pose proof (ring_step_refines x86_64 fuel' o h pending Hh Hs Ho) as Hstep.
  pose proof (ring_step_refines x86_64 (S fuel') o h pending Hh Hs Ho) as Hwait.
  destruct (Fifo.step _ _ _) as [[p e d]|].
  - destruct Hstep as (h1 & Hstep & Hh1 & Hs1 & He & Hd).
    cbn [Fifo.pending Fifo.enqueued Fifo.dequeued] in *. subst e d.
    rewrite Hstep. apply (IH h1 p); assumption.
  - rewrite Hwait. reflexivity.
Qed.

Lemma wrap64_succ_ne (x : Z) : wrap64 (x + 1) <> wrap64 x.
Proof.
  unfold wrap64. intros H. apply Z.cong_iff_0 in H.
  replace (x + 1 - x) with 1 in H by lia. discriminate.
Qed.

(** *** The shutdown flag in [push] and in [pop] *)

(** A queue whose slot at the write position is occupied: every mask
    sends position [0] to slot [0]. *)
Definition occupied : FastQueue := mkFastQueue 0 0 0 false [1].

(** A queue with nothing to read whose marker is the read position. *)
Definition drained : FastQueue := mkFastQueue 0 0 0 false [nullptr].

End Ring.

(** These hold for every mask. *)

Lemma push_checks_flag_both (a : arch) (R : Z) : push_checks_flag a R.
Proof.
  exists 1, occupied. split; intros fuel; rewrite push_arch.
  - unfold FastQueue_x86_64.push.
    rewrite push_wait_spins; [reflexivity| |reflexivity].
    unfold mObj. simpl. discriminate.
  - unfold FastQueue_x86_64.push.
    rewrite push_wait_abandon; [reflexivity| |reflexivity].
    unfold mObj. simpl. discriminate.
Qed.

Lemma push_not_ignores_flag (a : arch) (R : Z) : ~ push_ignores_flag a R.
Proof.
  intros Hign.
  destruct (push_checks_flag_both a R) as (val & q & Hspin & Habandon).
  specialize (Hign 1%nat val (set_mExitThreadSemaphore false q) true).
  change (set_mExitThreadSemaphore true (set_mExitThreadSemaphore false q))
    with (set_mExitThreadSemaphore true q) in Hign.
  rewrite Habandon, Hspin in Hign. discriminate.
Qed.

Lemma pop_checks_flag_x86_64 (R : Z) : pop_checks_flag x86_64 R.
Proof.
  exists drained. split; intros fuel.
  - apply pop_spins; [|reflexivity].
    unfold mObj. simpl. reflexivity.
  - apply pop_end_of_stream; [|reflexivity].
    unfold mObj. simpl. reflexivity.
Qed.

Lemma pop_ignores_flag_arm64 (R : Z) : pop_ignores_flag arm64 R.
Proof.
  intros fuel q b. induction fuel as [|fuel IH]; [reflexivity|].
  rewrite !pop_S. cbv zeta.
  change (mObj R (mReadPosition (set_mExitThreadSemaphore b q))
            (set_mExitThreadSemaphore b q))
    with (mObj R (mReadPosition q) q).
  destruct (mObj R (mReadPosition q) q =? 0); [|reflexivity].
  change (exit_test arm64 (set_mExitThreadSemaphore b q))
    with (exit_test arm64 q).
  destruct (exit_test arm64 q); [reflexivity|exact IH].
Qed.

End FastQueueFacts.

(** ** Facts about the index-tracked queue *)

Module droFacts.
Import dro.

(** Case analysis on every integer comparison in sight. *)
Ltac zdec :=
  repeat first [ rewrite Z.geb_leb in * | rewrite Z.gtb_ltb in * ];
  repeat match goal with
    | |- context [Z.eqb ?a ?b] => destruct (Z.eqb_spec a b)
    | |- context [Z.leb ?a ?b] => destruct (Z.leb_spec a b)
    | |- context [Z.ltb ?a ?b] => destruct (Z.ltb_spec a b)
    | H : context [Z.eqb ?a ?b] |- _ => destruct (Z.eqb_spec a b)
    | H : context [Z.leb ?a ?b] |- _ => destruct (Z.leb_spec a b)
    | H : context [Z.ltb ?a ?b] |- _ => destruct (Z.ltb_spec a b)
    end.

(** Projections of updated queues. *)
Ltac fields :=
  cbn [capacity_ buffer_ writeIndex_ readIndexCache_ paddingCache_ readIndex_
       writeIndexCache_ capacityCache_ set_buffer_ set_writeIndex_
       set_readIndexCache_ set_readIndex_ set_writeIndexCache_] in *.

Section SPSC.
Context {T : Type}.
Variable T_default : T.
Variable padding : Z.

(** [2 * padding] is a constant expression of a few cache lines at most. *)
Hypothesis Hpadding : 0 < padding /\ 2 * padding <= MAX_SIZE_T.

Abbreviation SPSCQueue := (SPSCQueue T).
Abbreviation wf := (wf padding).
Abbreviation read_value := (read_value T_default padding).
Abbreviation contents := (contents T_default padding).
Abbreviation pop := (pop T_default padding).
Abbreviation try_pop := (try_pop T_default padding).
Abbreviation HeapBuffer := (HeapBuffer T_default padding).
Abbreviation SPSCQueue_ctor := (SPSCQueue_ctor T_default padding).

(** *** Construction *)

(** The queue a successful construction with [capacity_ = c + 1] yields. *)
Definition fresh (c : Z) : SPSCQueue :=
  mkSPSCQueue (c + 1) (replicate (Z.to_nat (c + 1 + 2 * padding)) T_default)
    0 0 padding 0 0 (c + 1).

Lemma HeapBuffer_logic_error (capacity : Z) :
  capacity < 1 -> HeapBuffer capacity = inl details.logic_error.
Proof.
  intros H. unfold dro.HeapBuffer.
  destruct (Z.ltb_spec capacity 1); [reflexivity|lia].
Qed.

Lemma threshold_eq :
  wrap64 (MAX_SIZE_T - wrap64 (2 * padding)) = MAX_SIZE_T - 2 * padding.
Proof.
  rewrite (wrap64_small (2 * padding)) by lia.
  apply wrap64_small. lia.
Qed.

(** Below the largest [std::size_t] the overflow test is exact. *)
Lemma HeapBuffer_below_max (capacity : Z) :
  1 <= capacity < MAX_SIZE_T ->
  HeapBuffer capacity
  = if capacity + 1 + 2 * padding >? MAX_SIZE_T
    then inl details.overflow_error
    else inr (mkBuffer (capacity + 1)
                (replicate (Z.to_nat (capacity + 1 + 2 * padding)) T_default)).
Proof.
  intros Hc. unfold dro.HeapBuffer. rewrite threshold_eq.
  rewrite (wrap64_small (capacity + 1)) by lia.
  rewrite (wrap64_small (2 * padding)) by lia.
  zdec; try lia; try reflexivity.
  rewrite wrap64_small by lia. reflexivity.
Qed.

(** At the largest [std::size_t], [capacity + 1] wraps to [0] before the
    overflow test sees it. *)
Lemma HeapBuffer_at_max :
  HeapBuffer MAX_SIZE_T
  = inr (mkBuffer 0 (replicate (Z.to_nat (2 * padding)) T_default)).
Proof.
  unfold dro.HeapBuffer. rewrite threshold_eq.
  replace (wrap64 (MAX_SIZE_T + 1)) with 0 by reflexivity.
  rewrite (wrap64_small (2 * padding)) by lia.
  rewrite Z.add_0_l, (wrap64_small (2 * padding)) by lia.
  unfold MAX_SIZE_T in *. zdec; try lia. reflexivity.
Qed.

Lemma ctor_heap (capacity : Z) (storage : list T) (q : SPSCQueue) :
  1 <= capacity < MAX_SIZE_T ->
  SPSCQueue_ctor 0 capacity storage = inr q ->
  capacity + 1 + 2 * padding <= MAX_SIZE_T /\ q = fresh capacity.
Proof.
  intros Hc. unfold dro.SPSCQueue_ctor. rewrite Z.eqb_refl.
  rewrite HeapBuffer_below_max by assumption.
  zdec; [discriminate|]. intros Hq. inversion Hq. split; [lia|reflexivity].
Qed.

Lemma ctor_heap_fresh (capacity : Z) (storage : list T) :
  1 <= capacity -> capacity + 1 + 2 * padding <= MAX_SIZE_T ->
  SPSCQueue_ctor 0 capacity storage = inr (fresh capacity).
Proof.
  intros Hc Hfit. unfold dro.SPSCQueue_ctor. rewrite Z.eqb_refl.
  rewrite HeapBuffer_below_max by lia.
  zdec; [lia|reflexivity].
Qed.

Lemma wf_fresh (c : Z) :
  1 <= c -> c + 1 + 2 * padding <= MAX_SIZE_T -> wf (fresh c).
Proof.
  intros Hc Hfit. constructor; simpl; try lia; try reflexivity.
  rewrite length_replicate. lia.
Qed.

(** *** Indices and slots of a well-formed queue *)

Lemma next_index_wf (cap i : Z) :
  2 <= cap <= MAX_SIZE_T -> 0 <= i < cap ->
  next_index cap i = if i =? cap - 1 then 0 else i + 1.
Proof.
  intros Hcap Hi. unfold next_index.
  rewrite (wrap64_small (cap - 1)) by lia.
  rewrite (wrap64_small (i + 1)) by lia. reflexivity.
Qed.

Lemma next_index_range (cap i : Z) :
  2 <= cap <= MAX_SIZE_T -> 0 <= i < cap -> 0 <= next_index cap i < cap.
Proof. intros Hcap Hi. rewrite next_index_wf by assumption. zdec; lia. Qed.

Lemma wf_cap_max (q : SPSCQueue) : wf q -> 2 <= capacity_ q <= MAX_SIZE_T.
Proof. intros [? [? ?] _ _ _ _ _ _ _]. lia. Qed.

(** No operation indexes outside the vector. *)
Lemma index_in_range (q : SPSCQueue) (i : Z) :
  wf q -> 0 <= i < capacity_ q ->
  wrap64 (i + padding) = i + padding
  /\ (Z.to_nat (i + padding) < length (buffer_ q))%nat.
Proof.
  intros [Hp [Hc Hfit] Hlen _ _ _ _ _ _] Hi.
  split; [apply wrap64_small|]; lia.
Qed.

Lemma read_write_value (q : SPSCQueue) (i j : Z) (val : T) :
  wf q -> 0 <= i < capacity_ q -> 0 <= j < capacity_ q ->
  read_value i (write_value j val q) = if i =? j then val else read_value i q.
Proof.
  intros Hwf Hi Hj.
  destruct (index_in_range q i Hwf Hi) as [Hwi Hri].
  destruct (index_in_range q j Hwf Hj) as [Hwj Hrj].
  unfold dro.read_value, write_value. fields.
  rewrite (wf_paddingCache _ _ Hwf), Hwi, Hwj.
  destruct (Z.eqb_spec i j) as [->|Hne].
  - rewrite list_lookup_insert_eq by assumption. reflexivity.
  - rewrite list_lookup_insert_ne by lia. reflexivity.
Qed.

Lemma size_wf (q : SPSCQueue) :
  wf q -> size q = distance (capacity_ q) (readIndex_ q) (writeIndex_ q).
Proof.
  intros [Hp [Hc Hfit] _ Hw Hr _ _ _ _]. unfold size, distance.
  zdec.
  - apply wrap64_small. lia.
  - rewrite (wrap64_small (capacity_ q - readIndex_ q)) by lia.
    apply wrap64_small. lia.
Qed.

Lemma size_range (q : SPSCQueue) : wf q -> 0 <= size q < capacity_ q.
Proof.
  intros Hwf. rewrite size_wf by assumption.
  destruct Hwf as [_ _ _ Hw Hr _ _ _ _]. unfold distance. zdec; lia.
Qed.

Lemma capacity_wf (q : SPSCQueue) : wf q -> capacity q = capacity_ q - 1.
Proof. intros Hwf. pose proof (wf_cap_max q Hwf). apply wrap64_small. lia. Qed.

Lemma full_size (q : SPSCQueue) :
  wf q -> (full q = true <-> size q = capacity q).
Proof.
  intros Hwf. rewrite size_wf, capacity_wf by assumption.
  pose proof (wf_cap_max q Hwf).
  destruct Hwf as [_ _ _ Hw Hr _ _ _ _]. unfold full, distance.
  rewrite next_index_wf by assumption. zdec; split; intros; lia || discriminate || reflexivity.
Qed.

Lemma empty_size (q : SPSCQueue) :
  wf q -> (empty q = true <-> size q = 0).
Proof.
  intros Hwf. rewrite size_wf by assumption.
  destruct Hwf as [_ _ _ Hw Hr _ _ _ _]. unfold empty, distance.
  zdec; split; intros; lia || discriminate || reflexivity.
Qed.

(** *** The operations through their non-blocking forms *)

Definition refresh_readIndexCache (q : SPSCQueue) : SPSCQueue :=
  set_readIndexCache_ (readIndex_ q) q.

Definition refresh_writeIndexCache (q : SPSCQueue) : SPSCQueue :=
  set_writeIndexCache_ (writeIndex_ q) q.

(** The queue [pop] and [try_pop] leave when they take an element. *)
Definition advance_read (q : SPSCQueue) : SPSCQueue :=
  set_readIndex_ (next_index (capacityCache_ q) (readIndex_ q)) q.

Lemma try_emplace_cases (val : T) (q : SPSCQueue) :
  try_emplace val q
  = let next := next_index (capacity_ q) (writeIndex_ q) in
    if next =? readIndexCache_ q then
      if next =? readIndex_ q then (false, refresh_readIndexCache q)
      else (true, force_emplace val (refresh_readIndexCache q))
    else (true, force_emplace val q).
Proof. reflexivity. Qed.

Lemma try_pop_cases (q : SPSCQueue) :
  try_pop q
  = if readIndex_ q =? writeIndexCache_ q then
      if readIndex_ q =? writeIndex_ q then (None, refresh_writeIndexCache q)
      else (Some (read_value (readIndex_ q) q),
            advance_read (refresh_writeIndexCache q))
    else (Some (read_value (readIndex_ q) q), advance_read q).
Proof. reflexivity. Qed.

Lemma emplace_wait_spins (fuel : nat) (next : Z) (q : SPSCQueue) :
  next = readIndexCache_ q -> next = readIndex_ q ->
  emplace_wait fuel next q = None.
Proof.
  revert q. induction fuel as [|fuel IH]; intros q Hc Hr; [reflexivity|].
  simpl. rewrite <- Hc, Z.eqb_refl. apply IH; fields; congruence.
Qed.

Lemma pop_wait_spins (fuel : nat) (readIndex : Z) (q : SPSCQueue) :
  readIndex = writeIndexCache_ q -> readIndex = writeIndex_ q ->
  pop_wait fuel readIndex q = None.
Proof.
  revert q. induction fuel as [|fuel IH]; intros q Hc Hw; [reflexivity|].
  simpl. rewrite <- Hc, Z.eqb_refl. apply IH; fields; congruence.
Qed.

(** With fuel for the refresh and one more test, the blocking [emplace]
    is [try_emplace] that does not return on failure. *)
Lemma emplace_try (fuel : nat) (val : T) (q : SPSCQueue) :
  emplace (S (S fuel)) val q
  = match try_emplace val q with
    | (true, q') => Some q'
    | (false, _) => None
    end.
Proof.
  rewrite try_emplace_cases. unfold emplace. cbv zeta.
  cbn [emplace_wait]. fields.
  destruct (Z.eqb_spec (next_index (capacity_ q) (writeIndex_ q)) (readIndexCache_ q));
    [|reflexivity].
  destruct (Z.eqb_spec (next_index (capacity_ q) (writeIndex_ q)) (readIndex_ q));
    [|reflexivity].
  rewrite emplace_wait_spins by (fields; congruence). reflexivity.
Qed.

Lemma pop_try (fuel : nat) (q : SPSCQueue) :
  pop (S (S fuel)) q
  = match try_pop q with
    | (Some val, q') => Some (val, q')
    | (None, _) => None
    end.
Proof.
  rewrite try_pop_cases. unfold dro.pop. cbv zeta.
  cbn [pop_wait]. fields.
  destruct (Z.eqb_spec (readIndex_ q) (writeIndexCache_ q)); [|reflexivity].
  destruct (Z.eqb_spec (readIndex_ q) (writeIndex_ q)); [|reflexivity].
  rewrite pop_wait_spins by (fields; congruence). reflexivity.
Qed.

(** Whatever the fuel, a blocking operation that returns did what its
    non-blocking form does. *)
Lemma emplace_some (fuel : nat) (val : T) (q q' : SPSCQueue) :
  emplace fuel val q = Some q' -> try_emplace val q = (true, q').
Proof.
  rewrite try_emplace_cases. unfold emplace. cbv zeta.
  destruct fuel as [|[|fuel]]; [discriminate| |]; cbn [emplace_wait]; fields.
  - destruct (Z.eqb_spec (next_index (capacity_ q) (writeIndex_ q)) (readIndexCache_ q));
      [discriminate|]. intros H. inversion H. reflexivity.
  - destruct (Z.eqb_spec (next_index (capacity_ q) (writeIndex_ q)) (readIndexCache_ q));
      [|intros H; inversion H; reflexivity].
    destruct (Z.eqb_spec (next_index (capacity_ q) (writeIndex_ q)) (readIndex_ q));
      [|intros H; inversion H; reflexivity].
    rewrite emplace_wait_spins by (fields; congruence). discriminate.
Qed.

Lemma pop_some (fuel : nat) (q q' : SPSCQueue) (val : T) :
  pop fuel q = Some (val, q') -> try_pop q = (Some val, q').
Proof.
  rewrite try_pop_cases. unfold dro.pop. cbv zeta.
  destruct fuel as [|[|fuel]]; [discriminate| |]; cbn [pop_wait]; fields.
  - destruct (Z.eqb_spec (readIndex_ q) (writeIndexCache_ q));
      [discriminate|]. intros H. inversion H. reflexivity.
  - destruct (Z.eqb_spec (readIndex_ q) (writeIndexCache_ q));
      [|intros H; inversion H; reflexivity].
    destruct (Z.eqb_spec (readIndex_ q) (writeIndex_ q));
      [|intros H; inversion H; reflexivity].
    rewrite pop_wait_spins by (fields; congruence). discriminate.
Qed.

(** *** Well-formedness is kept *)

Lemma wf_refresh_readIndexCache (q : SPSCQueue) :
  wf q -> wf (refresh_readIndexCache q).
Proof. intros []. constructor; assumption. Qed.

Lemma wf_refresh_writeIndexCache (q : SPSCQueue) :
  wf q -> wf (refresh_writeIndexCache q).
Proof. intros []. constructor; assumption. Qed.

Lemma wf_force_emplace (val : T) (q : SPSCQueue) :
  wf q -> wf (force_emplace val q).
Proof.
  intros Hwf. pose proof (wf_cap_max q Hwf) as Hcap.
  destruct Hwf. constructor; unfold force_emplace, write_value; fields;
    try assumption.
  - rewrite length_insert. assumption.
  - apply next_index_range; assumption.
Qed.

Lemma wf_advance_read (q : SPSCQueue) : wf q -> wf (advance_read q).
Proof.
  intros Hwf. pose proof (wf_cap_max q Hwf) as Hcap.
  destruct Hwf as [? ? ? ? ? ? ? Hcc ?].
  constructor; unfold advance_read; fields; try assumption.
  rewrite Hcc. apply next_index_range; assumption.
Qed.

(** *** The unread elements *)

Lemma contents_eq (q : SPSCQueue) :
  wf q ->
  contents q
  = map (fun i => read_value (index_after (capacity_ q) (readIndex_ q) i) q)
      (seq 0 (Z.to_nat (distance (capacity_ q) (readIndex_ q) (writeIndex_ q)))).
Proof. intros Hwf. unfold dro.contents. rewrite size_wf by assumption. reflexivity. Qed.

Lemma length_contents (q : SPSCQueue) :
  wf q -> Z.of_nat (length (contents q)) = size q.
Proof.
  intros Hwf. pose proof (size_range q Hwf).
  unfold dro.contents. rewrite length_map, length_seq. lia.
Qed.

Lemma contents_refresh_readIndexCache (q : SPSCQueue) :
  contents (refresh_readIndexCache q) = contents q.
Proof. reflexivity. Qed.

Lemma contents_refresh_writeIndexCache (q : SPSCQueue) :
  contents (refresh_writeIndexCache q) = contents q.
Proof. reflexivity. Qed.

(** Writing at the write index of a queue that is not full appends. *)
Lemma contents_force_emplace (val : T) (q : SPSCQueue) :
  wf q -> full q = false ->
  contents (force_emplace val q) = contents q ++ [val].
Proof.
  intros Hwf Hnf. pose proof (wf_force_emplace val q Hwf) as Hwf'.
  pose proof (wf_cap_max q Hwf) as Hcap.
  rewrite !contents_eq by assumption.
  pose proof (wf_writeIndex _ _ Hwf) as Hw. pose proof (wf_readIndex _ _ Hwf) as Hr.
  unfold full in Hnf. rewrite next_index_wf in Hnf by assumption.
  change (capacity_ (force_emplace val q)) with (capacity_ q).
  change (readIndex_ (force_emplace val q)) with (readIndex_ q).
  change (writeIndex_ (force_emplace val q))
    with (next_index (capacity_ q) (writeIndex_ q)).
  set (d := distance (capacity_ q) (readIndex_ q) (writeIndex_ q)).
  assert (Hd : 0 <= d < capacity_ q - 1 /\
               distance (capacity_ q) (readIndex_ q)
                 (next_index (capacity_ q) (writeIndex_ q)) = d + 1).
  { subst d. rewrite next_index_wf by assumption. unfold distance. zdec; lia. }
  destruct Hd as [Hd ->].
  replace (Z.to_nat (d + 1)) with (S (Z.to_nat d)) by lia.
  rewrite seq_S, map_app. cbn [map Nat.add]. f_equal.
  - apply map_ext_in. intros i Hi. apply in_seq in Hi.
    change (read_value ?x (force_emplace val q))
      with (read_value x (write_value (writeIndex_ q) val q)).
    rewrite read_write_value; try assumption.
    + destruct (Z.eqb_spec (index_after (capacity_ q) (readIndex_ q) i) (writeIndex_ q))
        as [Heq|]; [exfalso|reflexivity].
      subst d. unfold index_after, distance in *. zdec; lia.
    + unfold index_after. subst d. unfold distance in *. zdec; lia.
  - f_equal.
    change (read_value ?x (force_emplace val q))
      with (read_value x (write_value (writeIndex_ q) val q)).
    rewrite read_write_value; try assumption.
    + destruct (Z.eqb_spec (index_after (capacity_ q) (readIndex_ q) (Z.to_nat d)) (writeIndex_ q))
        as [|Hne]; [reflexivity|exfalso].
      apply Hne. subst d. unfold index_after, distance in *. zdec; lia.
    + unfold index_after. subst d. unfold distance in *. zdec; lia.
Qed.

(** Reading at the read index of a queue that is not empty takes the
    oldest element. *)
Lemma contents_advance_read (q : SPSCQueue) :
  wf q -> empty q = false ->
  contents q = read_value (readIndex_ q) q :: contents (advance_read q).
Proof.
  intros Hwf Hne. pose proof (wf_advance_read q Hwf) as Hwf'.
  pose proof (wf_cap_max q Hwf) as Hcap.
  rewrite !contents_eq by assumption.
  pose proof (wf_writeIndex _ _ Hwf) as Hw. pose proof (wf_readIndex _ _ Hwf) as Hr.
  unfold empty in Hne.
  change (capacity_ (advance_read q)) with (capacity_ q).
  change (writeIndex_ (advance_read q)) with (writeIndex_ q).
  change (readIndex_ (advance_read q))
    with (next_index (capacityCache_ q) (readIndex_ q)).
  rewrite (wf_capacityCache _ _ Hwf).
  set (d := distance (capacity_ q) (readIndex_ q) (writeIndex_ q)).
  assert (Hd : 0 < d < capacity_ q /\
               distance (capacity_ q)
                 (next_index (capacity_ q) (readIndex_ q)) (writeIndex_ q) = d - 1).
  { subst d. rewrite next_index_wf by assumption. unfold distance. zdec; lia. }
  destruct Hd as [Hd ->].
  replace (Z.to_nat d) with (S (Z.to_nat (d - 1))) by lia.
  cbn [seq map]. f_equal.
  - unfold index_after. f_equal. zdec; lia.
  - rewrite <- seq_shift, map_map. apply map_ext_in. intros i Hi.
    apply in_seq in Hi.
    change (read_value ?x (advance_read q)) with (read_value x q). f_equal.
    rewrite next_index_wf by assumption.
    subst d. unfold index_after, distance in *. zdec; lia.
Qed.

(** *** The shadows stay consistent without [force_emplace] *)

Lemma shadows_refresh_readIndexCache (q : SPSCQueue) :
  shadows_ok q -> shadows_ok (refresh_readIndexCache q).
Proof.
  unfold shadows_ok, refresh_readIndexCache. fields. intros [H1 H2]. lia.
Qed.

Lemma shadows_refresh_writeIndexCache (q : SPSCQueue) :
  shadows_ok q -> shadows_ok (refresh_writeIndexCache q).
Proof.
  unfold shadows_ok, refresh_writeIndexCache. fields. intros [H1 H2]. lia.
Qed.

(** A producer whose shadow is consistent sees a full queue as full. *)
Lemma shadow_full (q : SPSCQueue) :
  wf q -> shadows_ok q -> full q = true ->
  next_index (capacity_ q) (writeIndex_ q) = readIndexCache_ q.
Proof.
  intros Hwf [_ Hs] Hfull. pose proof (wf_cap_max q Hwf) as Hcap.
  destruct Hwf as [_ _ _ Hw Hr Hrc _ _ _].
  unfold full in Hfull. rewrite next_index_wf in * by assumption.
  unfold distance in Hs. zdec; lia.
Qed.

(** A consumer whose shadow is consistent sees an empty queue as empty. *)
Lemma shadow_empty (q : SPSCQueue) :
  wf q -> shadows_ok q -> empty q = true ->
  readIndex_ q = writeIndexCache_ q.
Proof.
  intros Hwf [Hs _] Hempty.
  destruct Hwf as [_ _ _ Hw Hr _ Hwc _ _].
  unfold empty in Hempty. unfold distance in Hs. zdec; lia.
Qed.

Lemma shadows_force_emplace (val : T) (q : SPSCQueue) :
  wf q -> shadows_ok q ->
  next_index (capacity_ q) (writeIndex_ q) <> readIndexCache_ q ->
  shadows_ok (force_emplace val q).
Proof.
  intros Hwf [H1 H2] Hnext. pose proof (wf_cap_max q Hwf) as Hcap.
  destruct Hwf as [_ _ _ Hw Hr Hrc Hwc _ _].
  unfold shadows_ok, force_emplace, write_value. fields.
  rewrite next_index_wf in * by assumption.
  unfold distance in *. zdec; lia.
Qed.

Lemma shadows_advance_read (q : SPSCQueue) :
  wf q -> shadows_ok q ->
  readIndex_ q <> writeIndexCache_ q ->
  shadows_ok (advance_read q).
Proof.
  intros Hwf [H1 H2] Hnext. pose proof (wf_cap_max q Hwf) as Hcap.
  destruct Hwf as [_ _ _ Hw Hr Hrc Hwc Hcc _].
  unfold shadows_ok, advance_read. fields. rewrite Hcc.
  rewrite next_index_wf in * by assumption.
  unfold distance in *. zdec; lia.
Qed.

(** *** What one operation does to a consistent queue *)

Lemma try_emplace_full (val : T) (q : SPSCQueue) :
  wf q -> shadows_ok q -> full q = true ->
  try_emplace val q = (false, refresh_readIndexCache q).
Proof.
  intros Hwf Hs Hfull. rewrite try_emplace_cases. cbv zeta.
  rewrite (shadow_full q Hwf Hs Hfull), Z.eqb_refl.
  unfold full in Hfull. rewrite (shadow_full q Hwf Hs Hfull) in Hfull.
  rewrite Hfull. reflexivity.
Qed.

Lemma try_emplace_room (val : T) (q : SPSCQueue) :
  wf q -> shadows_ok q -> full q = false ->
  exists q',
    try_emplace val q = (true, q')
    /\ wf q' /\ shadows_ok q'
    /\ contents q' = contents q ++ [val]
    /\ readIndex_ q' = readIndex_ q
    /\ writeIndexCache_ q' = writeIndexCache_ q
    /\ capacity_ q' = capacity_ q.
Proof.
  intros Hwf Hs Hroom. rewrite try_emplace_cases. cbv zeta.
  destruct (Z.eqb_spec (next_index (capacity_ q) (writeIndex_ q)) (readIndexCache_ q))
    as [Heq|Hne].
  - unfold full in Hroom. rewrite Hroom.
    exists (force_emplace val (refresh_readIndexCache q)).
    pose proof (wf_refresh_readIndexCache q Hwf) as Hwf1.
    pose proof (shadows_refresh_readIndexCache q Hs) as Hs1.
    split_and!; try reflexivity.
    + apply wf_force_emplace. assumption.
    + apply shadows_force_emplace; try assumption.
      unfold refresh_readIndexCache. fields.
      apply Z.eqb_neq. assumption.
    + rewrite contents_force_emplace by assumption. reflexivity.
  - exists (force_emplace val q). split_and!; try reflexivity.
    + apply wf_force_emplace. assumption.
    + apply shadows_force_emplace; assumption.
    + apply contents_force_emplace; assumption.
Qed.

Lemma try_pop_empty (q : SPSCQueue) :
  wf q -> shadows_ok q -> empty q = true ->
  try_pop q = (None, refresh_writeIndexCache q).
Proof.
  intros Hwf Hs Hempty. rewrite try_pop_cases.
  rewrite <- (shadow_empty q Hwf Hs Hempty), Z.eqb_refl.
  unfold empty in Hempty. apply Z.eqb_eq in Hempty.
  rewrite Hempty, Z.eqb_refl. reflexivity.
Qed.

Lemma try_pop_nonempty (q : SPSCQueue) :
  wf q -> shadows_ok q -> empty q = false ->
  exists q',
    try_pop q = (Some (read_value (readIndex_ q) q), q')
    /\ wf q' /\ shadows_ok q'
    /\ contents q = read_value (readIndex_ q) q :: contents q'
    /\ writeIndex_ q' = writeIndex_ q
    /\ readIndexCache_ q' = readIndexCache_ q
    /\ capacity_ q' = capacity_ q.
Proof.
  intros Hwf Hs Hne. rewrite try_pop_cases.
  destruct (Z.eqb_spec (readIndex_ q) (writeIndexCache_ q)) as [Heq|Hneq].
  - unfold empty in Hne. rewrite Z.eqb_sym, Hne.
    exists (advance_read (refresh_writeIndexCache q)).
    pose proof (wf_refresh_writeIndexCache q Hwf) as Hwf1.
    pose proof (shadows_refresh_writeIndexCache q Hs) as Hs1.
    split_and!; try reflexivity.
    + apply wf_advance_read. assumption.
    + apply shadows_advance_read; try assumption.
      unfold refresh_writeIndexCache. fields.
      apply Z.eqb_neq. rewrite Z.eqb_sym. assumption.
    + rewrite <- contents_refresh_writeIndexCache.
      apply (contents_advance_read (refresh_writeIndexCache q)); assumption.
  - exists (advance_read q). split_and!; try reflexivity.
    + apply wf_advance_read. assumption.
    + apply shadows_advance_read; assumption.
    + apply contents_advance_read; assumption.
Qed.

(** *** Runs of whole operations *)

(** The invariant of a run without [force_emplace]: what was pushed is what
    was popped followed by what is unread. *)
Definition fifo_inv (h : history T) : Prop :=
  wf (h_queue h) /\ shadows_ok (h_queue h)
  /\ h_pushed h = h_popped h ++ contents (h_queue h).

Lemma step_fifo (fuel : nat) (o : op T) (h h' : history T) :
  fifo_inv h -> step T_default padding fuel o h = Some h' -> fifo_inv h'.
Proof.
  intros (Hwf & Hs & Hfifo) Hstep. unfold step in Hstep.
  destruct o as [val|val| |].
  - destruct (push fuel val (h_queue h)) as [q'|] eqn:Hpush; [|discriminate].
    apply emplace_some in Hpush.
    destruct (full (h_queue h)) eqn:Hfull.
    + rewrite try_emplace_full in Hpush by assumption. discriminate.
    + destruct (try_emplace_room val _ Hwf Hs Hfull) as (q1 & Heq & Hwf1 & Hs1 & Hc & _).
      rewrite Heq in Hpush. inversion Hpush; subst q1.
      inversion Hstep; subst h'. unfold fifo_inv. simpl.
      rewrite Hc, Hfifo, app_assoc. auto.
  - unfold try_push in Hstep.
    destruct (full (h_queue h)) eqn:Hfull.
    + rewrite try_emplace_full in Hstep by assumption.
      inversion Hstep; subst h'. unfold fifo_inv. simpl.
      split_and!; [apply wf_refresh_readIndexCache
                  |apply shadows_refresh_readIndexCache|]; assumption.
    + destruct (try_emplace_room val _ Hwf Hs Hfull) as (q1 & Heq & Hwf1 & Hs1 & Hc & _).
      rewrite Heq in Hstep. inversion Hstep; subst h'. unfold fifo_inv. simpl.
      rewrite Hc, Hfifo, app_assoc. auto.
  - destruct (pop fuel (h_queue h)) as [[val q']|] eqn:Hpop; [|discriminate].
    apply pop_some in Hpop.
    destruct (empty (h_queue h)) eqn:Hempty.
    + rewrite try_pop_empty in Hpop by assumption. discriminate.
    + destruct (try_pop_nonempty _ Hwf Hs Hempty) as (q1 & Heq & Hwf1 & Hs1 & Hc & _).
      rewrite Heq in Hpop. inversion Hpop; subst q1 val.
      inversion Hstep; subst h'. unfold fifo_inv. simpl.
      rewrite Hfifo, Hc, <- app_assoc. auto.
  - destruct (empty (h_queue h)) eqn:Hempty.
    + rewrite try_pop_empty in Hstep by assumption.
      inversion Hstep; subst h'. unfold fifo_inv. simpl.
      split_and!; [apply wf_refresh_writeIndexCache
                  |apply shadows_refresh_writeIndexCache|]; assumption.
    + destruct (try_pop_nonempty _ Hwf Hs Hempty) as (q1 & Heq & Hwf1 & Hs1 & Hc & _).
      rewrite Heq in Hstep. inversion Hstep; subst h'. unfold fifo_inv. simpl.
      rewrite Hfifo, Hc, <- app_assoc. auto.
Qed.

Lemma run_fifo (fuel : nat) (ops : list (op T)) :
  forall h h' : history T,
    fifo_inv h -> run T_default padding fuel ops h = Some h' -> fifo_inv h'.
Proof.
  induction ops as [|o ops IH]; intros h h' Hinv Hrun; simpl in Hrun.
  - inversion Hrun; subst. exact Hinv.
  - destruct (step T_default padding fuel o h) as [h1|] eqn:Hstep; [|discriminate].
    eapply IH; [|eassumption]. eapply step_fifo; eassumption.
Qed.

Lemma shadows_fresh (c : Z) : shadows_ok (fresh c).
Proof. unfold shadows_ok, distance. simpl. lia. Qed.

Lemma contents_fresh (c : Z) : contents (fresh c) = [].
Proof. reflexivity. Qed.

Lemma fifo_inv_fresh (c : Z) :
  1 <= c -> c + 1 + 2 * padding <= MAX_SIZE_T ->
  fifo_inv (mkHistory (fresh c) [] []).
Proof.
  intros Hc Hfit. split_and!; [apply wf_fresh; assumption|apply shadows_fresh|reflexivity].
Qed.

(** The queue over a store of [c + 1 + 2 * padding] elements that holds
    anything: nothing of the invariant looks at the elements. *)
Definition on_storage (c : Z) (storage : list T) : SPSCQueue :=
  mkSPSCQueue (c + 1) storage 0 0 padding 0 0 (c + 1).

Lemma fifo_inv_on_storage (c : Z) (storage : list T) :
  1 <= c -> c + 1 + 2 * padding <= MAX_SIZE_T ->
  Z.of_nat (length storage) = c + 1 + 2 * padding ->
  fifo_inv (mkHistory (on_storage c storage) [] []).
Proof.
  intros Hc Hfit Hlen. split_and!.
  - constructor; simpl; try lia; reflexivity.
  - unfold shadows_ok, distance. simpl. lia.
  - reflexivity.
Qed.

(** *** Consecutive [try_push] calls *)

Lemma try_push_all_app (vals1 vals2 : list T) :
  forall q : SPSCQueue,
    try_push_all (vals1 ++ vals2) q
    = let '(bs1, q1) := try_push_all vals1 q in
      let '(bs2, q2) := try_push_all vals2 q1 in
      (bs1 ++ bs2, q2).
Proof.
  induction vals1 as [|val vals1 IH]; intros q; simpl.
  - destruct (try_push_all vals2 q). reflexivity.
  - destruct (try_push val q) as [b q1]. rewrite IH.
    destruct (try_push_all vals1 q1) as [bs1 q2].
    destruct (try_push_all vals2 q2) as [bs2 q3]. reflexivity.
Qed.

Lemma full_false_size (q : SPSCQueue) :
  wf q -> size q < capacity q -> full q = false.
Proof.
  intros Hwf Hlt. destruct (full q) eqn:Hfull; [|reflexivity].
  apply full_size in Hfull; [lia|assumption].
Qed.

Lemma try_push_all_room (vals : list T) :
  forall q : SPSCQueue,
    wf q -> shadows_ok q ->
    size q + Z.of_nat (length vals) <= capacity q ->
    exists q',
      try_push_all vals q = (replicate (length vals) true, q')
      /\ wf q' /\ shadows_ok q'
      /\ contents q' = contents q ++ vals
      /\ readIndex_ q' = readIndex_ q
      /\ writeIndexCache_ q' = writeIndexCache_ q
      /\ capacity_ q' = capacity_ q.
Proof.
  induction vals as [|val vals IH]; intros q Hwf Hs Hroom.
  - exists q. rewrite app_nil_r. cbn [try_push_all length replicate].
    split_and!; done.
  - cbn [length] in Hroom.
    assert (Hnf : full q = false) by (apply full_false_size; [assumption|lia]).
    destruct (try_emplace_room val q Hwf Hs Hnf)
      as (q1 & Heq & Hwf1 & Hs1 & Hc1 & Hr1 & Hwc1 & Hcap1).
    assert (Hsize1 : size q1 = size q + 1).
    { rewrite <- !length_contents by assumption. rewrite Hc1, length_app. simpl. lia. }
    destruct (IH q1 Hwf1 Hs1) as (q2 & Heq2 & Hwf2 & Hs2 & Hc2 & Hr2 & Hwc2 & Hcap2).
    { rewrite Hsize1. unfold capacity. rewrite Hcap1.
      fold (capacity q). lia. }
    exists q2. cbn [try_push_all length replicate]. unfold try_push at 1.
    rewrite Heq, Heq2. split_and!; try assumption; try congruence.
    rewrite Hc2, Hc1, <- app_assoc. reflexivity.
Qed.

(** *** After [force_emplace] on a queue filled from construction *)

Lemma size_force_emplace_full (val : T) (q : SPSCQueue) :
  wf q -> full q = true ->
  size (force_emplace val q) = 0 /\ empty (force_emplace val q) = true.
Proof.
  intros Hwf Hfull.
  assert (Hempty : empty (force_emplace val q) = true).
  { unfold empty, force_emplace, write_value. fields. exact Hfull. }
  split; [|exact Hempty].
  apply empty_size; [apply wf_force_emplace|]; assumption.
Qed.

Lemma pop_after_force_emplace_full (val : T) (q : SPSCQueue) :
  full q = true -> writeIndexCache_ q = readIndex_ q ->
  (forall fuel, pop fuel (force_emplace val q) = None)
  /\ fst (try_pop (force_emplace val q)) = None.
Proof.
  intros Hfull Hwc. unfold full in Hfull. apply Z.eqb_eq in Hfull.
  split.
  - intros fuel. unfold dro.pop. cbv zeta.
    rewrite pop_wait_spins; [reflexivity| |];
      unfold force_emplace, write_value; fields; congruence.
  - rewrite try_pop_cases.
    unfold force_emplace, write_value; fields.
    rewrite Hwc, Hfull, !Z.eqb_refl. reflexivity.
Qed.

Lemma try_push_all_full (vals : list T) :
  forall q : SPSCQueue,
    wf q -> shadows_ok q -> full q = true ->
    fst (try_push_all vals q) = replicate (length vals) false.
Proof.
  induction vals as [|val vals IH]; intros q Hwf Hs Hfull; [reflexivity|].
  cbn [try_push_all length replicate]. unfold try_push at 1.
  rewrite try_emplace_full by assumption.
  specialize (IH (refresh_readIndexCache q)
                (wf_refresh_readIndexCache q Hwf)
                (shadows_refresh_readIndexCache q Hs) Hfull).
  destruct (try_push_all vals (refresh_readIndexCache q)) as [bs q2].
  simpl in *. congruence.
Qed.

(** From an empty queue: the first [capacity()] calls succeed, every
    later one fails. *)
Lemma try_push_all_from_empty (q : SPSCQueue) (vals more : list T) :
  wf q -> shadows_ok q -> empty q = true ->
  Z.of_nat (length vals) = capacity q ->
  fst (try_push_all (vals ++ more) q)
  = replicate (length vals) true ++ replicate (length more) false.
Proof.
  intros Hwf Hs Hempty Hlen.
  apply empty_size in Hempty; [|assumption].
  destruct (try_push_all_room vals q Hwf Hs)
    as (q1 & Heq & Hwf1 & Hs1 & Hc1 & _ & _ & Hcap1); [lia|].
  rewrite try_push_all_app, Heq.
  assert (Hfull : full q1 = true).
  { apply full_size; [assumption|].
    rewrite <- length_contents by assumption. rewrite Hc1, length_app.
    unfold capacity. rewrite Hcap1. fold (capacity q).
    pose proof (length_contents q Hwf). lia. }
  pose proof (try_push_all_full more q1 Hwf1 Hs1 Hfull) as Hmore.
  destruct (try_push_all more q1) as [bs q2]. simpl in *. congruence.
Qed.

(** No operation changes [capacity_]. *)
Lemma step_capacity (fuel : nat) (o : op T) (h h' : history T) :
  step T_default padding fuel o h = Some h' ->
  capacity_ (h_queue h') = capacity_ (h_queue h).
Proof.
  unfold step. destruct o as [val|val| |].
  - destruct (push fuel val (h_queue h)) as [q'|] eqn:Hpush; [|discriminate].
    apply emplace_some in Hpush. rewrite try_emplace_cases in Hpush.
    cbv zeta in Hpush. intros H; inversion H; subst h'. simpl.
    repeat match type of Hpush with
           | context [Z.eqb ?a ?b] => destruct (Z.eqb a b)
           end; inversion Hpush; reflexivity.
  - unfold try_push. rewrite try_emplace_cases. cbv zeta.
    repeat match goal with
           | |- context [Z.eqb ?a ?b] => destruct (Z.eqb a b)
           end; intros H; inversion H; reflexivity.
  - destruct (pop fuel (h_queue h)) as [[val q']|] eqn:Hpop; [|discriminate].
    apply pop_some in Hpop. rewrite try_pop_cases in Hpop.
    intros H; inversion H; subst h'. simpl.
    repeat match type of Hpop with
           | context [Z.eqb ?a ?b] => destruct (Z.eqb a b)
           end; inversion Hpop; reflexivity.
  - rewrite try_pop_cases.
    repeat match goal with
           | |- context [Z.eqb ?a ?b] => destruct (Z.eqb a b)
           end; intros H; inversion H; reflexivity.
Qed.

Lemma run_capacity (fuel : nat) (ops : list (op T)) :
  forall h h' : history T,
    run T_default padding fuel ops h = Some h' ->
    capacity_ (h_queue h') = capacity_ (h_queue h).
Proof.
  induction ops as [|o ops IH]; intros h h' Hrun; simpl in Hrun.
  - inversion Hrun; reflexivity.
  - destruct (step T_default padding fuel o h) as [h1|] eqn:Hstep; [|discriminate].
    rewrite (IH _ _ Hrun). eapply step_capacity; eassumption.
Qed.

(** Consecutive [try_push] calls from any state: as many succeed as slots
    are free, every later one fails. *)
Lemma try_push_all_bound (q : SPSCQueue) (vals : list T) :
  wf q -> shadows_ok q ->
  fst (try_push_all vals q)
  = replicate (length vals `min` Z.to_nat (capacity q - size q)) true
    ++ replicate (length vals - Z.to_nat (capacity q - size q)) false.
Proof.
  intros Hwf Hs.
  set (free := Z.to_nat (capacity q - size q)).
  assert (Hsize : 0 <= size q <= capacity q).
  { pose proof (size_range q Hwf). rewrite (capacity_wf q Hwf). lia. }
  rewrite <- (take_drop free vals) at 1.
  destruct (try_push_all_room (take free vals) q Hwf Hs)
    as (q1 & Heq & Hwf1 & Hs1 & Hc1 & _ & _ & Hcap1).
  { rewrite length_take. lia. }
  rewrite try_push_all_app, Heq.
  rewrite length_take, (Nat.min_comm free) in *.
  destruct (decide (length vals <= free)%nat) as [Hle|Hgt].
  - rewrite drop_ge by lia. simpl.
    replace (length vals - free)%nat with 0%nat by lia. reflexivity.
  - assert (Hfull : full q1 = true).
    { apply full_size; [assumption|].
      rewrite <- length_contents by assumption.
      rewrite Hc1, length_app, length_take.
      unfold capacity. rewrite Hcap1. fold (capacity q).
      pose proof (length_contents q Hwf). lia. }
    pose proof (try_push_all_full (drop free vals) q1 Hwf1 Hs1 Hfull) as Hmore.
    destruct (try_push_all (drop free vals) q1) as [bs q2]. simpl in *.
    rewrite Hmore, length_drop. reflexivity.
Qed.

Lemma count_true_replicate (n m : nat) :
  count_occ Bool.bool_dec (replicate n true ++ replicate m false) true = n.
Proof.
  induction n as [|n IH]; simpl.
  - induction m as [|m IHm]; simpl; [reflexivity|exact IHm].
  - rewrite IH. reflexivity.
Qed.

(** *** Against the queue of the specification *)

Abbreviation dro_state := (Fifo.dro_state T_default padding).

(** With fuel for the refresh and one more test, an operation returns
    exactly when the specification lets it be next, and does what the
    specification does. *)
Lemma step_refines (fuel : nat) (o : op T) (h : history T) :
  fifo_inv h ->
  option_map dro_state (step T_default padding (S (S fuel)) o h)
  = Fifo.step (capacity (h_queue h)) (Fifo.of_dro o) (dro_state h).
Proof.
  intros (Hwf & Hs & Hfifo).
  pose proof (length_contents (h_queue h) Hwf) as Hlen.
  assert (Hroom : Fifo.has_room (capacity (h_queue h)) (dro_state h)
                  = negb (full (h_queue h))).
  { unfold Fifo.has_room, Fifo.dro_state. cbn [Fifo.pending]. rewrite Hlen.
    pose proof (size_range _ Hwf). pose proof (capacity_wf _ Hwf).
    destruct (full (h_queue h)) eqn:Hfull; simpl.
    - apply full_size in Hfull; [|assumption]. apply Z.ltb_ge. lia.
    - apply Z.ltb_lt.
      destruct (Z.eq_dec (size (h_queue h)) (capacity (h_queue h))) as [E|E]; [|lia].
      apply full_size in E; [congruence|assumption]. }
  assert (Hnil : empty (h_queue h) = true -> contents (h_queue h) = []).
  { intros He. apply empty_size in He; [|assumption].
    destruct (contents (h_queue h)); [reflexivity|simpl in Hlen; lia]. }
  assert (Hcons : empty (h_queue h) = false ->
                  exists q',
                    try_pop (h_queue h) = (Some (read_value (readIndex_ (h_queue h)) (h_queue h)), q')
                    /\ contents (h_queue h)
                       = read_value (readIndex_ (h_queue h)) (h_queue h) :: contents q').
  { intros He. destruct (try_pop_nonempty _ Hwf Hs He) as (q' & Heq & _ & _ & Hc & _).
    exists q'. split; assumption. }
  destruct o as [val|val| |]; cbn [step Fifo.of_dro Fifo.step]; unfold push, try_push.
  - rewrite emplace_try, Hroom.
    destruct (full (h_queue h)) eqn:Hfull; simpl.
    + rewrite try_emplace_full by assumption. reflexivity.
    + destruct (try_emplace_room val _ Hwf Hs Hfull) as (q1 & Heq & _ & _ & Hc & _).
      rewrite Heq. simpl. unfold Fifo.dro_state, Fifo.accept. simpl.
      rewrite Hc. reflexivity.
  - rewrite Hroom.
    destruct (full (h_queue h)) eqn:Hfull; simpl.
    + rewrite try_emplace_full by assumption. reflexivity.
    + destruct (try_emplace_room val _ Hwf Hs Hfull) as (q1 & Heq & _ & _ & Hc & _).
      rewrite Heq. simpl. unfold Fifo.dro_state, Fifo.accept. simpl.
      rewrite Hc. reflexivity.
  - rewrite pop_try.
    destruct (empty (h_queue h)) eqn:Hempty.
    + rewrite try_pop_empty by assumption. unfold Fifo.dro_state.
      cbn [Fifo.pending]. rewrite (Hnil eq_refl). reflexivity.
    + destruct (Hcons eq_refl) as (q' & Heq & Hc). rewrite Heq.
      unfold Fifo.dro_state. cbn [Fifo.pending Fifo.enqueued Fifo.dequeued].
      rewrite Hc. reflexivity.
  - destruct (empty (h_queue h)) eqn:Hempty.
    + rewrite try_pop_empty by assumption. unfold Fifo.dro_state.
      cbn [Fifo.pending option_map h_queue h_pushed h_popped].
      change (contents (refresh_writeIndexCache (h_queue h)))
        with (contents (h_queue h)).
      rewrite (Hnil eq_refl). reflexivity.
    + destruct (Hcons eq_refl) as (q' & Heq & Hc). rewrite Heq.
      unfold Fifo.dro_state. cbn [Fifo.pending Fifo.enqueued Fifo.dequeued].
      rewrite Hc. reflexivity.
Qed.

Lemma run_refines (fuel : nat) (ops : list (op T)) :
  forall h : history T,
    fifo_inv h ->
    option_map dro_state (run T_default padding (S (S fuel)) ops h)
    = Fifo.run (capacity (h_queue h)) (map Fifo.of_dro ops) (dro_state h).
Proof.
  induction ops as [|o ops IH]; intros h Hinv; [reflexivity|].
  cbn [run map Fifo.run].
  rewrite <- (step_refines fuel o h Hinv).
  destruct (step T_default padding (S (S fuel)) o h) as [h1|] eqn:Hstep;
    [|reflexivity].
  simpl. rewrite (IH h1 (step_fifo _ _ _ _ Hinv Hstep)).
  unfold capacity. rewrite (step_capacity _ _ _ _ Hstep). reflexivity.
Qed.

(** The slots behind the unread elements. *)
Lemma nth_contents (q : SPSCQueue) (i : nat) :
  wf q -> Z.of_nat i < size q ->
  nth i (contents q) T_default
  = read_value (index_after (capacity_ q) (readIndex_ q) i) q.
Proof.
  intros Hwf Hi. unfold dro.contents.
  set (f := fun i => read_value (index_after (capacity_ q) (readIndex_ q) i) q).
  rewrite (nth_indep _ T_default (f 0%nat)) by (rewrite length_map, length_seq; lia).
  rewrite map_nth, seq_nth by lia. reflexivity.
Qed.

End SPSC.
End droFacts.

(** * The claims *)

(** ** The index-tracked queue *)

Section IndexTrackedClaims.
Import dro droFacts.

(** What a construction on the heap that does not throw gives, for a
    capacity below the largest [std::size_t]. *)
Lemma constructed {T : Type} (T_default : T) (padding capacity : Z)
    (storage : list T) (q0 : SPSCQueue T) :
  0 < padding /\ 2 * padding <= MAX_SIZE_T ->
  1 <= capacity < MAX_SIZE_T ->
  SPSCQueue_ctor T_default padding 0 capacity storage = inr q0 ->
  q0 = fresh T_default padding capacity
  /\ wf padding q0 /\ shadows_ok q0 /\ empty q0 = true
  /\ dro.capacity q0 = capacity
  /\ fifo_inv T_default padding (mkHistory q0 [] []).
Proof.
  intros Hp Hc Hctor.
  destruct (ctor_heap T_default padding Hp capacity storage q0 Hc Hctor)
    as [Hfit ->].
  assert (Hwf : wf padding (fresh T_default padding capacity))
    by (apply wf_fresh; lia).
  split_and!; try reflexivity; try assumption.
  - apply (shadows_fresh T_default padding).
  - rewrite (capacity_wf padding) by assumption. simpl. lia.
  - apply fifo_inv_fresh; lia.
Qed.

(** C3, as the code has it.  On a queue constructed with [capacity >= 1]
    and used through push/try_push/pop/try_pop only (no [force_push]),
    [capacity()] is the requested capacity and, in every state reached,
    consecutive [try_push] calls succeed exactly while a slot is free,
    [capacity() - size()] times, and fail from then on: no more than
    [capacity()] of them succeed without an intervening pop.  From an empty
    state the first [capacity()] calls return [true] and every further one,
    the [(capacity() + 1)]-th first, returns [false]. *)
Theorem C3_try_push_capacity_bound {T : Type} (T_default : T)
    (padding capacity : Z) (storage : list T) (q0 : SPSCQueue T) (fuel : nat)
    (ops : list (op T)) (h : history T) (vals : list T) :
  0 < padding /\ 2 * padding <= MAX_SIZE_T ->
  1 <= capacity < MAX_SIZE_T ->
  SPSCQueue_ctor T_default padding 0 capacity storage = inr q0 ->
  run T_default padding fuel ops (mkHistory q0 [] []) = Some h ->
  dro.capacity (h_queue h) = capacity
  /\ fst (try_push_all vals (h_queue h))
     = replicate (length vals `min` Z.to_nat (capacity - size (h_queue h))) true
       ++ replicate (length vals - Z.to_nat (capacity - size (h_queue h))) false
  /\ Z.of_nat (count_occ Bool.bool_dec (fst (try_push_all vals (h_queue h))) true)
     <= capacity
  /\ (empty (h_queue h) = true ->
      forall first more : list T,
        Z.of_nat (length first) = capacity ->
        fst (try_push_all (first ++ more) (h_queue h))
        = replicate (length first) true ++ replicate (length more) false).
Proof.
  intros Hp Hc Hctor Hrun.
  destruct (constructed T_default padding capacity storage q0 Hp Hc Hctor)
    as (_ & _ & _ & _ & Hcap & Hinv).
  pose proof (run_capacity T_default padding fuel ops _ _ Hrun) as Hsame.
  destruct (run_fifo T_default padding Hp fuel ops _ _ Hinv Hrun) as (Hwf & Hs & _).
  assert (Hcap' : dro.capacity (h_queue h) = capacity).
  { unfold dro.capacity in *. rewrite Hsame. exact Hcap. }
  pose proof (try_push_all_bound T_default padding Hp (h_queue h) vals Hwf Hs)
    as Hbound.
  rewrite Hcap' in Hbound.
  split_and!.
  - exact Hcap'.
  - exact Hbound.
  - rewrite Hbound, count_true_replicate.
    pose proof (size_range padding (h_queue h) Hwf). lia.
  - intros Hempty first more Hlen.
    apply (try_push_all_from_empty T_default padding Hp); try assumption.
    rewrite Hcap'. exact Hlen.
Qed.

Lemma C3_witness :
  exists h,
    run 0 1 2 [Push 10; Push 11; Pop] (mkHistory (fresh 0 1 3) [] []) = Some h
    /\ dro.capacity (h_queue h) = 3
    /\ fst (try_push_all [20; 30; 40; 50] (h_queue h))
       = [true; true; false; false]
    /\ Z.of_nat (count_occ Bool.bool_dec
                   (fst (try_push_all [20; 30; 40; 50] (h_queue h))) true) <= 3
    /\ (empty (h_queue h) = true ->
        forall first more : list Z,
          Z.of_nat (length first) = 3 ->
          fst (try_push_all (first ++ more) (h_queue h))
          = replicate (length first) true ++ replicate (length more) false).
Proof.
  eexists. split; [vm_compute; reflexivity|].
  refine (C3_try_push_capacity_bound 0 1 3 [] (fresh 0 1 3) 2
            [Push 10; Push 11; Pop] _ [20; 30; 40; 50] _ _ _ _).
  - unfold MAX_SIZE_T. lia.
  - unfold MAX_SIZE_T. lia.
  - reflexivity.
  - vm_compute. reflexivity.
Defined.

(** C3 as stated fails once [force_push] has been used: capacity 2;
    [force_push(1)], [force_push(2)], [pop] (which yields 1),
    [force_push(3)].  The producer's shadow of the read index is stale, and
    of the [try_push] calls that follow, with no pop in between, three
    succeed: one more than [capacity()]. *)
Lemma C3_counterexample :
  exists q0 q1 q,
    SPSCQueue_ctor 0 1 0 2 [] = inr q0
    /\ pop 0 1 2 (force_push 2 (force_push 1 q0)) = Some (1, q1)
    /\ q = force_push 3 q1
    /\ dro.capacity q = 2
    /\ fst (try_push_all [4; 5; 6; 7] q) = [true; true; true; false]
    /\ ~ Z.of_nat (count_occ Bool.bool_dec (fst (try_push_all [4; 5; 6; 7] q)) true)
         <= dro.capacity q.
Proof.
  eexists. eexists. eexists.
  split; [vm_compute; reflexivity|]. split; [vm_compute; reflexivity|].
  split; [reflexivity|].
  split_and!; try (vm_compute; reflexivity).
  vm_compute. intros H. apply H. reflexivity.
Qed.

(** C6.  A queue constructed with capacity 1: the first [try_push]
    succeeds, the queue reports not-empty, a second [try_push] without a
    pop returns [false], [pop] then returns the one element, and a further
    [try_push] succeeds. *)
Theorem C6_capacity_one {T : Type} (T_default : T) (padding : Z)
    (storage : list T) (q0 : SPSCQueue T) (v1 v2 v3 : T) (fuel : nat) :
  0 < padding /\ 2 * padding <= MAX_SIZE_T ->
  SPSCQueue_ctor T_default padding 0 1 storage = inr q0 ->
  exists q1 q2 q3 q4,
    try_push v1 q0 = (true, q1)
    /\ empty q1 = false
    /\ try_push v2 q1 = (false, q2)
    /\ pop T_default padding (S (S fuel)) q2 = Some (v1, q3)
    /\ try_push v3 q3 = (true, q4).
Proof.
  intros Hp Hctor.
  assert (Hc : 1 <= 1 < MAX_SIZE_T) by (unfold MAX_SIZE_T; lia).
  destruct (constructed T_default padding 1 storage q0 Hp Hc Hctor)
    as (_ & Hwf0 & Hs0 & Hempty0 & Hcap0 & _).
  apply (empty_size padding) in Hempty0; [|assumption].
  (* first push *)
  destruct (try_emplace_room T_default padding Hp v1 q0 Hwf0 Hs0)
    as (q1 & Hpush1 & Hwf1 & Hs1 & Hc1 & _ & _ & Hcap1).
  { apply (full_false_size padding); [assumption|lia]. }
  assert (Hcont0 : contents T_default padding q0 = []).
  { pose proof (length_contents T_default padding q0 Hwf0) as Hl.
    destruct (contents T_default padding q0); [reflexivity|simpl in Hl; lia]. }
  rewrite Hcont0 in Hc1. simpl in Hc1.
  assert (Hsize1 : size q1 = 1).
  { rewrite <- (length_contents T_default padding) by assumption.
    rewrite Hc1. reflexivity. }
  assert (Hcapq1 : dro.capacity q1 = 1).
  { unfold dro.capacity in *. rewrite Hcap1. exact Hcap0. }
  assert (Hne1 : empty q1 = false).
  { destruct (empty q1) eqn:E; [|reflexivity].
    apply (empty_size padding) in E; [lia|assumption]. }
  (* second push *)
  assert (Hfull1 : full q1 = true).
  { apply (full_size padding); [assumption|lia]. }
  pose proof (try_emplace_full padding v2 q1 Hwf1 Hs1 Hfull1) as Hpush2.
  set (q2 := refresh_readIndexCache q1) in *.
  assert (Hwf2 : wf padding q2) by (apply wf_refresh_readIndexCache; assumption).
  assert (Hs2 : shadows_ok q2) by (apply shadows_refresh_readIndexCache; assumption).
  (* pop *)
  destruct (try_pop_nonempty T_default padding q2 Hwf2 Hs2 Hne1)
    as (q3 & Hpop & Hwf3 & Hs3 & Hc3 & _ & _ & Hcap3).
  change (contents T_default padding q2) with (contents T_default padding q1) in Hc3.
  rewrite Hc1 in Hc3. injection Hc3 as Hv1 Hc3.
  assert (Hsize3 : size q3 = 0).
  { rewrite <- (length_contents T_default padding) by assumption.
    rewrite <- Hc3. reflexivity. }
  (* third push *)
  destruct (try_emplace_room T_default padding Hp v3 q3 Hwf3 Hs3)
    as (q4 & Hpush4 & _).
  { apply (full_false_size padding); [assumption|].
    unfold dro.capacity in *. rewrite Hcap3. change (capacity_ q2) with (capacity_ q1).
    lia. }
  exists q1, q2, q3, q4. split_and!; try assumption.
  rewrite (pop_try T_default padding), Hpop. f_equal. f_equal.
  symmetry. exact Hv1.
Qed.

Lemma C6_witness :
  exists q1 q2 q3 q4,
    try_push 7 (fresh 0 8 1) = (true, q1)
    /\ empty q1 = false
    /\ try_push 8 q1 = (false, q2)
    /\ pop 0 8 2 q2 = Some (7, q3)
    /\ try_push 9 q3 = (true, q4).
Proof.
  refine (C6_capacity_one 0 8 [] (fresh 0 8 1) 7 8 9 0 _ _).
  - unfold MAX_SIZE_T. lia.
  - reflexivity.
Defined.

(** C1, as the code has it.  On a queue constructed with [capacity >= 1]
    and filled with [capacity()] values (every [try_push] returns [true],
    [size()] is [capacity()]), [force_push(x)] writes [x] into the slack slot
    and moves the write index onto the read index.  No stored value is
    overwritten, but [size()] is then [0] and [empty()] holds: [try_pop]
    returns [false] and [pop] does not return. *)
Theorem C1_force_push_on_filled_queue {T : Type} (T_default : T)
    (padding capacity : Z) (storage : list T) (q0 : SPSCQueue T)
    (vals : list T) (x : T) :
  0 < padding /\ 2 * padding <= MAX_SIZE_T ->
  1 <= capacity < MAX_SIZE_T ->
  SPSCQueue_ctor T_default padding 0 capacity storage = inr q0 ->
  Z.of_nat (length vals) = capacity ->
  exists q,
    try_push_all vals q0 = (replicate (length vals) true, q)
    /\ size q = dro.capacity q
    /\ contents T_default padding q = vals
    /\ (forall i : nat, (i < length vals)%nat ->
          read_value T_default padding (Z.of_nat i) (force_push x q)
          = nth i vals T_default)
    /\ read_value T_default padding capacity (force_push x q) = x
    /\ size (force_push x q) = 0
    /\ empty (force_push x q) = true
    /\ fst (try_pop T_default padding (force_push x q)) = None
    /\ forall fuel, pop T_default padding fuel (force_push x q) = None.
Proof.
  intros Hp Hc Hctor Hlen.
  destruct (constructed T_default padding capacity storage q0 Hp Hc Hctor)
    as (Hq0 & Hwf0 & Hs0 & Hempty0 & Hcap0 & _).
  apply (empty_size padding) in Hempty0; [|assumption].
  destruct (try_push_all_room T_default padding Hp vals q0 Hwf0 Hs0)
    as (q & Hfill & Hwf & Hs & Hcont & Hr & Hwc & Hcap); [lia|].
  assert (Hcont0 : contents T_default padding q0 = [])
    by (rewrite Hq0; reflexivity).
  rewrite Hcont0 in Hcont. simpl in Hcont.
  assert (Hsize : size q = capacity).
  { rewrite <- (length_contents T_default padding) by assumption.
    rewrite Hcont. exact Hlen. }
  assert (Hcapq : dro.capacity q = capacity)
    by (unfold dro.capacity in *; rewrite Hcap; exact Hcap0).
  assert (Hfull : full q = true) by (apply (full_size padding); [assumption|lia]).
  assert (Hr0 : readIndex_ q = 0) by (rewrite Hr, Hq0; reflexivity).
  assert (Hwc0 : writeIndexCache_ q = 0) by (rewrite Hwc, Hq0; reflexivity).
  assert (Hcap_ : capacity_ q = capacity + 1) by (rewrite Hcap, Hq0; reflexivity).
  assert (Hw : writeIndex_ q = capacity).
  { pose proof (size_wf padding q Hwf) as Hd. rewrite Hsize, Hr0 in Hd.
    pose proof (wf_writeIndex _ _ Hwf). unfold distance in Hd.
    destruct (Z.geb_spec (writeIndex_ q) 0); lia. }
  destruct (size_force_emplace_full padding x q Hwf Hfull) as [Hsz Hem].
  destruct (pop_after_force_emplace_full T_default padding x q Hfull) as [Hpop Htry];
    [congruence|].
  exists q. split_and!; try assumption; try lia.
  - intros i Hi.
    change (read_value T_default padding (Z.of_nat i) (force_push x q))
      with (read_value T_default padding (Z.of_nat i)
              (write_value (writeIndex_ q) x q)).
    rewrite (read_write_value T_default padding Hp) by (try assumption; lia).
    destruct (Z.eqb_spec (Z.of_nat i) (writeIndex_ q)); [lia|].
    rewrite <- Hcont.
    rewrite (nth_contents T_default padding q i Hwf) by lia.
    f_equal. unfold index_after. rewrite Hr0.
    destruct (Z.ltb_spec (0 + Z.of_nat i) (capacity_ q)); lia.
  - change (read_value T_default padding capacity (force_push x q))
      with (read_value T_default padding capacity
              (write_value (writeIndex_ q) x q)).
    rewrite (read_write_value T_default padding Hp) by (try assumption; lia).
    rewrite Hw, Z.eqb_refl. reflexivity.
Qed.

Lemma C1_witness :
  exists q,
    try_push_all [10; 20] (fresh 0 1 2) = ([true; true], q)
    /\ size q = dro.capacity q
    /\ contents 0 1 q = [10; 20]
    /\ (forall i : nat, (i < 2)%nat ->
          read_value 0 1 (Z.of_nat i) (force_push 30 q) = nth i [10; 20] 0)
    /\ read_value 0 1 2 (force_push 30 q) = 30
    /\ size (force_push 30 q) = 0
    /\ empty (force_push 30 q) = true
    /\ fst (try_pop 0 1 (force_push 30 q)) = None
    /\ forall fuel, pop 0 1 fuel (force_push 30 q) = None.
Proof.
  refine (C1_force_push_on_filled_queue 0 1 2 [] (fresh 0 1 2) [10; 20] 30 _ _ _ _).
  - unfold MAX_SIZE_T. lia.
  - unfold MAX_SIZE_T. lia.
  - reflexivity.
  - reflexivity.
Defined.

(** C1 as stated fails: capacity 2, values 10 and 20, then [force_push(30)].
    The queue was full ([size() = capacity() = 2]); afterwards [size()] is
    [0], not [2], and no [pop] returns 20 (none returns at all). *)
Lemma C1_counterexample :
  exists q0 q,
    SPSCQueue_ctor 0 1 0 2 [] = inr q0
    /\ try_push_all [10; 20] q0 = ([true; true], q)
    /\ size q = dro.capacity q
    /\ size (force_push 30 q) <> dro.capacity (force_push 30 q)
    /\ ~ (exists fuel q', pop 0 1 fuel (force_push 30 q) = Some (20, q')).
Proof.
  eexists. eexists.
  split; [vm_compute; reflexivity|]. split; [vm_compute; reflexivity|].
  split; [reflexivity|]. split; [vm_compute; discriminate|].
  intros (fuel & q' & Hpop).
  match type of Hpop with
  | pop _ _ _ (force_push _ ?q) = _ =>
      rewrite (proj1 (pop_after_force_emplace_full 0 1 30 q eq_refl eq_refl))
        in Hpop
  end.
  discriminate.
Qed.

(** C7, as the code has it.  In every state a run of
    push/try_push/pop/try_pop (no [force_push]) leads to from construction,
    [try_push] on a full queue returns [false] and changes nothing but the
    producer's shadow [readIndexCache_], which it sets to the read index:
    write index, read index and every slot keep their values. *)
Theorem C7_try_push_full_changes_shadow_only {T : Type} (T_default : T)
    (padding capacity : Z) (storage : list T) (q0 : SPSCQueue T) (fuel : nat)
    (ops : list (op T)) (h : history T) (val : T) :
  0 < padding /\ 2 * padding <= MAX_SIZE_T ->
  1 <= capacity < MAX_SIZE_T ->
  SPSCQueue_ctor T_default padding 0 capacity storage = inr q0 ->
  run T_default padding fuel ops (mkHistory q0 [] []) = Some h ->
  full (h_queue h) = true ->
  exists q',
    try_push val (h_queue h) = (false, q')
    /\ writeIndex_ q' = writeIndex_ (h_queue h)
    /\ readIndex_ q' = readIndex_ (h_queue h)
    /\ buffer_ q' = buffer_ (h_queue h)
    /\ q' = set_readIndexCache_ (readIndex_ (h_queue h)) (h_queue h).
Proof.
  intros Hp Hc Hctor Hrun Hfull.
  destruct (constructed T_default padding capacity storage q0 Hp Hc Hctor)
    as (_ & _ & _ & _ & _ & Hinv).
  destruct (run_fifo T_default padding Hp fuel ops _ _ Hinv Hrun) as (Hwf & Hs & _).
  exists (refresh_readIndexCache (h_queue h)).
  split; [|split_and!; reflexivity].
  apply (try_emplace_full padding); assumption.
Qed.

Lemma C7_witness :
  exists h q',
    run 0 1 2 [Push 10; TryPush 20; Pop; Push 30] (mkHistory (fresh 0 1 2) [] [])
    = Some h
    /\ full (h_queue h) = true
    /\ try_push 40 (h_queue h) = (false, q')
    /\ writeIndex_ q' = writeIndex_ (h_queue h)
    /\ readIndex_ q' = readIndex_ (h_queue h)
    /\ buffer_ q' = buffer_ (h_queue h)
    /\ q' = set_readIndexCache_ (readIndex_ (h_queue h)) (h_queue h).
Proof.
  eexists.
  assert (Hrun : run 0 1 2 [Push 10; TryPush 20; Pop; Push 30]
                   (mkHistory (fresh 0 1 2) [] []) = Some _)
    by (vm_compute; reflexivity).
  destruct (C7_try_push_full_changes_shadow_only 0 1 2 [] (fresh 0 1 2) 2
              [Push 10; TryPush 20; Pop; Push 30] _ 40
              ltac:(unfold MAX_SIZE_T; lia) ltac:(unfold MAX_SIZE_T; lia)
              eq_refl Hrun eq_refl) as (q' & H).
  exists q'. split; [exact Hrun|]. split; [reflexivity|]. exact H.
Defined.

(** C7 as stated fails once [force_push] has been used, even when it never
    overwrote anything: capacity 2; [force_push(1)], [force_push(2)], [pop]
    (which yields 1), [force_push(3)].  The queue now holds 2 and 3 and is
    full, yet [try_push(4)] returns [true], writes the slack slot and moves
    the write index onto the read index: the queue then reads as empty,
    with the unread 2 and 3 out of reach. *)
Lemma C7_counterexample :
  exists q0 q1 q,
    SPSCQueue_ctor 0 1 0 2 [] = inr q0
    /\ pop 0 1 2 (force_push 2 (force_push 1 q0)) = Some (1, q1)
    /\ q = force_push 3 q1
    /\ full q = true
    /\ size q = dro.capacity q
    /\ fst (try_push 4 q) = true
    /\ writeIndex_ (snd (try_push 4 q)) <> writeIndex_ q
    /\ buffer_ (snd (try_push 4 q)) <> buffer_ q.
Proof.
  eexists. eexists. eexists.
  split; [vm_compute; reflexivity|]. split; [vm_compute; reflexivity|].
  split; [vm_compute; reflexivity|].
  split_and!; try reflexivity; vm_compute; discriminate.
Qed.

(** C4, on the code.  For [1 <= capacity < SIZE_MAX] the heap store throws
    the overflow error exactly when [capacity + 1 + 2 * padding] exceeds
    [SIZE_MAX], and otherwise constructs a queue whose [capacity()] is the
    requested one.  For [capacity = SIZE_MAX] the padded size exceeds
    [SIZE_MAX] as well, but [capacity + 1] has wrapped to [0] before the
    test: no error is thrown, and the store has [capacity_ = 0] over a
    vector of [2 * padding] elements. *)
Theorem C4_overflow_test_misses_SIZE_MAX {T : Type} (T_default : T)
    (padding : Z) (storage : list T) :
  0 < padding /\ 2 * padding <= MAX_SIZE_T ->
  (forall capacity, 1 <= capacity < MAX_SIZE_T ->
     (HeapBuffer T_default padding capacity = inl details.overflow_error
      <-> capacity + 1 + 2 * padding > MAX_SIZE_T)
     /\ (capacity + 1 + 2 * padding <= MAX_SIZE_T ->
         exists q, SPSCQueue_ctor T_default padding 0 capacity storage = inr q
                   /\ dro.capacity q = capacity))
  /\ MAX_SIZE_T + 1 + 2 * padding > MAX_SIZE_T
  /\ HeapBuffer T_default padding MAX_SIZE_T
     = inr (mkBuffer 0 (replicate (Z.to_nat (2 * padding)) T_default)).
Proof.
  intros Hp. split_and!.
  - intros capacity Hc. split.
    + rewrite (HeapBuffer_below_max T_default padding Hp) by assumption.
      destruct (Z.gtb_spec (capacity + 1 + 2 * padding) MAX_SIZE_T);
        split; intros; try lia; try discriminate; reflexivity.
    + intros Hfit. exists (fresh T_default padding capacity). split.
      * apply ctor_heap_fresh; [assumption|lia|assumption].
      * rewrite (capacity_wf padding) by (apply wf_fresh; [assumption|lia|assumption]).
        simpl. lia.
  - lia.
  - apply HeapBuffer_at_max. assumption.
Qed.

Lemma C4_witness :
  HeapBuffer 0 (details.padding details.cacheLineSize_fallback 8) MAX_SIZE_T
  = inr (mkBuffer 0 (replicate 16 0)).
Proof.
  exact (proj2 (proj2 (C4_overflow_test_misses_SIZE_MAX 0
                         (details.padding details.cacheLineSize_fallback 8) []
                         ltac:(vm_compute; split; [reflexivity|discriminate])))).
Defined.

End IndexTrackedClaims.

(** ** The sentinel-tracked queue *)

Section SentinelTrackedClaims.
Import FastQueueData FastQueueSpec FastQueueFacts.

(** C2.  Graceful shutdown, both variants: push [k] elements,
    [k <= RING_BUFFER_SIZE + 1] (so every [k <= RING_BUFFER_SIZE]), call
    [stopQueue()]; then the first [k] pops return the [k] values in order
    and the [(k+1)]-th pop returns [nullptr] instead of spinning. *)
Theorem C2_graceful_shutdown (a : arch) (RING_BUFFER_SIZE : Z) (fuel : nat)
    (vals : list T) :
  ring_ok RING_BUFFER_SIZE ->
  Forall (fun val => val <> nullptr) vals ->
  Z.of_nat (length vals) <= RING_BUFFER_SIZE + 1 ->
  exists q q',
    push_all a RING_BUFFER_SIZE (S fuel) vals (init a RING_BUFFER_SIZE) = Some q
    /\ pop_n a RING_BUFFER_SIZE (S fuel) (length vals + 1) (stopQueue a q)
       = Some (vals ++ [nullptr], q').
Proof.
  intros Hring Hnn Hlen.
  destruct (push_all_holds RING_BUFFER_SIZE Hring a fuel vals
              (init a RING_BUFFER_SIZE) [] (holds_init RING_BUFFER_SIZE Hring a) Hnn)
    as (q & Hpush & Hh & Hr & _ & _); [simpl; lia|].
  simpl in Hh.
  pose proof (holds_stopQueue RING_BUFFER_SIZE a q vals Hh) as Hh0.
  destruct (pop_n_drain RING_BUFFER_SIZE Hring a fuel vals (stopQueue a q) Hh0)
    as (q' & Hdrain & Hh' & Hr' & He' & Hs').
  exists q, q'. split; [exact Hpush|].
  apply (pop_n_snoc RING_BUFFER_SIZE a (S fuel) (length vals) _ q' q' vals nullptr Hdrain).
  apply pop_end_of_stream; [apply (holds_read_slot RING_BUFFER_SIZE Hring q' [] Hh')|].
  apply exit_test_at_marker.
  - rewrite He', Hr'.
    transitivity (mWritePosition (stopQueue a q)); [destruct a; reflexivity|].
    apply (holds_write _ _ _ Hh0).
  - rewrite Hs'. destruct a; reflexivity.
Qed.

Lemma C2_witness :
  exists q q',
    push_all arm64 3 1 [5; 6; 7] (init arm64 3) = Some q
    /\ pop_n arm64 3 1 4 (stopQueue arm64 q) = Some ([5; 6; 7; nullptr], q').
Proof.
  refine (C2_graceful_shutdown arm64 3 0 [5; 6; 7] _ _ _).
  - split; [unfold MAX_SIZE_T; lia|reflexivity].
  - repeat constructor; discriminate.
  - simpl. lia.
Defined.

(** C10.  Both variants: a [pop] that returns [nullptr] has left the
    queue, read position and slots, as it was, and every later [pop] with
    nothing pushed in between returns [nullptr] on its first test, the
    queue still unchanged. *)
Theorem C10_end_of_stream_is_persistent (a : arch) (RING_BUFFER_SIZE : Z)
    (fuel : nat) (q q' : FastQueue) :
  pop a RING_BUFFER_SIZE fuel q = Some (nullptr, q') ->
  q' = q
  /\ forall (fuel' n : nat),
       pop_n a RING_BUFFER_SIZE (S fuel') n q = Some (replicate n nullptr, q).
Proof.
  intros Hpop.
  destruct (pop_nullptr_inv RING_BUFFER_SIZE a fuel q q' Hpop) as (Hq & Hslot & Hexit).
  split; [exact Hq|].
  intros fuel' n. apply pop_n_end_of_stream; assumption.
Qed.

Lemma C10_witness :
  stopQueue x86_64 (init x86_64 3) = stopQueue x86_64 (init x86_64 3)
  /\ forall (fuel' n : nat),
       pop_n x86_64 3 (S fuel') n (stopQueue x86_64 (init x86_64 3))
       = Some (replicate n nullptr, stopQueue x86_64 (init x86_64 3)).
Proof.
  exact (C10_end_of_stream_is_persistent x86_64 3 1
           (stopQueue x86_64 (init x86_64 3)) (stopQueue x86_64 (init x86_64 3))
           eq_refl).
Defined.

(** C9, as the code has it.  Both variants, in any state of the ring
    ([holds]: the slots from the read position on are the pending elements,
    all others [nullptr]): after [stopQueue()], a [push] whose target slot is
    [nullptr] stores its element in the slot of the frozen marker and moves
    the write position one past the marker.  [pop] tests the slot before the
    marker, so the element is returned, after the elements that were pending
    at the shutdown; the read position is then past the marker and the next
    [pop] finds neither an element nor end-of-stream. *)
Theorem C9_push_after_stopQueue_is_popped (a : arch) (RING_BUFFER_SIZE : Z)
    (fuel : nat) (q : FastQueue) (pending : list T) (val : T) :
  ring_ok RING_BUFFER_SIZE ->
  holds RING_BUFFER_SIZE q pending ->
  val <> nullptr ->
  mObj RING_BUFFER_SIZE (mWritePosition q) q = nullptr ->
  exists q1 q2,
    push a RING_BUFFER_SIZE (S fuel) val (stopQueue a q) = Some q1
    /\ mExitThread q1 = mWritePosition q
    /\ mExitThreadSemaphore q1 = true
    /\ mObj RING_BUFFER_SIZE (mExitThread q1) q1 = val
    /\ mWritePosition q1 = wrap64 (mExitThread q1 + 1)
    /\ pop_n a RING_BUFFER_SIZE (S fuel) (length pending + 1) q1
       = Some (pending ++ [val], q2)
    /\ forall fuel', pop a RING_BUFFER_SIZE fuel' q2 = None.
Proof.
  intros Hring Hh Hval Hslot.
  (* the target slot is free, so the ring is not full *)
  assert (Hroom : Z.of_nat (length pending) <= RING_BUFFER_SIZE).
  { destruct (Z.le_gt_cases (Z.of_nat (length pending)) RING_BUFFER_SIZE) as [|Hgt];
      [assumption|exfalso].
    apply (full_slot_nonnull RING_BUFFER_SIZE Hring q pending Hh); [|assumption].
    pose proof (holds_bound _ _ _ Hh). lia. }
  pose proof (holds_stopQueue RING_BUFFER_SIZE a q pending Hh) as Hh0.
  set (q0 := stopQueue a q) in *.
  assert (Hq0 : mWritePosition q0 = mWritePosition q
                /\ mExitThread q0 = mWritePosition q
                /\ mExitThreadSemaphore q0 = true)
    by (subst q0; destruct a; simpl; auto).
  destruct Hq0 as (Hw0 & He0 & Hs0).
  (* the push stores; the drain takes the pending elements and then it *)
  pose proof (holds_stored RING_BUFFER_SIZE Hring q0 pending val Hh0 Hval Hroom)
    as Hh1.
  set (q1 := stored RING_BUFFER_SIZE val q0) in *.
  destruct (pop_n_drain RING_BUFFER_SIZE Hring a fuel (pending ++ [val]) q1 Hh1)
    as (q2 & Hdrain & Hh2 & Hr2 & He2 & Hs2).
  rewrite length_app in Hdrain, Hr2. cbn [length] in Hdrain, Hr2.
  exists q1, q2. split_and!.
  - apply (push_room RING_BUFFER_SIZE Hring a fuel q0 pending); assumption.
  - exact He0.
  - exact Hs0.
  - change (mObj RING_BUFFER_SIZE (mExitThread q0)
              (set_mObj RING_BUFFER_SIZE (mWritePosition q0) val q0) = val).
    apply (mObj_set_same RING_BUFFER_SIZE Hring); [apply Hh0|congruence].
  - change (wrap64 (mWritePosition q0 + 1) = wrap64 (mExitThread q0 + 1)).
    congruence.
  - exact Hdrain.
  - (* past the marker: the exit test fails in both variants *)
    intros fuel'.
    apply pop_spins; [apply (holds_read_slot RING_BUFFER_SIZE Hring q2 [] Hh2)|].
    assert (Hne : mExitThread q2 <> mReadPosition q2).
    { rewrite He2, Hr2.
      change (mExitThread q1) with (mExitThread q0).
      change (mReadPosition q1) with (mReadPosition q0).
      rewrite He0, <- Hw0, (holds_write _ _ _ Hh0).
      replace (mReadPosition q0 + Z.of_nat (length pending + 1))
        with (mReadPosition q0 + Z.of_nat (length pending) + 1) by lia.
      intros Heq. symmetry in Heq. revert Heq. apply wrap64_succ_ne. }
    destruct a; simpl; destruct (Z.eqb_spec (mExitThread q2) (mReadPosition q2));
      try contradiction; reflexivity.
Qed.

Lemma C9_witness :
  exists q1 q2,
    push arm64 3 1 7 (stopQueue arm64 (init arm64 3)) = Some q1
    /\ mExitThread q1 = mWritePosition (init arm64 3)
    /\ mExitThreadSemaphore q1 = true
    /\ mObj 3 (mExitThread q1) q1 = 7
    /\ mWritePosition q1 = wrap64 (mExitThread q1 + 1)
    /\ pop_n arm64 3 1 1 q1 = Some ([7], q2)
    /\ forall fuel', pop arm64 3 fuel' q2 = None.
Proof.
  refine (C9_push_after_stopQueue_is_popped arm64 3 0 (init arm64 3) [] 7 _ _ _ _).
  - split; [unfold MAX_SIZE_T; lia|reflexivity].
  - apply holds_init. split; [unfold MAX_SIZE_T; lia|reflexivity].
  - discriminate.
  - reflexivity.
Defined.

(** C9 as stated fails: on the fresh x86-64 queue of mask 3, after
    [stopQueue()] the target slot is [nullptr], [push(7)] stores, and the
    very next [pop] returns 7, not end-of-stream. *)
Lemma C9_counterexample :
  mObj 3 (mWritePosition (stopQueue x86_64 (init x86_64 3)))
    (stopQueue x86_64 (init x86_64 3)) = nullptr
  /\ exists q1 q2,
       push x86_64 3 1 7 (stopQueue x86_64 (init x86_64 3)) = Some q1
       /\ pop x86_64 3 1 q1 = Some (7, q2)
       /\ ~ (forall n outs q3, pop_n x86_64 3 1 n q1 = Some (outs, q3) -> ~ In 7 outs).
Proof.
  split; [reflexivity|].
  eexists. eexists.
  split; [vm_compute; reflexivity|]. split; [vm_compute; reflexivity|].
  intros Hnever.
  refine (Hnever 1%nat [7] _ _ _); [vm_compute; reflexivity|]. left. reflexivity.
Qed.

(** C8, as the code has it.  The two variants have the same [push]: a
    free slot is written whatever the flag says, and a [push] waiting on an
    occupied slot tests the shutdown flag in its loop, so it is abandoned
    at once when the flag is set and never returns while it is clear, in
    either variant.  They differ in [pop]: both take the element at the
    read position when there is one; on an empty slot the x86-64 [pop]
    returns [nullptr] exactly when the marker is the read position and the
    flag is set, the arm64 [pop] exactly when the marker is the read
    position, and never reads the flag. *)
Theorem C8_variants_differ_in_pop_not_in_push (RING_BUFFER_SIZE : Z) :
  (forall fuel val q,
      push arm64 RING_BUFFER_SIZE fuel val q
      = push x86_64 RING_BUFFER_SIZE fuel val q)
  /\ (forall a val q,
        push a RING_BUFFER_SIZE 0 val q = None
        /\ forall fuel,
            push a RING_BUFFER_SIZE (S fuel) val q
            = if mObj RING_BUFFER_SIZE (mWritePosition q) q =? nullptr
              then Some (set_mWritePosition (wrap64 (mWritePosition q + 1))
                           (set_mObj RING_BUFFER_SIZE (mWritePosition q) val q))
              else if mExitThreadSemaphore q then Some q else None)
  /\ push_checks_flag x86_64 RING_BUFFER_SIZE
  /\ push_checks_flag arm64 RING_BUFFER_SIZE
  /\ (forall fuel q,
        pop x86_64 RING_BUFFER_SIZE (S fuel) q
        = if mObj RING_BUFFER_SIZE (mReadPosition q) q =? nullptr
          then if (mExitThread q =? mReadPosition q) && mExitThreadSemaphore q
               then Some (nullptr, q) else None
          else Some (mObj RING_BUFFER_SIZE (mReadPosition q) q,
                     set_mReadPosition (wrap64 (mReadPosition q + 1))
                       (set_mObj RING_BUFFER_SIZE (mReadPosition q) nullptr q)))
  /\ (forall fuel q,
        pop arm64 RING_BUFFER_SIZE (S fuel) q
        = if mObj RING_BUFFER_SIZE (mReadPosition q) q =? nullptr
          then if mExitThread q =? mReadPosition q
               then Some (nullptr, q) else None
          else Some (mObj RING_BUFFER_SIZE (mReadPosition q) q,
                     set_mReadPosition (wrap64 (mReadPosition q + 1))
                       (set_mObj RING_BUFFER_SIZE (mReadPosition q) nullptr q)))
  /\ (forall fuel q q',
        pop x86_64 RING_BUFFER_SIZE fuel q = Some (nullptr, q')
        <-> fuel <> 0%nat /\ q' = q
            /\ mObj RING_BUFFER_SIZE (mReadPosition q) q = nullptr
            /\ mExitThread q = mReadPosition q
            /\ mExitThreadSemaphore q = true)
  /\ (forall fuel q q',
        pop arm64 RING_BUFFER_SIZE fuel q = Some (nullptr, q')
        <-> fuel <> 0%nat /\ q' = q
            /\ mObj RING_BUFFER_SIZE (mReadPosition q) q = nullptr
            /\ mExitThread q = mReadPosition q)
  /\ pop_checks_flag x86_64 RING_BUFFER_SIZE
  /\ pop_ignores_flag arm64 RING_BUFFER_SIZE.
Proof.
  split_and!.
  - intros fuel val q. apply push_arm64.
  - intros a val q. split; [apply push_zero|].
    intros fuel. apply push_closed.
  - apply push_checks_flag_both.
  - apply push_checks_flag_both.
  - intros fuel q. apply (pop_closed RING_BUFFER_SIZE x86_64).
  - intros fuel q. apply (pop_closed RING_BUFFER_SIZE arm64).
  - intros fuel q q'.
    rewrite (pop_nullptr_iff RING_BUFFER_SIZE x86_64). simpl.
    rewrite andb_true_iff, Z.eqb_eq. tauto.
  - intros fuel q q'.
    rewrite (pop_nullptr_iff RING_BUFFER_SIZE arm64). simpl.
    rewrite Z.eqb_eq. tauto.
  - apply pop_checks_flag_x86_64.
  - apply pop_ignores_flag_arm64.
Qed.

(** C8 as stated fails, here for the mask of [main.cpp]: neither variant
    has a [push] that ignores the flag, so it is not the case that exactly
    one checks it while the other does not. *)
Lemma C8_counterexample :
  ~ ((push_checks_flag x86_64 1023 /\ push_ignores_flag arm64 1023)
     \/ (push_checks_flag arm64 1023 /\ push_ignores_flag x86_64 1023)).
Proof.
  intros [[_ Hign]|[_ Hign]]; revert Hign; apply push_not_ignores_flag.
Qed.

End SentinelTrackedClaims.

(** ** Both queues *)

(** C5.  FIFO delivery.  Whole operations of the producer and the consumer
    interleave in any order; a run is a list of them.  The queue of the
    specification ([Fifo], a first-in first-out queue of bounded length)
    says which operation can be next: a pop when something is held, a push
    when there is room.

    - Index-tracked queue, constructed with [capacity >= 1], operations
      push/try_push/pop/try_pop (no [force_push]): with fuel for the
      refresh of a shadow and one more test, a run returns exactly when the
      specification admits it, and what it has enqueued, dequeued and
      still holds is what the specification says.  With any fuel, a run
      that returns has enqueued the values it dequeued, in the same order,
      followed by the unread contents.
    - Sentinel-tracked queue, either variant, operations push/pop of
      non-null values: every run the specification admits returns, on the
      first evaluation of each loop condition, with the specification's
      enqueued, dequeued and pending elements; where the specification
      makes a caller wait the x86-64 ring spins; and with any fuel a run
      that returns is in order.
    - In the specification what was enqueued is what was dequeued followed
      by what is held.

    So every value pushed is popped, once, in the order of the pushes:
    after [N] pushes and [N] pops the two sequences are equal. *)
Theorem C5_fifo_delivery :
  (forall (T : Type) (T_default : T) (padding capacity : Z) (storage : list T)
          (q0 : dro.SPSCQueue T),
      0 < padding /\ 2 * padding <= MAX_SIZE_T ->
      1 <= capacity < MAX_SIZE_T ->
      dro.SPSCQueue_ctor T_default padding 0 capacity storage = inr q0 ->
      (forall (fuel : nat) (ops : list (dro.op T)),
          option_map (Fifo.dro_state T_default padding)
            (dro.run T_default padding (S (S fuel)) ops (dro.mkHistory q0 [] []))
          = Fifo.run capacity (map Fifo.of_dro ops) Fifo.empty)
      /\ (forall (fuel : nat) (ops : list (dro.op T)) (h : dro.history T),
            dro.run T_default padding fuel ops (dro.mkHistory q0 [] []) = Some h ->
            dro.h_pushed h
            = dro.h_popped h ++ dro.contents T_default padding (dro.h_queue h)
            /\ (length (dro.h_popped h) = length (dro.h_pushed h) ->
                dro.h_popped h = dro.h_pushed h)))
  /\ (forall (a : FastQueueSpec.arch) (RING_BUFFER_SIZE : Z),
         FastQueueSpec.ring_ok RING_BUFFER_SIZE ->
         (forall (fuel : nat) (ops : list FastQueueData.op)
                 (s : Fifo.state FastQueueData.T),
             Forall FastQueueSpec.pushes_nonnull ops ->
             Fifo.run (RING_BUFFER_SIZE + 1) (map Fifo.of_FastQueue ops) Fifo.empty
             = Some s ->
             exists h,
               FastQueueSpec.run a RING_BUFFER_SIZE (S fuel) ops
                 (FastQueueData.mkHistory (FastQueueSpec.init a RING_BUFFER_SIZE) [] [])
               = Some h
               /\ FastQueueSpec.holds RING_BUFFER_SIZE (FastQueueData.h_queue h)
                    (Fifo.pending s)
               /\ FastQueueData.h_pushed h = Fifo.enqueued s
               /\ FastQueueData.h_popped h = Fifo.dequeued s)
         /\ (forall (fuel : nat) (ops : list FastQueueData.op),
               Forall FastQueueSpec.pushes_nonnull ops ->
               Fifo.run (RING_BUFFER_SIZE + 1) (map Fifo.of_FastQueue ops) Fifo.empty
               = None ->
               FastQueueSpec.run FastQueueSpec.x86_64 RING_BUFFER_SIZE fuel ops
                 (FastQueueData.mkHistory
                    (FastQueueSpec.init FastQueueSpec.x86_64 RING_BUFFER_SIZE) [] [])
               = None)
         /\ (forall (fuel : nat) (ops : list FastQueueData.op)
                    (h : FastQueueData.history),
               Forall FastQueueSpec.pushes_nonnull ops ->
               FastQueueSpec.run a RING_BUFFER_SIZE fuel ops
                 (FastQueueData.mkHistory (FastQueueSpec.init a RING_BUFFER_SIZE) [] [])
               = Some h ->
               (exists pending,
                   FastQueueSpec.holds RING_BUFFER_SIZE (FastQueueData.h_queue h)
                     pending
                   /\ FastQueueData.h_pushed h = FastQueueData.h_popped h ++ pending)
               /\ (length (FastQueueData.h_popped h)
                   = length (FastQueueData.h_pushed h) ->
                   FastQueueData.h_popped h = FastQueueData.h_pushed h)))
  /\ (forall (A : Type) (bound : Z) (ops : list (Fifo.op A)) (s : Fifo.state A),
         0 <= bound ->
         Fifo.run bound ops Fifo.empty = Some s ->
         Fifo.enqueued s = Fifo.dequeued s ++ Fifo.pending s
         /\ Z.of_nat (length (Fifo.pending s)) <= bound
         /\ (length (Fifo.dequeued s) = length (Fifo.enqueued s) ->
             Fifo.dequeued s = Fifo.enqueued s)).
Proof.
  split_and!.
  - intros T T_default padding capacity storage q0 Hp Hc Hctor.
    destruct (constructed T_default padding capacity storage q0 Hp Hc Hctor)
      as (Hq0 & _ & _ & _ & Hcap & Hinv).
    split.
    + intros fuel ops.
      rewrite (droFacts.run_refines T_default padding Hp fuel ops _ Hinv).
      cbn [dro.h_queue]. rewrite Hcap, Hq0. reflexivity.
    + intros fuel ops h Hrun.
      destruct (droFacts.run_fifo T_default padding Hp fuel ops _ _ Hinv Hrun)
        as (_ & _ & Hfifo).
      split; [exact Hfifo|]. apply (FifoFacts.all_delivered _ _ _ Hfifo).
  - intros a R Hring. split_and!.
    + intros fuel ops s Hops Hrun.
      apply (FastQueueFacts.ring_run_refines R Hring a fuel ops _ []);
        try assumption.
      * apply FastQueueFacts.holds_init. assumption.
      * destruct a; reflexivity.
    + intros fuel ops Hops Hrun.
      apply (FastQueueFacts.ring_run_waits R Hring fuel ops _ []);
        try assumption.
      * apply (FastQueueFacts.holds_init R Hring FastQueueSpec.x86_64).
      * reflexivity.
    + intros fuel ops h Hops Hrun.
      destruct (FastQueueFacts.ring_run_fifo R Hring a fuel ops _ _
                  (FastQueueFacts.ring_fifo_inv_init R Hring a) Hops Hrun)
        as (pending & Hh & _ & Hfifo).
      split; [exists pending; split; assumption|].
      apply (FifoFacts.all_delivered _ _ _ Hfifo).
  - intros A bound ops s Hb Hrun.
    destruct (FifoFacts.run_in_order bound ops Fifo.empty s) as [Hfifo Hlen];
      [split; [reflexivity|simpl; lia]|exact Hrun|].
    split_and!; [exact Hfifo|exact Hlen|].
    apply (FifoFacts.all_delivered _ _ _ Hfifo).
Qed.

Lemma C5_witness :
  (exists h,
      dro.run 0 1 2 [dro.Push 1; dro.TryPush 2; dro.Pop; dro.Push 3;
                     dro.TryPush 4; dro.TryPop; dro.Pop; dro.TryPop]
        (dro.mkHistory (droFacts.fresh 0 1 2) [] []) = Some h
      /\ Fifo.dro_state 0 1 h = Fifo.mkState [] [1; 2; 3] [1; 2; 3])
  /\ (forall a, exists h,
         FastQueueSpec.run a 1 1
           [FastQueueData.Push 5; FastQueueData.Push 6; FastQueueData.Pop;
            FastQueueData.Push 7; FastQueueData.Pop; FastQueueData.Pop]
           (FastQueueData.mkHistory (FastQueueSpec.init a 1) [] [])
         = Some h
         /\ FastQueueSpec.holds 1 (FastQueueData.h_queue h) []
         /\ FastQueueData.h_pushed h = [5; 6; 7]
         /\ FastQueueData.h_popped h = [5; 6; 7]).
Proof.
  split.
  - pose proof (proj1 (proj1 C5_fifo_delivery Z 0 1 2 [] (droFacts.fresh 0 1 2)
                         ltac:(unfold MAX_SIZE_T; lia)
                         ltac:(unfold MAX_SIZE_T; lia) eq_refl) 0%nat
                  [dro.Push 1; dro.TryPush 2; dro.Pop; dro.Push 3;
                   dro.TryPush 4; dro.TryPop; dro.Pop; dro.TryPop]) as H.
    destruct (dro.run 0 1 2 _ _) as [h|]; [|discriminate].
    exists h. split; [reflexivity|].
    change (Fifo.run _ _ _)
      with (Some (Fifo.mkState (A:=Z) [] [1; 2; 3] [1; 2; 3])) in H.
    injection H as Hpending Hpushed Hpopped.
    unfold Fifo.dro_state. rewrite Hpending, Hpushed, Hpopped. reflexivity.
  - intros a.
    exact (proj1 (proj1 (proj2 C5_fifo_delivery) a 1
                    ltac:(split; [unfold MAX_SIZE_T; lia|reflexivity])) 0%nat
             [FastQueueData.Push 5; FastQueueData.Push 6; FastQueueData.Pop;
              FastQueueData.Push 7; FastQueueData.Pop; FastQueueData.Pop]
             (Fifo.mkState [] [5; 6; 7] [5; 6; 7])
             ltac:(repeat constructor; discriminate) eq_refl).
Defined.

(** * Further properties of the code *)

(** ** The index-tracked queue: construction *)

Module droMore.
Import dro droFacts.

(** Runs that may also use [force_push]. *)
Inductive any_op (T : Type) : Type :=
| Checked (o : op T)
| ForcePush (val : T).

Arguments Checked {T} o.
Arguments ForcePush {T} val.

Section SPSC.
Context {T : Type}.
Variable T_default : T.
Variable padding : Z.

Definition step_any (fuel : nat) (o : any_op T) (h : history T)
  : option (history T) :=
  match o with
  | Checked o' => step T_default padding fuel o' h
  | ForcePush val =>
      Some (mkHistory (force_push val (h_queue h)) (h_pushed h ++ [val])
              (h_popped h))
  end.

Fixpoint run_any (fuel : nat) (ops : list (any_op T)) (h : history T)
  : option (history T) :=
  match ops with
  | [] => Some h
  | o :: ops' =>
      match step_any fuel o h with
      | None => None
      | Some h' => run_any fuel ops' h'
      end
  end.

(** The states of a queue heap-constructed with [capacity]: after a run
    without [force_push], and after any run. *)
Definition reached (capacity : Z) (q : SPSCQueue T) : Prop :=
  exists q0 fuel ops h,
    1 <= capacity < MAX_SIZE_T
    /\ SPSCQueue_ctor T_default padding 0 capacity [] = inr q0
    /\ run T_default padding fuel ops (mkHistory q0 [] []) = Some h
    /\ q = h_queue h.

Definition reached_any (capacity : Z) (q : SPSCQueue T) : Prop :=
  exists q0 fuel ops h,
    1 <= capacity < MAX_SIZE_T
    /\ SPSCQueue_ctor T_default padding 0 capacity [] = inr q0
    /\ run_any fuel ops (mkHistory q0 [] []) = Some h
    /\ q = h_queue h.

(** The padding elements in front of and behind the live slots. *)
Definition front_padding (q : SPSCQueue T) : list T :=
  take (Z.to_nat padding) (buffer_ q).

Definition back_padding (q : SPSCQueue T) : list T :=
  drop (Z.to_nat (capacity_ q + padding)) (buffer_ q).

Hypothesis Hpadding : 0 < padding /\ 2 * padding <= MAX_SIZE_T.

Lemma reached_inv (capacity : Z) (q : SPSCQueue T) :
  reached capacity q ->
  wf padding q /\ shadows_ok q /\ dro.capacity q = capacity.
Proof.
  intros (q0 & fuel & ops & h & Hc & Hctor & Hrun & ->).
  destruct (constructed T_default padding capacity [] q0 Hpadding Hc Hctor)
    as (_ & _ & _ & _ & Hcap & Hinv).
  destruct (run_fifo T_default padding Hpadding fuel ops _ _ Hinv Hrun)
    as (Hwf & Hs & _).
  split_and!; try assumption.
  unfold dro.capacity in *.
  rewrite (run_capacity T_default padding fuel ops _ _ Hrun). exact Hcap.
Qed.

(** What every operation, [force_push] too, keeps. *)
Definition safe (capacity : Z) (q : SPSCQueue T) : Prop :=
  wf padding q
  /\ capacity_ q = capacity + 1
  /\ front_padding q = replicate (Z.to_nat padding) T_default
  /\ back_padding q = replicate (Z.to_nat padding) T_default.

Lemma safe_fresh (c : Z) :
  1 <= c -> c + 1 + 2 * padding <= MAX_SIZE_T ->
  safe c (fresh T_default padding c).
Proof.
  intros Hc Hfit. split_and!.
  - apply wf_fresh; assumption.
  - reflexivity.
  - unfold front_padding. simpl. rewrite take_replicate. f_equal. lia.
  - unfold back_padding. simpl. rewrite drop_replicate. f_equal. lia.
Qed.

Lemma safe_same_buffer (c : Z) (q q' : SPSCQueue T) :
  safe c q -> wf padding q' ->
  capacity_ q' = capacity_ q -> buffer_ q' = buffer_ q ->
  safe c q'.
Proof.
  intros (Hwf & Hcap & Hf & Hb) Hwf' Hc Hbuf.
  unfold safe, front_padding, back_padding in *.
  rewrite Hc, Hbuf. auto.
Qed.

Lemma safe_force_emplace (c : Z) (val : T) (q : SPSCQueue T) :
  safe c q -> safe c (force_emplace val q).
Proof.
  intros (Hwf & Hcap & Hf & Hb).
  pose proof (wf_writeIndex _ _ Hwf) as Hw.
  destruct (index_in_range padding q (writeIndex_ q) Hwf Hw) as [Hwrap Hin].
  split_and!.
  - apply wf_force_emplace. assumption.
  - exact Hcap.
  - unfold front_padding, force_emplace, write_value in *. fields.
    rewrite (wf_paddingCache _ _ Hwf), Hwrap.
    rewrite take_insert_ge by lia. exact Hf.
  - unfold back_padding, force_emplace, write_value in *. fields.
    rewrite (wf_paddingCache _ _ Hwf), Hwrap.
    rewrite drop_insert_lt by lia. exact Hb.
Qed.

Lemma safe_refresh_readIndexCache (c : Z) (q : SPSCQueue T) :
  safe c q -> safe c (refresh_readIndexCache q).
Proof.
  intros Hs. apply (safe_same_buffer c q); try reflexivity; [assumption|].
  apply wf_refresh_readIndexCache, Hs.
Qed.

Lemma safe_refresh_writeIndexCache (c : Z) (q : SPSCQueue T) :
  safe c q -> safe c (refresh_writeIndexCache q).
Proof.
  intros Hs. apply (safe_same_buffer c q); try reflexivity; [assumption|].
  apply wf_refresh_writeIndexCache, Hs.
Qed.

Lemma safe_advance_read (c : Z) (q : SPSCQueue T) :
  safe c q -> safe c (advance_read q).
Proof.
  intros Hs. apply (safe_same_buffer c q); try reflexivity; [assumption|].
  apply wf_advance_read, Hs.
Qed.

Lemma safe_try_emplace (c : Z) (val : T) (q : SPSCQueue T) :
  safe c q -> safe c (snd (try_emplace val q)).
Proof.
  intros Hs. rewrite try_emplace_cases. cbv zeta.
  repeat match goal with
         | |- context [Z.eqb ?a ?b] => destruct (Z.eqb a b)
         end; simpl;
    auto using safe_force_emplace, safe_refresh_readIndexCache.
Qed.

Lemma safe_try_pop (c : Z) (q : SPSCQueue T) :
  safe c q -> safe c (snd (try_pop T_default padding q)).
Proof.
  intros Hs. rewrite try_pop_cases.
  repeat match goal with
         | |- context [Z.eqb ?a ?b] => destruct (Z.eqb a b)
         end; simpl;
    auto using safe_advance_read, safe_refresh_writeIndexCache.
Qed.

Lemma step_any_safe (c : Z) (fuel : nat) (o : any_op T) (h h' : history T) :
  safe c (h_queue h) -> step_any fuel o h = Some h' -> safe c (h_queue h').
Proof.
  intros Hs. destruct o as [[val|val| |]|val]; simpl.
  - destruct (push fuel val (h_queue h)) as [q'|] eqn:Hpush; [|discriminate].
    apply emplace_some in Hpush. intros H; inversion H; subst h'. simpl.
    pose proof (safe_try_emplace c val _ Hs) as Hs'. rewrite Hpush in Hs'. exact Hs'.
  - pose proof (safe_try_emplace c val _ Hs) as Hs'. unfold try_push.
    destruct (try_emplace val (h_queue h)) as [[|] q'];
      intros H; inversion H; subst h'; exact Hs'.
  - destruct (pop T_default padding fuel (h_queue h)) as [[val q']|] eqn:Hpop;
      [|discriminate].
    apply pop_some in Hpop. intros H; inversion H; subst h'. simpl.
    pose proof (safe_try_pop c _ Hs) as Hs'. rewrite Hpop in Hs'. exact Hs'.
  - pose proof (safe_try_pop c _ Hs) as Hs'.
    destruct (try_pop T_default padding (h_queue h)) as [[val|] q'];
      intros H; inversion H; subst h'; exact Hs'.
  - intros H; inversion H; subst h'. simpl. apply safe_force_emplace. exact Hs.
Qed.

Lemma run_any_safe (c : Z) (fuel : nat) (ops : list (any_op T)) :
  forall h h' : history T,
    safe c (h_queue h) -> run_any fuel ops h = Some h' -> safe c (h_queue h').
Proof.
  induction ops as [|o ops IH]; intros h h' Hs Hrun; simpl in Hrun.
  - inversion Hrun; subst. exact Hs.
  - destruct (step_any fuel o h) as [h1|] eqn:Hstep; [|discriminate].
    eapply IH; [|eassumption]. eapply step_any_safe; eassumption.
Qed.

Lemma reached_any_safe (capacity : Z) (q : SPSCQueue T) :
  reached_any capacity q -> safe capacity q.
Proof.
  intros (q0 & fuel & ops & h & Hc & Hctor & Hrun & ->).
  destruct (ctor_heap T_default padding Hpadding capacity [] q0 Hc Hctor) as [Hfit ->].
  eapply run_any_safe; [|eassumption]. simpl.
  apply safe_fresh; lia.
Qed.

End SPSC.
End droMore.

Section IndexTrackedExtras.
Import dro droFacts droMore.

Lemma padding_range (cacheLineSize sizeof_T : Z) :
  1 <= sizeof_T -> 1 <= cacheLineSize ->
  1 <= details.padding cacheLineSize sizeof_T <= cacheLineSize.
Proof.
  intros Hs Hc. unfold details.padding.
  pose proof (Z.div_pos (cacheLineSize - 1) sizeof_T ltac:(lia) ltac:(lia)).
  assert ((cacheLineSize - 1) / sizeof_T <= cacheLineSize - 1)
    by (apply Z.div_le_upper_bound; nia).
  lia.
Qed.

(** X1.  The heap constructor throws [std::logic_error] exactly for the
    capacity 0 (the only [std::size_t] below 1); every other capacity gets
    past that test, to the overflow test or to a queue. *)
Theorem X1_logic_error_iff_capacity_zero {T : Type} (T_default : T)
    (padding capacity : Z) (storage : list T) :
  0 <= capacity <= MAX_SIZE_T ->
  (SPSCQueue_ctor T_default padding 0 capacity storage = inl details.logic_error
   <-> capacity = 0).
Proof.
  intros Hc. unfold SPSCQueue_ctor, HeapBuffer. rewrite Z.eqb_refl.
  destruct (Z.ltb_spec capacity 1) as [Hlt|Hge].
  - split; [lia|reflexivity].
  - split; [|lia].
    destruct (_ >? _); discriminate.
Qed.

Lemma X1_witness :
  SPSCQueue_ctor 0 8 0 0 [] = inl details.logic_error <-> 0 = 0.
Proof.
  apply (X1_logic_error_iff_capacity_zero 0 8 0 []). unfold MAX_SIZE_T. lia.
Defined.

(** X3.  [padding] is the number of elements that cover one cache line,
    rounded up: [padding - 1] elements fall short of a line, [padding]
    elements reach it. *)
Theorem X3_padding_is_ceiling (cacheLineSize sizeof_T : Z) :
  1 <= sizeof_T -> 1 <= cacheLineSize ->
  (details.padding cacheLineSize sizeof_T - 1) * sizeof_T < cacheLineSize
  /\ cacheLineSize <= details.padding cacheLineSize sizeof_T * sizeof_T
  /\ 1 <= details.padding cacheLineSize sizeof_T <= cacheLineSize.
Proof.
  intros Hs Hc. unfold details.padding.
  pose proof (Z.div_mod (cacheLineSize - 1) sizeof_T ltac:(lia)) as Hdm.
  pose proof (Z.mod_pos_bound (cacheLineSize - 1) sizeof_T ltac:(lia)) as Hm.
  pose proof (Z.div_pos (cacheLineSize - 1) sizeof_T ltac:(lia) ltac:(lia)) as Hq.
  set (d := (cacheLineSize - 1) / sizeof_T) in *.
  split_and!; nia.
Qed.

Lemma X3_witness :
  (details.padding 64 24 - 1) * 24 < 64
  /\ 64 <= details.padding 64 24 * 24
  /\ 1 <= details.padding 64 24 <= 64.
Proof. apply (X3_padding_is_ceiling 64 24); lia. Defined.

(** X2.  The stack variant ([N >= 1] within [MAX_STACK_SIZE]), whose array
    is left uninitialised.  Its constructor throws [std::invalid_argument]
    exactly when a non-zero capacity is passed.  With the capacity omitted
    (0) it builds, over whatever the array holds, an empty queue of
    capacity [N] that leaves the array as it found it and from then on
    does what the queue of the specification does with bound [N]: with
    fuel for the refresh of a shadow and one more test a run returns
    exactly when the specification admits it, with the specification's
    enqueued, dequeued and held elements.  So no [pop] hands out an element
    of the uninitialised array. *)
Theorem X2_stack_queue_over_uninitialised_array {T : Type} (T_default : T)
    (cacheLineSize sizeof_T N : Z) (storage : list T) :
  1 <= sizeof_T -> 1 <= cacheLineSize <= 2 ^ 32 ->
  1 <= N -> details.MAX_STACK_SIZE sizeof_T N = true ->
  Z.of_nat (length storage) = N + 1 + 2 * details.padding cacheLineSize sizeof_T ->
  (forall capacity,
      SPSCQueue_ctor T_default (details.padding cacheLineSize sizeof_T) N capacity
        storage
      = inl details.invalid_argument <-> capacity <> 0)
  /\ exists q,
       SPSCQueue_ctor T_default (details.padding cacheLineSize sizeof_T) N 0 storage
       = inr q
       /\ buffer_ q = storage
       /\ dro.capacity q = N /\ empty q = true /\ size q = 0
       /\ forall (fuel : nat) (ops : list (op T)),
           option_map
             (Fifo.dro_state T_default (details.padding cacheLineSize sizeof_T))
             (run T_default (details.padding cacheLineSize sizeof_T) (S (S fuel))
                ops (mkHistory q [] []))
           = Fifo.run N (map Fifo.of_dro ops) Fifo.empty.
Proof.
  intros Hs Hc HN Hstack Hlen.
  pose proof (padding_range cacheLineSize sizeof_T Hs ltac:(lia)) as Hp.
  set (padding := details.padding cacheLineSize sizeof_T) in *.
  assert (Hpad : 0 < padding /\ 2 * padding <= MAX_SIZE_T)
    by (unfold MAX_SIZE_T; lia).
  assert (HNmax : N <= details.MAX_BYTES_ON_STACK).
  { unfold details.MAX_STACK_SIZE in Hstack. apply Z.leb_le in Hstack.
    assert (details.MAX_BYTES_ON_STACK / sizeof_T <= details.MAX_BYTES_ON_STACK)
      by (apply Z.div_le_upper_bound; unfold details.MAX_BYTES_ON_STACK; nia).
    lia. }
  unfold details.MAX_BYTES_ON_STACK in HNmax.
  assert (Hfit : N + 1 + 2 * padding <= MAX_SIZE_T) by (unfold MAX_SIZE_T; lia).
  assert (HN0 : (N =? 0) = false) by (apply Z.eqb_neq; lia).
  pose proof (fifo_inv_on_storage T_default padding Hpad N storage HN Hfit Hlen)
    as Hinv.
  split.
  - intros capacity. unfold SPSCQueue_ctor, StackBuffer. rewrite HN0.
    destruct (Z.eqb_spec capacity 0); simpl; split; intros; try lia;
      try discriminate; reflexivity.
  - exists (on_storage padding N storage). split_and!.
    + unfold SPSCQueue_ctor, StackBuffer. rewrite HN0. simpl.
      rewrite (wrap64_small (N + 1)) by lia. reflexivity.
    + reflexivity.
    + rewrite (capacity_wf padding) by apply Hinv. simpl. lia.
    + reflexivity.
    + reflexivity.
    + intros fuel ops.
      rewrite (run_refines T_default padding Hpad fuel ops _ Hinv).
      cbn [h_queue]. rewrite (capacity_wf padding) by apply Hinv. simpl.
      replace (N + 1 - 1) with N by lia. reflexivity.
Qed.

Lemma X2_witness :
  (forall capacity,
      SPSCQueue_ctor 0 (details.padding 64 8) 1 capacity
        (replicate 18 (-6148914691236517206))
      = inl details.invalid_argument <-> capacity <> 0)
  /\ exists q,
       SPSCQueue_ctor 0 (details.padding 64 8) 1 0
         (replicate 18 (-6148914691236517206))
       = inr q
       /\ buffer_ q = replicate 18 (-6148914691236517206)
       /\ dro.capacity q = 1 /\ empty q = true /\ size q = 0
       /\ forall (fuel : nat) (ops : list (op Z)),
           option_map (Fifo.dro_state 0 (details.padding 64 8))
             (run 0 (details.padding 64 8) (S (S fuel)) ops (mkHistory q [] []))
           = Fifo.run 1 (map Fifo.of_dro ops) Fifo.empty.
Proof.
  apply (X2_stack_queue_over_uninitialised_array 0 64 8 1
           (replicate 18 (-6148914691236517206))); try lia; reflexivity.
Defined.

(** X10.  In every state, the blocking calls are the non-blocking ones
    retried: with fuel for the refresh and one more test [push] returns
    exactly when [try_push] returns [true], with the same queue, and [pop]
    exactly when [try_pop] returns [true], with the same value and queue;
    with any fuel, a blocking call that returns did what its non-blocking
    form does. *)
Theorem X10_blocking_calls_are_try_calls_retried {T : Type} (T_default : T)
    (padding : Z) (fuel : nat) (val : T) (q : SPSCQueue T) :
  push (S (S fuel)) val q
  = (if fst (try_push val q) then Some (snd (try_push val q)) else None)
  /\ pop T_default padding (S (S fuel)) q
     = match fst (try_pop T_default padding q) with
       | Some v => Some (v, snd (try_pop T_default padding q))
       | None => None
       end
  /\ (forall q', push fuel val q = Some q' -> try_push val q = (true, q'))
  /\ (forall v q', pop T_default padding fuel q = Some (v, q') ->
        try_pop T_default padding q = (Some v, q')).
Proof.
  split_and!.
  - unfold push, try_push. rewrite emplace_try.
    destruct (try_emplace val q) as [[|] q']; reflexivity.
  - rewrite pop_try.
    destruct (try_pop T_default padding q) as [[v|] q']; reflexivity.
  - intros q'. apply emplace_some.
  - intros v q'. apply pop_some.
Qed.

Section Reached.
Context {T : Type}.
Variable T_default : T.
Variable padding : Z.
Hypothesis Hpadding : 0 < padding /\ 2 * padding <= MAX_SIZE_T.

(** X4.  Round trip.  In a state reached without [force_push], on a queue
    that is not full, [push(x)] returns and the following [pop] returns the
    oldest unread element: [x] itself when the queue was empty, which the
    [pop] then leaves empty again. *)
Theorem X4_push_then_pop (capacity : Z) (q : SPSCQueue T) (x : T)
    (fuel fuel' : nat) :
  reached T_default padding capacity q ->
  full q = false ->
  exists q1 q2,
    push (S (S fuel)) x q = Some q1
    /\ pop T_default padding (S (S fuel')) q1
       = Some (hd x (contents T_default padding q), q2)
    /\ contents T_default padding q2
       = tl (contents T_default padding q ++ [x])
    /\ (empty q = true -> empty q2 = true).
Proof.
  intros Hreach Hroom.
  destruct (reached_inv T_default padding Hpadding capacity q Hreach)
    as (Hwf & Hs & _).
  destruct (try_emplace_room T_default padding Hpadding x q Hwf Hs Hroom)
    as (q1 & Hpush & Hwf1 & Hs1 & Hc1 & _).
  assert (Hne1 : empty q1 = false).
  { destruct (empty q1) eqn:E; [|reflexivity].
    apply (empty_size padding) in E; [|assumption].
    pose proof (length_contents T_default padding q1 Hwf1) as Hl.
    rewrite Hc1, length_app in Hl. simpl in Hl. lia. }
  destruct (try_pop_nonempty T_default padding q1 Hwf1 Hs1 Hne1)
    as (q2 & Hpop & Hwf2 & Hs2 & Hc2 & _).
  exists q1, q2. split_and!.
  - unfold push. rewrite emplace_try, Hpush. reflexivity.
  - rewrite pop_try, Hpop. f_equal. f_equal.
    rewrite Hc1 in Hc2.
    destruct (contents T_default padding q) as [|old rest];
      simpl in *; congruence.
  - rewrite <- Hc1, Hc2. reflexivity.
  - intros Hempty. apply (empty_size padding); [assumption|].
    apply (empty_size padding) in Hempty; [|assumption].
    pose proof (length_contents T_default padding q Hwf) as Hl.
    pose proof (length_contents T_default padding q2 Hwf2) as Hl2.
    pose proof (f_equal length Hc1) as Hl1. rewrite Hc2, length_app in Hl1.
    simpl in Hl1. lia.
Qed.

(** X5.  In a state reached without [force_push], [try_pop] on an empty
    queue returns [false] and changes nothing but the consumer's shadow
    [writeIndexCache_], which it sets to the write index: both indices and
    every slot keep their values. *)
Theorem X5_try_pop_empty_changes_shadow_only (capacity : Z) (q : SPSCQueue T) :
  reached T_default padding capacity q ->
  empty q = true ->
  try_pop T_default padding q = (None, set_writeIndexCache_ (writeIndex_ q) q).
Proof.
  intros Hreach Hempty.
  destruct (reached_inv T_default padding Hpadding capacity q Hreach)
    as (Hwf & Hs & _).
  apply (try_pop_empty T_default padding q Hwf Hs Hempty).
Qed.

(** X6.  In a state reached without [force_push], the blocking [push]
    spins exactly when the queue is full and the blocking [pop] exactly when
    it is empty: otherwise each returns once its shadow is refreshed. *)
Theorem X6_blocking_calls_block_when_full_or_empty (capacity : Z)
    (q : SPSCQueue T) (val : T) :
  reached T_default padding capacity q ->
  (full q = true -> forall fuel, push fuel val q = None)
  /\ (full q = false -> forall fuel, exists q', push (S (S fuel)) val q = Some q')
  /\ (empty q = true -> forall fuel, pop T_default padding fuel q = None)
  /\ (empty q = false ->
      forall fuel, exists v q', pop T_default padding (S (S fuel)) q = Some (v, q')).
Proof.
  intros Hreach.
  destruct (reached_inv T_default padding Hpadding capacity q Hreach)
    as (Hwf & Hs & _).
  split_and!.
  - intros Hfull fuel. destruct (push fuel val q) as [q'|] eqn:Hpush; [|reflexivity].
    apply emplace_some in Hpush.
    rewrite (try_emplace_full padding val q Hwf Hs Hfull) in Hpush. discriminate.
  - intros Hroom fuel.
    destruct (try_emplace_room T_default padding Hpadding val q Hwf Hs Hroom)
      as (q1 & Hpush & _).
    exists q1. unfold push. rewrite emplace_try, Hpush. reflexivity.
  - intros Hempty fuel.
    destruct (pop T_default padding fuel q) as [[v q']|] eqn:Hpop; [|reflexivity].
    apply pop_some in Hpop.
    rewrite (try_pop_empty T_default padding q Hwf Hs Hempty) in Hpop. discriminate.
  - intros Hne fuel.
    destruct (try_pop_nonempty T_default padding q Hwf Hs Hne) as (q1 & Hpop & _).
    eexists. exists q1. rewrite pop_try, Hpop. reflexivity.
Qed.

(** X7.  In every state reached from construction, [force_push] included,
    [capacity()] is the requested capacity, [size()] is the distance from
    the read index to the write index around the ring of [capacity() + 1]
    slots, that is their difference modulo [capacity() + 1], and lies
    between 0 and [capacity()]; [empty()] holds exactly when it is 0 and
    the queue is full exactly when it is [capacity()]. *)
Theorem X7_size_empty_capacity_agree (capacity : Z) (q : SPSCQueue T) :
  reached_any T_default padding capacity q ->
  dro.capacity q = capacity
  /\ size q = (writeIndex_ q - readIndex_ q) mod (capacity + 1)
  /\ 0 <= size q <= dro.capacity q
  /\ (empty q = true <-> size q = 0)
  /\ (full q = true <-> size q = dro.capacity q).
Proof.
  intros Hreach.
  destruct (reached_any_safe T_default padding Hpadding capacity q Hreach)
    as (Hwf & Hcap & _).
  pose proof (size_range padding q Hwf) as Hsz.
  pose proof (capacity_wf padding q Hwf) as Hc.
  split_and!; try lia.
  - rewrite (size_wf padding q Hwf), <- Hcap. unfold distance.
    pose proof (wf_writeIndex _ _ Hwf) as Hw.
    pose proof (wf_readIndex _ _ Hwf) as Hr.
    destruct (Z.geb_spec (writeIndex_ q) (readIndex_ q)).
    + symmetry. apply Z.mod_small. lia.
    + apply (Z.mod_unique _ _ (-1)); lia.
  - apply (empty_size padding). assumption.
  - apply (full_size padding). assumption.
Qed.

(** X8.  Memory safety.  In every state reached from construction,
    [force_push] included, the vector keeps its [capacity + 1 + 2 * padding]
    elements, both indices stay below [capacity + 1], so that every access
    [buffer_[index + padding]] is inside the vector, and the [padding]
    elements in front of and behind the live slots still hold their initial
    value: no operation ever writes there. *)
Theorem X8_operations_stay_inside_the_live_slots (capacity : Z)
    (q : SPSCQueue T) :
  reached_any T_default padding capacity q ->
  Z.of_nat (length (buffer_ q)) = capacity + 1 + 2 * padding
  /\ 0 <= writeIndex_ q < capacity + 1
  /\ 0 <= readIndex_ q < capacity + 1
  /\ (forall index, 0 <= index < capacity + 1 ->
        padding <= wrap64 (index + padding) < padding + capacity + 1
        /\ (Z.to_nat (wrap64 (index + padding)) < length (buffer_ q))%nat)
  /\ front_padding padding q = replicate (Z.to_nat padding) T_default
  /\ back_padding padding q = replicate (Z.to_nat padding) T_default.
Proof.
  intros Hreach.
  destruct (reached_any_safe T_default padding Hpadding capacity q Hreach)
    as (Hwf & Hcap & Hfront & Hback).
  pose proof (wf_buffer _ _ Hwf) as Hlen.
  pose proof (wf_writeIndex _ _ Hwf) as Hw.
  pose proof (wf_readIndex _ _ Hwf) as Hr.
  rewrite Hcap in *.
  split_and!; try lia; try assumption.
  intros index Hi.
  destruct (index_in_range padding q index Hwf) as [Hwrap Hin]; [lia|].
  rewrite Hwrap. split; [lia|exact Hin].
Qed.


End Reached.

(** A queue of capacity 2 after [push(1)], [try_push(2)], [pop]: the
    states the witnesses below use. *)
Definition sample_ops : list (op Z) := [Push 1; TryPush 2; Pop].

Definition sample_queue : SPSCQueue Z :=
  Eval vm_compute in
    match run 0 1 2 sample_ops (mkHistory (fresh 0 1 2) [] []) with
    | Some h => h_queue h
    | None => fresh 0 1 2
    end.

Lemma sample_reached : reached 0 1 2 sample_queue.
Proof.
  exists (fresh 0 1 2), 2%nat, sample_ops. eexists.
  split_and!; [unfold MAX_SIZE_T; lia..|reflexivity|vm_compute; reflexivity|].
  reflexivity.
Qed.

(** The same queue after three [force_push] calls, the last onto a full
    queue. *)
Definition sample_forced : SPSCQueue Z :=
  force_push 3 (force_push 2 (force_push 1 sample_queue)).

Lemma sample_reached_any :
  reached_any 0 1 2 sample_forced.
Proof.
  exists (fresh 0 1 2), 2%nat,
    (map Checked sample_ops ++ [ForcePush 1; ForcePush 2; ForcePush 3]).
  eexists.
  split_and!; [unfold MAX_SIZE_T; lia..|reflexivity|vm_compute; reflexivity|].
  reflexivity.
Qed.

Lemma sample_padding : 0 < 1 /\ 2 * 1 <= MAX_SIZE_T.
Proof. unfold MAX_SIZE_T. lia. Qed.

Lemma X4_witness :
  exists q1 q2,
    push 2 7 sample_queue = Some q1
    /\ pop 0 1 2 q1 = Some (hd 7 (contents 0 1 sample_queue), q2)
    /\ contents 0 1 q2 = tl (contents 0 1 sample_queue ++ [7])
    /\ (empty sample_queue = true -> empty q2 = true).
Proof.
  exact (X4_push_then_pop 0 1 sample_padding 2 sample_queue 7 0 0
           sample_reached eq_refl).
Defined.

Lemma X5_witness :
  try_pop 0 1 (fresh 0 1 2)
  = (None, set_writeIndexCache_ (writeIndex_ (fresh 0 1 2)) (fresh 0 1 2)).
Proof.
  refine (X5_try_pop_empty_changes_shadow_only 0 1 sample_padding 2
            (fresh 0 1 2) _ eq_refl).
  exists (fresh 0 1 2), 0%nat, [], (mkHistory (fresh 0 1 2) [] []).
  split_and!; [unfold MAX_SIZE_T; lia..|reflexivity|reflexivity|reflexivity].
Defined.

Lemma X6_witness :
  (full sample_queue = true -> forall fuel, push fuel 7 sample_queue = None)
  /\ (full sample_queue = false ->
      forall fuel, exists q', push (S (S fuel)) 7 sample_queue = Some q')
  /\ (empty sample_queue = true -> forall fuel, pop 0 1 fuel sample_queue = None)
  /\ (empty sample_queue = false ->
      forall fuel, exists v q', pop 0 1 (S (S fuel)) sample_queue = Some (v, q')).
Proof.
  exact (X6_blocking_calls_block_when_full_or_empty 0 1 sample_padding 2
           sample_queue 7 sample_reached).
Defined.

Lemma X7_witness :
  dro.capacity sample_forced = 2
  /\ size sample_forced
     = (writeIndex_ sample_forced - readIndex_ sample_forced) mod (2 + 1)
  /\ 0 <= size sample_forced <= dro.capacity sample_forced
  /\ (empty sample_forced = true
      <-> size sample_forced = 0)
  /\ (full sample_forced = true
      <-> size sample_forced
          = dro.capacity sample_forced).
Proof.
  exact (X7_size_empty_capacity_agree 0 1 sample_padding 2 _ sample_reached_any).
Defined.

Lemma X8_witness :
  Z.of_nat (length (buffer_ sample_forced))
  = 2 + 1 + 2 * 1
  /\ 0 <= writeIndex_ sample_forced < 2 + 1
  /\ 0 <= readIndex_ sample_forced < 2 + 1
  /\ (forall index, 0 <= index < 2 + 1 ->
        1 <= wrap64 (index + 1) < 1 + 2 + 1
        /\ (Z.to_nat (wrap64 (index + 1))
            < length (buffer_ sample_forced))%nat)
  /\ front_padding 1 sample_forced
     = replicate (Z.to_nat 1) 0
  /\ back_padding 1 sample_forced
     = replicate (Z.to_nat 1) 0.
Proof.
  exact (X8_operations_stay_inside_the_live_slots 0 1 sample_padding 2 _
           sample_reached_any).
Defined.


End IndexTrackedExtras.

(** ** The sentinel-tracked queue: further facts *)

Module FastQueueMore.
Import FastQueueData FastQueueSpec FastQueueFacts.

(** A run of one-bits passes the [static_assert]. *)
Lemma ones_ring_size_ok (k : Z) :
  0 <= k <= 64 -> ring_size_ok (2 ^ k - 1) = true.
Proof.
  intros Hk. unfold ring_size_ok. apply Z.eqb_eq.
  replace (2 ^ k - 1 + 1) with (2 ^ k) by lia.
  destruct (Z.eq_dec k 64) as [->|Hne].
  - reflexivity.
  - assert (2 ^ k < 2 ^ 64) by (apply Z.pow_lt_mono_r; lia).
    assert (0 < 2 ^ k) by (apply Z.pow_pos_nonneg; lia).
    rewrite wrap64_small by (unfold MAX_SIZE_T; lia).
    rewrite Z.land_comm.
    replace (2 ^ k - 1) with (Z.ones k) by (rewrite Z.ones_equiv; lia).
    rewrite Z.land_ones by lia. apply Z.mod_same. lia.
Qed.

(** What a returning [push] or [pop] can have done. *)
Lemma push_some (a : arch) (R : Z) (fuel : nat) (val : T) (q q' : FastQueue) :
  push a R fuel val q = Some q' -> q' = q \/ q' = stored R val q.
Proof.
  rewrite push_arch. unfold FastQueue_x86_64.push.
  destruct (FastQueue_x86_64.push_wait R fuel q) as [[|]|];
    intros H; inversion H; auto.
Qed.

Lemma pop_some_cases (a : arch) (R : Z) (fuel : nat) (q q' : FastQueue) (aOut : T) :
  pop a R fuel q = Some (aOut, q') -> q' = q \/ q' = taken R q.
Proof.
  induction fuel as [|fuel IH]; [destruct a; discriminate|].
  rewrite pop_S. cbv zeta.
  destruct (mObj R (mReadPosition q) q =? 0).
  - destruct (exit_test a q); [|exact IH]. intros H; inversion H; auto.
  - intros H; inversion H; auto.
Qed.

(** Neither touches the shutdown fields. *)
Lemma step_shutdown_fields (a : arch) (R : Z) (fuel : nat) (o : op)
    (h h' : history) :
  step a R fuel o h = Some h' ->
  mExitThread (h_queue h') = mExitThread (h_queue h)
  /\ mExitThreadSemaphore (h_queue h') = mExitThreadSemaphore (h_queue h).
Proof.
  unfold step. destruct o as [val|].
  - destruct (push a R fuel val (h_queue h)) as [q'|] eqn:Hpush; [|discriminate].
    intros H; inversion H; subst h'. simpl.
    destruct (push_some a R fuel val _ _ Hpush) as [->| ->]; auto.
  - destruct (pop a R fuel (h_queue h)) as [[aOut q']|] eqn:Hpop; [|discriminate].
    intros H; inversion H; subst h'. simpl.
    destruct (pop_some_cases a R fuel _ _ _ Hpop) as [->| ->]; auto.
Qed.

Lemma run_shutdown_fields (a : arch) (R : Z) (fuel : nat) (ops : list op) :
  forall h h' : history,
    run a R fuel ops h = Some h' ->
    mExitThread (h_queue h') = mExitThread (h_queue h)
    /\ mExitThreadSemaphore (h_queue h') = mExitThreadSemaphore (h_queue h).
Proof.
  induction ops as [|o ops IH]; intros h h' Hrun; simpl in Hrun.
  - inversion Hrun; auto.
  - destruct (step a R fuel o h) as [h1|] eqn:Hstep; [|discriminate].
    destruct (IH _ _ Hrun) as [He Hs].
    destruct (step_shutdown_fields a R fuel o h h1 Hstep) as [He1 Hs1].
    split; congruence.
Qed.

End FastQueueMore.

Section SentinelTrackedExtras.
Import FastQueueData FastQueueSpec FastQueueFacts FastQueueMore.

(** X11.  The [static_assert] on [RING_BUFFER_SIZE] accepts exactly the
    64-bit values [2^k - 1], [0 <= k <= 64]: a run of one-bits from the least
    significant bit ([k = 64], all ones, passes because the sum wraps to
    0). *)
Theorem X11_static_assert_accepts_runs_of_ones (RING_BUFFER_SIZE : Z) :
  0 <= RING_BUFFER_SIZE <= MAX_SIZE_T ->
  (ring_size_ok RING_BUFFER_SIZE = true
   <-> exists k, 0 <= k <= 64 /\ RING_BUFFER_SIZE = 2 ^ k - 1).
Proof.
  intros HR. split.
  - intros Hok.
    destruct (Z.eq_dec RING_BUFFER_SIZE MAX_SIZE_T) as [->|Hne].
    + exists 64. split; [lia|reflexivity].
    + destruct (ring_pow2 RING_BUFFER_SIZE) as (k & Hk & _ & Hpow).
      * split; [lia|exact Hok].
      * exists k. split; lia.
  - intros (k & Hk & ->). apply ones_ring_size_ok. exact Hk.
Qed.

Lemma X11_witness :
  ring_size_ok 1023 = true <-> exists k, 0 <= k <= 64 /\ 1023 = 2 ^ k - 1.
Proof.
  apply (X11_static_assert_accepts_runs_of_ones 1023). unfold MAX_SIZE_T. lia.
Defined.

(** X12.  Slot addressing.  For an accepted ring size, [position &
    RING_BUFFER_SIZE] is a slot of the array, and incrementing a position
    in [uint64_t] moves to the cyclically next slot, also when the position
    wraps from [2^64 - 1] to 0. *)
Theorem X12_increment_moves_to_next_slot (RING_BUFFER_SIZE position : Z) :
  ring_ok RING_BUFFER_SIZE ->
  0 <= Z.land position RING_BUFFER_SIZE <= RING_BUFFER_SIZE
  /\ Z.land (wrap64 (position + 1)) RING_BUFFER_SIZE
     = (Z.land position RING_BUFFER_SIZE + 1) mod (RING_BUFFER_SIZE + 1).
Proof.
  intros Hring. split.
  - pose proof (land_range RING_BUFFER_SIZE Hring position). lia.
  - rewrite (land_wrap64 RING_BUFFER_SIZE Hring).
    rewrite !(land_mod RING_BUFFER_SIZE Hring).
    symmetry. apply Zplus_mod_idemp_l.
Qed.

Lemma X12_witness :
  0 <= Z.land MAX_SIZE_T 1023 <= 1023
  /\ Z.land (wrap64 (MAX_SIZE_T + 1)) 1023 = (Z.land MAX_SIZE_T 1023 + 1) mod (1023 + 1).
Proof.
  apply (X12_increment_moves_to_next_slot 1023 MAX_SIZE_T).
  split; [unfold MAX_SIZE_T; lia|reflexivity].
Defined.

(** X13.  Capacity of the ring, both variants.  All [RING_BUFFER_SIZE + 1]
    slots are usable: pushes of non-null values store as long as fewer than
    that many elements are pending.  On the full ring a [push] never returns
    while no shutdown is requested; once it is, [push] returns at once
    leaving the queue as it was, so its value is dropped. *)
Theorem X13_ring_capacity (a : arch) (RING_BUFFER_SIZE : Z) (fuel : nat)
    (q : FastQueue) (pending vals : list T) :
  ring_ok RING_BUFFER_SIZE ->
  holds RING_BUFFER_SIZE q pending ->
  Forall (fun val => val <> nullptr) vals ->
  Z.of_nat (length pending + length vals) = RING_BUFFER_SIZE + 1 ->
  exists q',
    push_all a RING_BUFFER_SIZE (S fuel) vals q = Some q'
    /\ holds RING_BUFFER_SIZE q' (pending ++ vals)
    /\ (mExitThreadSemaphore q' = false ->
        forall fuel' extra, push a RING_BUFFER_SIZE fuel' extra q' = None)
    /\ (mExitThreadSemaphore q' = true ->
        forall fuel' extra, push a RING_BUFFER_SIZE (S fuel') extra q' = Some q').
Proof.
  intros Hring Hh Hnn Hlen.
  destruct (push_all_holds RING_BUFFER_SIZE Hring a fuel vals q pending Hh Hnn)
    as (q' & Hpush & Hh' & _); [lia|].
  assert (Hfull : Z.of_nat (length (pending ++ vals)) = RING_BUFFER_SIZE + 1)
    by (rewrite length_app; lia).
  exists q'. split_and!; try assumption.
  - intros Hs fuel' extra. destruct fuel' as [|fuel'].
    + destruct a; reflexivity.
    + rewrite (push_full RING_BUFFER_SIZE Hring a fuel' q' _ extra Hh' Hfull), Hs.
      reflexivity.
  - intros Hs fuel' extra.
    rewrite (push_full RING_BUFFER_SIZE Hring a fuel' q' _ extra Hh' Hfull), Hs.
    reflexivity.
Qed.

Lemma X13_witness :
  exists q',
    push_all x86_64 3 1 [5; 6; 7; 8] (init x86_64 3) = Some q'
    /\ holds 3 q' ([] ++ [5; 6; 7; 8])
    /\ (mExitThreadSemaphore q' = false ->
        forall fuel' extra, push x86_64 3 fuel' extra q' = None)
    /\ (mExitThreadSemaphore q' = true ->
        forall fuel' extra, push x86_64 3 (S fuel') extra q' = Some q').
Proof.
  assert (Hring : ring_ok 3) by (split; [unfold MAX_SIZE_T; lia|reflexivity]).
  refine (X13_ring_capacity x86_64 3 0 (init x86_64 3) [] [5; 6; 7; 8]
            Hring (holds_init 3 Hring x86_64) _ eq_refl).
  repeat constructor; discriminate.
Defined.

(** X14.  Shutdown at any time, both variants.  Whatever has been pushed
    and popped before, after [stopQueue()] the pops return the pending
    elements in order, then every further pop returns [nullptr] and leaves
    the drained queue as it is. *)
Theorem X14_stopQueue_drains_then_ends (a : arch) (RING_BUFFER_SIZE : Z)
    (fuel : nat) (q : FastQueue) (pending : list T) :
  ring_ok RING_BUFFER_SIZE ->
  holds RING_BUFFER_SIZE q pending ->
  exists q',
    pop_n a RING_BUFFER_SIZE (S fuel) (length pending) (stopQueue a q)
    = Some (pending, q')
    /\ holds RING_BUFFER_SIZE q' []
    /\ forall fuel' n,
         pop_n a RING_BUFFER_SIZE (S fuel') n q' = Some (replicate n nullptr, q').
Proof.
  intros Hring Hh.
  pose proof (holds_stopQueue RING_BUFFER_SIZE a q pending Hh) as Hh0.
  destruct (pop_n_drain RING_BUFFER_SIZE Hring a fuel pending (stopQueue a q) Hh0)
    as (q' & Hdrain & Hh' & Hr' & He' & Hs').
  exists q'. split_and!; try assumption.
  intros fuel' n. apply pop_n_end_of_stream.
  - apply (holds_read_slot RING_BUFFER_SIZE Hring q' [] Hh').
  - apply exit_test_at_marker.
    + rewrite He', Hr'.
      transitivity (mWritePosition (stopQueue a q)); [destruct a; reflexivity|].
      apply (holds_write _ _ _ Hh0).
    + rewrite Hs'. destruct a; reflexivity.
Qed.

Lemma X14_witness :
  exists q',
    pop_n arm64 1 1 (length [6; 7])
      (stopQueue arm64 (mkFastQueue 2 4 0 false [6; 7]))
    = Some ([6; 7], q')
    /\ holds 1 q' []
    /\ forall fuel' n, pop_n arm64 1 (S fuel') n q' = Some (replicate n nullptr, q').
Proof.
  assert (Hring : ring_ok 1) by (split; [unfold MAX_SIZE_T; lia|reflexivity]).
  refine (X14_stopQueue_drains_then_ends arm64 1 0
            (mkFastQueue 2 4 0 false [6; 7]) [6; 7] Hring _).
  constructor; simpl; try reflexivity; try (unfold MAX_SIZE_T; lia).
  - repeat constructor; discriminate.
  - intros [|[|i]] Hi; try reflexivity. lia.
Defined.

(** X15.  End-of-stream without [stopQueue()].  The x86-64 [pop] never
    returns [nullptr] while the shutdown flag is clear.  The arm64 [pop]
    does not read the flag: in a run from the fresh queue, where nothing has
    called [stopQueue()], it can return [nullptr] only with the read position
    at 0, the initial value of the marker, and on an empty slot there it does,
    flag or no flag. *)
Theorem X15_end_of_stream_without_stopQueue (RING_BUFFER_SIZE : Z) :
  (forall fuel q q',
      mExitThreadSemaphore q = false ->
      pop x86_64 RING_BUFFER_SIZE fuel q <> Some (nullptr, q'))
  /\ (forall fuel ops h fuel' q',
         run arm64 RING_BUFFER_SIZE fuel ops
           (mkHistory (init arm64 RING_BUFFER_SIZE) [] []) = Some h ->
         pop arm64 RING_BUFFER_SIZE fuel' (h_queue h) = Some (nullptr, q') ->
         mExitThreadSemaphore (h_queue h) = false
         /\ mReadPosition (h_queue h) = 0)
  /\ (forall fuel q,
         mReadPosition q = 0 -> mExitThread q = 0 ->
         mObj RING_BUFFER_SIZE 0 q = nullptr ->
         pop arm64 RING_BUFFER_SIZE (S fuel) q = Some (nullptr, q)).
Proof.
  split_and!.
  - intros fuel q q' Hs Hpop.
    destruct (pop_nullptr_inv RING_BUFFER_SIZE x86_64 fuel q q' Hpop)
      as (_ & _ & Hexit).
    simpl in Hexit. rewrite Hs, andb_false_r in Hexit. discriminate.
  - intros fuel ops h fuel' q' Hrun Hpop.
    destruct (run_shutdown_fields arm64 RING_BUFFER_SIZE fuel ops _ _ Hrun)
      as [He Hs]. simpl in He, Hs.
    destruct (pop_nullptr_inv RING_BUFFER_SIZE arm64 fuel' _ q' Hpop)
      as (_ & _ & Hexit).
    simpl in Hexit. apply Z.eqb_eq in Hexit. split; congruence.
  - intros fuel q Hr He Hslot. apply pop_end_of_stream.
    + rewrite Hr. exact Hslot.
    + simpl. rewrite Hr, He. reflexivity.
Qed.

(** X16.  Pushing the sentinel.  On an empty ring of at least two slots,
    [push(nullptr)] stores nothing yet advances the write position; the next
    [push(val)] then stores [val] one slot ahead of the read position, where
    [pop] does not look: with no end-of-stream due, [pop] never returns and
    [val] is never delivered. *)
Theorem X16_pushing_nullptr_strands_the_next_element (a : arch)
    (RING_BUFFER_SIZE : Z) (fuel : nat) (q : FastQueue) (val : T) :
  ring_ok RING_BUFFER_SIZE ->
  1 <= RING_BUFFER_SIZE ->
  holds RING_BUFFER_SIZE q [] ->
  exit_test a q = false ->
  val <> nullptr ->
  exists q1 q2,
    push a RING_BUFFER_SIZE (S fuel) nullptr q = Some q1
    /\ mRingBuffer q1 = mRingBuffer q
    /\ mWritePosition q1 = wrap64 (mReadPosition q + 1)
    /\ push a RING_BUFFER_SIZE (S fuel) val q1 = Some q2
    /\ mObj RING_BUFFER_SIZE (mReadPosition q2 + 1) q2 = val
    /\ forall fuel', pop a RING_BUFFER_SIZE fuel' q2 = None.
Proof.
  intros Hring HR Hh Hexit Hval.
  pose proof (holds_write _ _ _ Hh) as Hw. simpl in Hw.
  rewrite Z.add_0_r, wrap64_small in Hw by apply (holds_read _ _ _ Hh).
  pose proof (holds_read_slot RING_BUFFER_SIZE Hring q [] Hh) as Hslot0.
  simpl in Hslot0.
  pose proof (holds_slots _ _ _ Hh 1%nat ltac:(lia)) as Hslot1. simpl in Hslot1.
  pose proof (holds_length _ _ _ Hh) as Hlen.
  (* the first push finds the slot free and writes the sentinel over it *)
  assert (Hid : stored RING_BUFFER_SIZE nullptr q
                = set_mWritePosition (wrap64 (mReadPosition q + 1)) q).
  { unfold stored, set_mObj, set_mWritePosition. simpl. rewrite Hw.
    f_equal. apply list_insert_id.
    unfold mObj in Hslot0.
    pose proof (land_range RING_BUFFER_SIZE Hring (mReadPosition q)) as Hrange.
    destruct (mRingBuffer q !! Z.to_nat (Z.land (mReadPosition q) RING_BUFFER_SIZE))
      as [x|] eqn:E.
    - simpl in Hslot0. congruence.
    - apply lookup_ge_None in E. lia. }
  set (q1 := set_mWritePosition (wrap64 (mReadPosition q + 1)) q) in *.
  assert (Hfree1 : mObj RING_BUFFER_SIZE (mWritePosition q1) q1 = nullptr).
  { change (mObj RING_BUFFER_SIZE (wrap64 (mReadPosition q + 1)) q = nullptr).
    rewrite (mObj_wrap64 RING_BUFFER_SIZE Hring). exact Hslot1. }
  set (q2 := stored RING_BUFFER_SIZE val q1).
  assert (Hne : Z.land (mReadPosition q) RING_BUFFER_SIZE
                <> Z.land (wrap64 (mReadPosition q + 1)) RING_BUFFER_SIZE).
  { rewrite (land_wrap64 RING_BUFFER_SIZE Hring). intros Heq.
    replace (mReadPosition q) with (mReadPosition q + 0) in Heq at 1 by lia.
    apply (land_add_inj RING_BUFFER_SIZE Hring) in Heq; lia. }
  exists q1, q2. split_and!.
  - rewrite push_arch. unfold FastQueue_x86_64.push.
    rewrite push_wait_free by (rewrite Hw; exact Hslot0).
    fold (stored RING_BUFFER_SIZE nullptr q). rewrite Hid. reflexivity.
  - reflexivity.
  - reflexivity.
  - rewrite push_arch. unfold FastQueue_x86_64.push.
    rewrite push_wait_free by exact Hfree1. reflexivity.
  - change (mObj RING_BUFFER_SIZE (mReadPosition q + 1)
              (set_mObj RING_BUFFER_SIZE (wrap64 (mReadPosition q + 1)) val q1) = val).
    apply (mObj_set_same RING_BUFFER_SIZE Hring); [exact Hlen|].
    symmetry. apply (land_wrap64 RING_BUFFER_SIZE Hring).
  - intros fuel'. apply pop_spins.
    + change (mObj RING_BUFFER_SIZE (mReadPosition q)
                (set_mObj RING_BUFFER_SIZE (wrap64 (mReadPosition q + 1)) val q1)
              = nullptr).
      rewrite (mObj_set_other RING_BUFFER_SIZE Hring) by exact Hne. exact Hslot0.
    + destruct a; exact Hexit.
Qed.

Lemma X16_witness :
  exists q1 q2,
    push arm64 3 1 nullptr (init arm64 3) = Some q1
    /\ mRingBuffer q1 = mRingBuffer (init arm64 3)
    /\ mWritePosition q1 = wrap64 (mReadPosition (init arm64 3) + 1)
    /\ push arm64 3 1 7 q1 = Some q2
    /\ mObj 3 (mReadPosition q2 + 1) q2 = 7
    /\ forall fuel', pop arm64 3 fuel' q2 = None.
Proof.
  assert (Hring : ring_ok 3) by (split; [unfold MAX_SIZE_T; lia|reflexivity]).
  refine (X16_pushing_nullptr_strands_the_next_element arm64 3 0 (init arm64 3) 7
            Hring _ (holds_init 3 Hring arm64) eq_refl _).
  - lia.
  - discriminate.
Defined.

End SentinelTrackedExtras.

(** ** [src/main.cpp]: the consumer side of the FastQueue benchmark *)

Module Main.
Import FastQueueData FastQueueSpec.

(** [#define QUEUE_MASK 0b1111111111] *)
Definition QUEUE_MASK : Z := 1023.

(** [class MyObject { public: uint64_t mIndex; };] *)
Record MyObject : Type := mkMyObject { mIndex : Z }.

(** What the functions write to [std::cout]. *)
Inductive line : Type :=
| PinCpuFail                               (* "Pin CPU fail. " *)
| QueueItemError (got expected : Z).       (* "Queue item error. got: .. expected: .." *)

(** The queue behind [pQueue], the live [MyObject]s by their address, the
    two globals the consumer updates, and the output so far. *)
Record World : Type := mkWorld {
  w_queue : FastQueue;
  w_heap : gmap Z MyObject;
  gCounter : Z;
  gActiveConsumer : Z;
  w_cout : list line
}.

(** A call returns, is still spinning when the fuel is used up, or has
    dereferenced a pointer to no live object. *)
Inductive outcome (A : Type) : Type :=
| Returns (x : A)
| Spins
| Undefined.

Arguments Returns {A} x.
Arguments Spins {A}.
Arguments Undefined {A}.

(** The [while (true)] loop of [fastQueueConsumer], [iterations] bounding
    the number of times its body runs and [fuel] each [pop]: the final
    [lCounter] and the world. *)
Fixpoint consumer_loop (a : arch) (iterations fuel : nat) (lCounter : Z)
    (w : World) : outcome (Z * World) :=
  match iterations with
  | O => Spins
  | S iterations' =>
      match pop a QUEUE_MASK fuel (w_queue w) with
      | None => Spins
      | Some (pResult, q') =>
          if pResult =? nullptr then
            Returns (lCounter,
                     mkWorld q' (w_heap w) (gCounter w) (gActiveConsumer w)
                       (w_cout w))
          else
            match w_heap w !! pResult with
            | None => Undefined
            | Some obj =>
                let cout' :=
                  if negb (mIndex obj =? lCounter)
                  then w_cout w ++ [QueueItemError (mIndex obj) lCounter]
                  else w_cout w in
                consumer_loop a iterations' fuel (wrap64 (lCounter + 1))
                  (mkWorld q' (delete pResult (w_heap w)) (gCounter w)
                     (gActiveConsumer w) cout')
            end
      end
  end.

(** [fastQueueConsumer(pQueue, aCPU)]; [pinned] is what [pinThread(aCPU)]
    returns. *)
Definition fastQueueConsumer (a : arch) (pinned : bool) (iterations fuel : nat)
    (w : World) : outcome World :=
  if negb pinned then
    Returns (mkWorld (w_queue w) (w_heap w) (gCounter w)
               (wrap64 (gActiveConsumer w - 1)) (w_cout w ++ [PinCpuFail]))
  else
    match consumer_loop a iterations fuel 0 w with
    | Returns (lCounter, w') =>
        Returns (mkWorld (w_queue w') (w_heap w')
                   (wrap64 (gCounter w' + lCounter))
                   (wrap64 (gActiveConsumer w' - 1)) (w_cout w'))
    | Spins => Spins
    | Undefined => Undefined
    end.

(** The error lines for objects received in this order, counting from
    [lCounter]. *)
Fixpoint item_errors (lCounter : Z) (objs : list MyObject) : list line :=
  match objs with
  | [] => []
  | obj :: objs' =>
      (if negb (mIndex obj =? lCounter)
       then [QueueItemError (mIndex obj) lCounter] else [])
      ++ item_errors (wrap64 (lCounter + 1)) objs'
  end.

(** The heap after [delete] of each pointer in turn. *)
Definition delete_all (ptrs : list Z) (heap : gmap Z MyObject) : gmap Z MyObject :=
  fold_left (fun h p => delete p h) ptrs heap.

Section Consumer.
Import FastQueueFacts.

Lemma QUEUE_MASK_ok : ring_ok QUEUE_MASK.
Proof. split; [unfold QUEUE_MASK, MAX_SIZE_T; lia|reflexivity]. Qed.

Lemma live_after_delete (heap : gmap Z MyObject) (p : Z) (ptrs : list Z)
    (objs : list MyObject) :
  Forall2 (fun p' obj => heap !! p' = Some obj) ptrs objs ->
  p ∉ ptrs ->
  Forall2 (fun p' obj => delete p heap !! p' = Some obj) ptrs objs.
Proof.
  induction 1 as [|p' obj ptrs objs Hp' _ IH]; intros Hnotin; constructor.
  - rewrite lookup_delete_ne; [exact Hp'|].
    intros ->. apply Hnotin. left.
  - apply IH. intros Hin. apply Hnotin. right. exact Hin.
Qed.

Lemma wrap64_succ_add (c k : Z) :
  wrap64 (wrap64 (c + 1) + k) = wrap64 (c + (k + 1)).
Proof.
  unfold wrap64. rewrite Zplus_mod_idemp_l. f_equal. lia.
Qed.

(** On a stopped queue the loop takes every pending pointer, frees its
    object and leaves at the marker. *)
Lemma consumer_loop_drains (a : arch) (fuel n : nat) (ptrs : list Z) :
  forall (objs : list MyObject) (q : FastQueue) (heap : gmap Z MyObject)
         (lCounter gC gA : Z) (cout : list line),
    holds QUEUE_MASK q ptrs ->
    mExitThread q = mWritePosition q ->
    mExitThreadSemaphore q = true ->
    NoDup ptrs ->
    Forall2 (fun p obj => heap !! p = Some obj) ptrs objs ->
    0 <= lCounter <= MAX_SIZE_T ->
    exists q',
      consumer_loop a (length ptrs + S n) (S fuel) lCounter
        (mkWorld q heap gC gA cout)
      = Returns (wrap64 (lCounter + Z.of_nat (length ptrs)),
                 mkWorld q' (delete_all ptrs heap) gC gA
                   (cout ++ item_errors lCounter objs))
      /\ holds QUEUE_MASK q' [].
Proof.
  induction ptrs as [|p ptrs IH];
    intros objs q heap lCounter gC gA cout Hh Hmark Hsem Hnodup Hlive Hc.
  - inversion Hlive; subst. exists q. split; [|exact Hh].
    cbn [length Nat.add consumer_loop w_queue].
    rewrite (pop_nothing_pending QUEUE_MASK QUEUE_MASK_ok a fuel q Hh).
    rewrite (exit_test_at_marker a q); [| |exact Hsem].
    + change (nullptr =? nullptr) with true. cbn [w_heap gCounter gActiveConsumer w_cout item_errors].
      rewrite app_nil_r. change (Z.of_nat 0) with 0.
      rewrite Z.add_0_r, wrap64_small by exact Hc. reflexivity.
    + rewrite Hmark, (holds_write _ _ _ Hh). simpl.
      rewrite Z.add_0_r. apply wrap64_small. apply (holds_read _ _ _ Hh).
  - inversion Hlive as [|? obj ? objs' Hp Hlive']; subst.
    apply NoDup_cons in Hnodup as [Hnotin Hnodup].
    assert (Hpnn : p <> nullptr)
      by (pose proof (holds_nonnull _ _ _ Hh) as Hnn; inversion Hnn; assumption).
    destruct (IH objs' (taken QUEUE_MASK q) (delete p heap)
                (wrap64 (lCounter + 1)) gC gA
                (if negb (mIndex obj =? lCounter)
                 then cout ++ [QueueItemError (mIndex obj) lCounter] else cout))
      as (q' & Hloop & Hh').
    + apply (holds_taken QUEUE_MASK QUEUE_MASK_ok q p). exact Hh.
    + exact Hmark.
    + exact Hsem.
    + exact Hnodup.
    + apply live_after_delete; assumption.
    + apply wrap64_range.
    + exists q'. split; [|exact Hh'].
      cbn [length Nat.add consumer_loop w_queue].
      rewrite (pop_pending QUEUE_MASK QUEUE_MASK_ok a fuel q p ptrs Hh).
      destruct (Z.eqb_spec p nullptr) as [|_]; [contradiction|].
      cbn [w_heap gCounter gActiveConsumer w_cout].
      match goal with
      | |- context [match ?l with Some _ => _ | None => _ end] =>
          replace l with (Some obj) by (symmetry; exact Hp)
      end.
      eapply eq_trans; [exact Hloop|]. f_equal. f_equal.
      * rewrite wrap64_succ_add. f_equal. lia.
      * unfold delete_all. simpl. f_equal.
        destruct (negb (mIndex obj =? lCounter)); simpl;
          rewrite <- ?app_assoc; reflexivity.
Qed.

(** Objects that carry their position in the sequence raise no error. *)
Lemma item_errors_in_sequence (objs : list MyObject) :
  forall lCounter,
    0 <= lCounter -> lCounter + Z.of_nat (length objs) <= MAX_SIZE_T + 1 ->
    (forall (i : nat) obj, objs !! i = Some obj -> mIndex obj = lCounter + Z.of_nat i) ->
    item_errors lCounter objs = [].
Proof.
  induction objs as [|obj objs IH]; intros lCounter Hc Hlen Hseq; [reflexivity|].
  cbn [item_errors length] in *.
  rewrite (Hseq 0%nat obj eq_refl), Z.add_0_r, Z.eqb_refl. simpl.
  destruct objs as [|obj1 objs]; [reflexivity|]. cbn [length] in *.
  rewrite wrap64_small by lia. apply IH; cbn [length]; try lia.
  intros i obj' Hi. rewrite (Hseq (S i) obj' Hi). lia.
Qed.

End Consumer.

End Main.

Section MainExtras.
Import FastQueueData FastQueueSpec FastQueueFacts Main.

(** X17.  The consumer of the benchmark, either variant, started with its
    thread pinned on a queue the producer has stopped: with the pending
    pointers distinct and each the address of a live object, it returns
    after one loop round per pointer and one more; it has added their number
    to [gCounter], decremented [gActiveConsumer], deleted every object,
    drained the queue, and printed one error line for each object whose
    [mIndex] is not its position in the sequence: none when the objects are
    numbered 0, 1, 2, ... *)
Theorem X17_consumer_counts_checks_and_frees (a : arch) (fuel n : nat)
    (w : World) (q : FastQueue) (ptrs : list Z) (objs : list MyObject) :
  holds QUEUE_MASK q ptrs ->
  w_queue w = stopQueue a q ->
  NoDup ptrs ->
  Forall2 (fun p obj => w_heap w !! p = Some obj) ptrs objs ->
  exists q',
    fastQueueConsumer a true (length ptrs + S n) (S fuel) w
    = Returns (mkWorld q' (delete_all ptrs (w_heap w))
                 (wrap64 (gCounter w + Z.of_nat (length ptrs)))
                 (wrap64 (gActiveConsumer w - 1))
                 (w_cout w ++ item_errors 0 objs))
    /\ holds QUEUE_MASK q' []
    /\ ((forall (i : nat) obj, objs !! i = Some obj -> mIndex obj = Z.of_nat i) ->
        item_errors 0 objs = []).
Proof.
  intros Hh Hq Hnodup Hlive.
  destruct w as [wq heap gC gA cout]. simpl in *. subst wq.
  pose proof (holds_stopQueue QUEUE_MASK a q ptrs Hh) as Hh0.
  assert (Hlen : Z.of_nat (length ptrs) <= 1024)
    by (pose proof (holds_bound _ _ _ Hh) as Hb; unfold QUEUE_MASK, T in Hb; lia).
  destruct (consumer_loop_drains a fuel n ptrs objs (stopQueue a q) heap 0 gC gA cout
              Hh0 ltac:(destruct a; reflexivity) ltac:(destruct a; reflexivity)
              Hnodup Hlive ltac:(unfold MAX_SIZE_T; lia))
    as (q' & Hloop & Hh').
  exists q'. split_and!.
  - unfold fastQueueConsumer. cbn [negb]. rewrite Hloop.
    cbn [w_queue w_heap gCounter gActiveConsumer w_cout].
    rewrite Z.add_0_l, (wrap64_small (Z.of_nat (length ptrs)))
      by (unfold MAX_SIZE_T; lia).
    reflexivity.
  - exact Hh'.
  - intros Hseq. apply item_errors_in_sequence; try lia.
    + rewrite <- (Forall2_length _ _ _ Hlive). unfold MAX_SIZE_T. lia.
    + intros i obj Hi. rewrite (Hseq i obj Hi). lia.
Qed.

Lemma X17_witness :
  exists q q',
    push_all x86_64 QUEUE_MASK 1 [100; 200] (init x86_64 QUEUE_MASK) = Some q
    /\ fastQueueConsumer x86_64 true 3 1
         (mkWorld (stopQueue x86_64 q)
            {[ 100 := mkMyObject 0; 200 := mkMyObject 1 ]} 0 1 [])
       = Returns (mkWorld q'
                    (delete_all [100; 200]
                       {[ 100 := mkMyObject 0; 200 := mkMyObject 1 ]})
                    (wrap64 (0 + Z.of_nat 2)) (wrap64 (1 - 1))
                    ([] ++ item_errors 0 [mkMyObject 0; mkMyObject 1]))
    /\ holds QUEUE_MASK q' []
    /\ ((forall (i : nat) obj,
            [mkMyObject 0; mkMyObject 1] !! i = Some obj -> mIndex obj = Z.of_nat i) ->
        item_errors 0 [mkMyObject 0; mkMyObject 1] = []).
Proof.
  destruct (push_all_holds QUEUE_MASK QUEUE_MASK_ok x86_64 0 [100; 200]
              (init x86_64 QUEUE_MASK) [] (holds_init QUEUE_MASK QUEUE_MASK_ok x86_64))
    as (q & Hpush & Hh & _).
  - repeat constructor; discriminate.
  - unfold QUEUE_MASK. simpl. lia.
  - exists q.
    destruct (X17_consumer_counts_checks_and_frees x86_64 0 0
                (mkWorld (stopQueue x86_64 q)
                   {[ 100 := mkMyObject 0; 200 := mkMyObject 1 ]} 0 1 [])
                q [100; 200] [mkMyObject 0; mkMyObject 1] Hh eq_refl)
      as (q' & H).
    + apply NoDup_cons_2; [|apply NoDup_singleton].
      rewrite list_elem_of_singleton. discriminate.
    + repeat constructor.
    + exists q'. split; [exact Hpush|exact H].
Defined.

End MainExtras.

(** ** The sentinel-tracked queue: runs with [stopQueue] *)

Module FastQueueShutdown.
Import FastQueueData FastQueueSpec FastQueueFacts.

(** Whole operations, [stopQueue()] among them. *)
Inductive life_op : Type :=
| Op (o : op)
| StopQueue.

Definition life_nonnull (o : life_op) : Prop :=
  match o with
  | Op o' => pushes_nonnull o'
  | StopQueue => True
  end.

Lemma push_no_fuel (a : arch) (R : Z) (val : T) (q : FastQueue) :
  push a R 0 val q = None.
Proof. destruct a; reflexivity. Qed.

Lemma pop_no_fuel (a : arch) (R : Z) (q : FastQueue) : pop a R 0 q = None.
Proof. destruct a; reflexivity. Qed.

Section Runs.
Variable a : arch.
Variable RING_BUFFER_SIZE : Z.

(** [h_pushed] keeps the values a [push] has stored: a [push] that returns
    with the write position where it was has given up. *)
Definition step_life (fuel : nat) (o : life_op) (h : history) : option history :=
  let q := h_queue h in
  match o with
  | Op (Push val) =>
      match push a RING_BUFFER_SIZE fuel val q with
      | None => None
      | Some q' =>
          Some (mkHistory q'
                  (if mWritePosition q' =? mWritePosition q
                   then h_pushed h else h_pushed h ++ [val])
                  (h_popped h))
      end
  | Op Pop => step a RING_BUFFER_SIZE fuel Pop h
  | StopQueue => Some (mkHistory (stopQueue a q) (h_pushed h) (h_popped h))
  end.

Fixpoint run_life (fuel : nat) (ops : list life_op) (h : history)
  : option history :=
  match ops with
  | [] => Some h
  | o :: ops' =>
      match step_life fuel o h with
      | None => None
      | Some h' => run_life fuel ops' h'
      end
  end.

Hypothesis Hring : ring_ok RING_BUFFER_SIZE.

Definition life_inv (h : history) : Prop :=
  exists pending,
    holds RING_BUFFER_SIZE (h_queue h) pending
    /\ h_pushed h = h_popped h ++ pending.

Lemma step_life_inv (fuel : nat) (o : life_op) (h h' : history) :
  life_inv h -> life_nonnull o -> step_life fuel o h = Some h' -> life_inv h'.
Proof.
  intros (pending & Hh & Hfifo) Ho Hstep.
  destruct fuel as [|fuel].
  { destruct o as [[val|]|]; cbn [step_life step] in Hstep;
      rewrite ?push_no_fuel, ?pop_no_fuel in Hstep; [discriminate..|].
    inversion Hstep; subst. exists pending. simpl. split; [|exact Hfifo].
    apply holds_stopQueue. exact Hh. }
  destruct o as [[val|]|]; cbn [step_life] in Hstep.
  - destruct (Z.leb_spec (Z.of_nat (length pending)) RING_BUFFER_SIZE) as [Hroom|Hfull].
    + rewrite (push_room RING_BUFFER_SIZE Hring a fuel _ pending val Hh Hroom) in Hstep.
      assert (Hmoved : (mWritePosition (stored RING_BUFFER_SIZE val (h_queue h))
                        =? mWritePosition (h_queue h)) = false).
      { apply Z.eqb_neq.
        change (wrap64 (mWritePosition (h_queue h) + 1) <> mWritePosition (h_queue h)).
        rewrite (holds_write _ _ _ Hh). unfold wrap64.
        rewrite Zplus_mod_idemp_l. apply wrap64_succ_ne. }
      rewrite Hmoved in Hstep. inversion Hstep; subst h'.
      exists (pending ++ [val]). simpl. split.
      * apply holds_stored; assumption.
      * rewrite Hfifo, app_assoc. reflexivity.
    + rewrite (push_full RING_BUFFER_SIZE Hring a fuel _ pending val Hh) in Hstep
        by (pose proof (holds_bound _ _ _ Hh); lia).
      destruct (mExitThreadSemaphore (h_queue h)); [|discriminate].
      rewrite Z.eqb_refl in Hstep. inversion Hstep; subst h'.
      exists pending. simpl. auto.
  - unfold step in Hstep. destruct pending as [|val pending].
    + rewrite (pop_nothing_pending RING_BUFFER_SIZE Hring a fuel _ Hh) in Hstep.
      destruct (exit_test a (h_queue h)); [|discriminate].
      inversion Hstep; subst h'. exists []. simpl. auto.
    + rewrite (pop_pending RING_BUFFER_SIZE Hring a fuel _ val pending Hh) in Hstep.
      assert (Hval : val <> nullptr)
        by (pose proof (holds_nonnull _ _ _ Hh) as Hnn; inversion Hnn; assumption).
      destruct (Z.eqb_spec val nullptr); [contradiction|].
      inversion Hstep; subst h'. exists pending. simpl. split.
      * apply (holds_taken RING_BUFFER_SIZE Hring _ val). assumption.
      * rewrite Hfifo, <- app_assoc. reflexivity.
  - inversion Hstep; subst h'. exists pending. simpl. split; [|exact Hfifo].
    apply holds_stopQueue. exact Hh.
Qed.

Lemma run_life_inv (fuel : nat) (ops : list life_op) :
  forall h h' : history,
    life_inv h -> Forall life_nonnull ops ->
    run_life fuel ops h = Some h' -> life_inv h'.
Proof.
  induction ops as [|o ops IH]; intros h h' Hinv Hops Hrun; simpl in Hrun.
  - inversion Hrun; subst. exact Hinv.
  - inversion Hops; subst.
    destruct (step_life fuel o h) as [h1|] eqn:Hstep; [|discriminate].
    eapply IH; [|eassumption|eassumption].
    eapply step_life_inv; eassumption.
Qed.

(** What the next operation does in a state of the invariant. *)
Lemma next_push (h : history) (pending : list T) (fuel : nat) (val : T) :
  holds RING_BUFFER_SIZE (h_queue h) pending ->
  val <> nullptr ->
  if Z.of_nat (length pending) <=? RING_BUFFER_SIZE
  then exists h',
         step_life (S fuel) (Op (Push val)) h = Some h'
         /\ holds RING_BUFFER_SIZE (h_queue h') (pending ++ [val])
         /\ h_pushed h' = h_pushed h ++ [val]
         /\ h_popped h' = h_popped h
  else step_life (S fuel) (Op (Push val)) h
       = if mExitThreadSemaphore (h_queue h) then Some h else None.
Proof.
  intros Hh Hval. cbn [step_life].
  destruct (Z.leb_spec (Z.of_nat (length pending)) RING_BUFFER_SIZE) as [Hroom|Hfull].
  - rewrite (push_room RING_BUFFER_SIZE Hring a fuel _ pending val Hh Hroom).
    assert (Hmoved : (mWritePosition (stored RING_BUFFER_SIZE val (h_queue h))
                      =? mWritePosition (h_queue h)) = false).
    { apply Z.eqb_neq.
      change (wrap64 (mWritePosition (h_queue h) + 1) <> mWritePosition (h_queue h)).
      rewrite (holds_write _ _ _ Hh). unfold wrap64.
      rewrite Zplus_mod_idemp_l. apply wrap64_succ_ne. }
    rewrite Hmoved. eexists. split; [reflexivity|]. simpl.
    split_and!; try reflexivity.
    apply holds_stored; assumption.
  - rewrite (push_full RING_BUFFER_SIZE Hring a fuel _ pending val Hh)
      by (pose proof (holds_bound _ _ _ Hh); lia).
    destruct (mExitThreadSemaphore (h_queue h)); [|reflexivity].
    rewrite Z.eqb_refl. destruct h; reflexivity.
Qed.

Lemma next_pop (h : history) (pending : list T) (fuel : nat) :
  holds RING_BUFFER_SIZE (h_queue h) pending ->
  match pending with
  | val :: rest =>
      exists h',
        step_life (S fuel) (Op Pop) h = Some h'
        /\ holds RING_BUFFER_SIZE (h_queue h') rest
        /\ h_pushed h' = h_pushed h
        /\ h_popped h' = h_popped h ++ [val]
  | [] =>
      step_life (S fuel) (Op Pop) h
      = if exit_test a (h_queue h) then Some h else None
  end.
Proof.
  intros Hh. cbn [step_life step].
  destruct pending as [|val rest].
  - rewrite (pop_nothing_pending RING_BUFFER_SIZE Hring a fuel _ Hh).
    destruct (exit_test a (h_queue h)); [|reflexivity].
    destruct h; reflexivity.
  - rewrite (pop_pending RING_BUFFER_SIZE Hring a fuel _ val rest Hh).
    assert (Hval : val <> nullptr)
      by (pose proof (holds_nonnull _ _ _ Hh) as Hnn; inversion Hnn; assumption).
    destruct (Z.eqb_spec val nullptr); [contradiction|].
    eexists. split; [reflexivity|]. simpl. split_and!; try reflexivity.
    apply (holds_taken RING_BUFFER_SIZE Hring _ val). assumption.
Qed.

End Runs.
End FastQueueShutdown.

Section ShutdownExtras.
Import FastQueueData FastQueueSpec FastQueueFacts FastQueueShutdown.

(** X18.  FIFO under shutdown, both variants.  In every state a run of
    [push] (non-null values), [pop] and [stopQueue()] calls leads to from
    the fresh queue, the values popped so far are, in order, the values
    stored so far less those still pending in the ring.  In that state the
    next [push] stores its value behind the pending ones whenever the ring
    is not full, whether or not shutdown was requested; on the full ring it
    stores nothing, returning at once if shutdown was requested and never
    otherwise.  The next [pop] returns the oldest pending element if there
    is one; on the empty ring it returns [nullptr] if the exit test holds
    and never returns otherwise.  So shutdown reorders nothing and discards
    nothing that a [push] has stored. *)
Theorem X18_shutdown_keeps_fifo (a : arch) (RING_BUFFER_SIZE : Z) (fuel : nat)
    (ops : list life_op) (h : history) :
  ring_ok RING_BUFFER_SIZE ->
  Forall life_nonnull ops ->
  run_life a RING_BUFFER_SIZE fuel ops
    (mkHistory (init a RING_BUFFER_SIZE) [] []) = Some h ->
  exists pending,
    holds RING_BUFFER_SIZE (h_queue h) pending
    /\ h_pushed h = h_popped h ++ pending
    /\ (forall (f : nat) (val : T),
          val <> nullptr ->
          if Z.of_nat (length pending) <=? RING_BUFFER_SIZE
          then exists h',
                 step_life a RING_BUFFER_SIZE (S f) (Op (Push val)) h = Some h'
                 /\ holds RING_BUFFER_SIZE (h_queue h') (pending ++ [val])
                 /\ h_pushed h' = h_pushed h ++ [val]
                 /\ h_popped h' = h_popped h
          else step_life a RING_BUFFER_SIZE (S f) (Op (Push val)) h
               = if mExitThreadSemaphore (h_queue h) then Some h else None)
    /\ (forall f : nat,
          match pending with
          | val :: rest =>
              exists h',
                step_life a RING_BUFFER_SIZE (S f) (Op Pop) h = Some h'
                /\ holds RING_BUFFER_SIZE (h_queue h') rest
                /\ h_pushed h' = h_pushed h
                /\ h_popped h' = h_popped h ++ [val]
          | [] =>
              step_life a RING_BUFFER_SIZE (S f) (Op Pop) h
              = if exit_test a (h_queue h) then Some h else None
          end).
Proof.
  intros Hring Hops Hrun.
  destruct (run_life_inv a RING_BUFFER_SIZE Hring fuel ops
              (mkHistory (init a RING_BUFFER_SIZE) [] []) h)
    as (pending & Hh & Hfifo); try assumption.
  { exists []. split; [apply holds_init; assumption|reflexivity]. }
  exists pending. split_and!; try assumption.
  - intros f val Hval. apply next_push; assumption.
  - intros f. apply next_pop; assumption.
Qed.

Lemma X18_witness :
  exists h pending,
    run_life x86_64 1 1
      [Op (Push 5); Op (Push 6); StopQueue; Op (Push 7); Op Pop; Op (Push 8);
       Op Pop; Op Pop]
      (mkHistory (init x86_64 1) [] []) = Some h
    /\ h_pushed h = [5; 6; 8]
    /\ holds 1 (h_queue h) pending
    /\ h_pushed h = h_popped h ++ pending
    /\ (forall (f : nat) (val : T),
          val <> nullptr ->
          if Z.of_nat (length pending) <=? 1
          then exists h',
                 step_life x86_64 1 (S f) (Op (Push val)) h = Some h'
                 /\ holds 1 (h_queue h') (pending ++ [val])
                 /\ h_pushed h' = h_pushed h ++ [val]
                 /\ h_popped h' = h_popped h
          else step_life x86_64 1 (S f) (Op (Push val)) h
               = if mExitThreadSemaphore (h_queue h) then Some h else None)
    /\ (forall f : nat,
          match pending with
          | val :: rest =>
              exists h',
                step_life x86_64 1 (S f) (Op Pop) h = Some h'
                /\ holds 1 (h_queue h') rest
                /\ h_pushed h' = h_pushed h
                /\ h_popped h' = h_popped h ++ [val]
          | [] =>
              step_life x86_64 1 (S f) (Op Pop) h
              = if exit_test x86_64 (h_queue h) then Some h else None
          end).
Proof.
  eexists.
  assert (Hrun : run_life x86_64 1 1
                   [Op (Push 5); Op (Push 6); StopQueue; Op (Push 7); Op Pop;
                    Op (Push 8); Op Pop; Op Pop]
                   (mkHistory (init x86_64 1) [] []) = Some _)
    by (vm_compute; reflexivity).
  destruct (X18_shutdown_keeps_fifo x86_64 1 1
              [Op (Push 5); Op (Push 6); StopQueue; Op (Push 7); Op Pop;
               Op (Push 8); Op Pop; Op Pop] _
              ltac:(split; [unfold MAX_SIZE_T; lia|reflexivity])
              ltac:(repeat constructor; discriminate) Hrun)
    as (pending & H).
  exists pending. split; [exact Hrun|]. split; [reflexivity|exact H].
Defined.

End ShutdownExtras.
